(** * Scagnostics core of the chart advisor: selection, quantiles, graphs

    A shallow embedding of
    - [packages/chart-advisor/src/perception/findScag/util.ts]
      (quickselect, quantileSorted, quantile, quantileArray, ...),
    - the grapher module (DisjointSet, createGraph, mst,
      delaunayFromPoints, convexHull, concaveHull1, ...),
    - the entry point [scagScorer].

    JavaScript numbers are modelled by rationals [Q]; [===] on numbers is
    [Qeq_bool].  Arithmetic on [Q] is exact.  Where a result depends on
    how the machine rounds a product or a sum of doubles, the operation
    is a parameter of the definition ([quantileSorted_by], [relax_by],
    [concaveHullArea]); [fl] rounds to the nearest double.  Array indices
    are integers [Z]; reading outside an array gives [undefined], modelled
    by [None]. *)

From Stdlib Require Import List ZArith QArith Qround Qabs Lia Lqa Bool.
From Stdlib Require Import Permutation String Ascii DecimalString.
From Stdlib Require Import Sorting.Sorted.
Import ListNotations.
Open Scope Z_scope.

(** ** Outcomes of a run *)

(** A modelled run either completes, throws, needs more fuel (loops are
    run with a step budget), or performs an array write outside
    [0, length): JavaScript would then grow the array (or add a property
    for a negative index); the model stops there with [OutOfRange]. *)
Inductive run (A : Type) : Type :=
| Done (a : A)
| Throw (msg : string)
| OutOfFuel
| OutOfRange.
Arguments Done {A} a.
Arguments Throw {A} msg.
Arguments OutOfFuel {A}.
Arguments OutOfRange {A}.

Definition bind {A B} (m : run A) (f : A -> run B) : run B :=
  match m with
  | Done a => f a
  | Throw e => Throw e
  | OutOfFuel => OutOfFuel
  | OutOfRange => OutOfRange
  end.

Notation "x <- m ;; k" := (bind m (fun x => k))
  (at level 61, m at next level, right associativity).
Notation "' pat <- m ;; k" := (bind m (fun x => match x with pat => k end))
  (at level 61, pat pattern, m at next level, right associativity).

(** ** Arrays of numbers *)

Definition array := list Q.

Definition len (arr : array) : Z := Z.of_nat (List.length arr).

(** [arr[i]]: [None] stands for [undefined]. *)
Definition get (arr : array) (i : Z) : option Q :=
  if i <? 0 then None else nth_error arr (Z.to_nat i).

Definition in_range (arr : array) (i : Z) : bool :=
  (0 <=? i) && (i <? len arr).

Fixpoint set_nth (arr : array) (n : nat) (v : Q) : array :=
  match arr, n with
  | [], _ => []
  | _ :: r, O => v :: r
  | x :: r, S n' => x :: set_nth r n' v
  end.

(** [arr[i] = v] for [i] inside the array. *)
Definition set (arr : array) (i : Z) (v : Q) : array :=
  set_nth arr (Z.to_nat i) v.

(** Comparisons of possibly undefined operands: any comparison with
    [undefined] is false. *)
Definition Qltb (a b : Q) : bool := if Qlt_le_dec a b then true else false.

Definition js_lt (a b : option Q) : bool :=
  match a, b with
  | Some x, Some y => Qltb x y
  | _, _ => false
  end.

Definition js_gt (a b : option Q) : bool := js_lt b a.

(** [a === b]: numeric equality; [undefined === undefined] holds. *)
Definition js_eq (a b : option Q) : bool :=
  match a, b with
  | Some x, Some y => Qeq_bool x y
  | None, None => true
  | _, _ => false
  end.

(** [x % 1 === 0] *)
Definition is_integer (x : Q) : bool := Qeq_bool (inject_Z (Qfloor x)) x.

(** ** util.ts *)

(** [swap(arr, i, j)] *)
Definition swap (arr : array) (i j : Z) : run array :=
  match get arr i, get arr j with
  | Some vi, Some vj => Done (set (set arr i vj) j vi)
  | _, _ => OutOfRange
  end.

(** [while (arr[i] < t) i++;] started at the elements [l = arr[i..]]. *)
Fixpoint scan_up_from (l : list Q) (t : option Q) (i : Z) : Z :=
  match l with
  | [] => i
  | x :: l' => if js_lt (Some x) t then scan_up_from l' t (i + 1) else i
  end.

Definition scan_up (arr : array) (t : option Q) (i : Z) : Z :=
  if i <? 0 then i else scan_up_from (skipn (Z.to_nat i) arr) t i.

(** [while (arr[j] > t) j--;] started at [l = arr[j], arr[j-1], ..., arr[0]]. *)
Fixpoint scan_down_from (l : list Q) (t : option Q) (j : Z) : Z :=
  match l with
  | [] => j
  | x :: l' => if js_gt (Some x) t then scan_down_from l' t (j - 1) else j
  end.

Definition scan_down (arr : array) (t : option Q) (j : Z) : Z :=
  if (j <? 0) || (len arr <=? j) then j
  else scan_down_from (rev (firstn (Z.to_nat j + 1) arr)) t j.

(** The Hoare loop [while (i < j) { swap; i++; j--; scan; scan }];
    returns the array and the final [j]. *)
Fixpoint hoare_loop (n : nat) (arr : array) (t : option Q) (i j : Z)
  : run (array * Z) :=
  if i <? j then
    match n with
    | O => OutOfFuel
    | S n' =>
        arr1 <- swap arr i j ;;
        let i1 := scan_up arr1 t (i + 1) in
        let j1 := scan_down arr1 t (j - 1) in
        hoare_loop n' arr1 t i1 j1
    end
  else Done (arr, j).

(** One partition of [left, right] around [t = arr[k]]: lines 115-134.
    Returns the array and the pivot's final position [j]. *)
Definition partition (arr : array) (k left right : Z) : run (array * Z) :=
  let t := get arr k in
  arr1 <- swap arr left k ;;
  arr2 <- (if js_gt (get arr1 right) t then swap arr1 left right
           else Done arr1) ;;
  '(arr3, j) <- hoare_loop (Z.to_nat (right - left)) arr2 t left right ;;
  if js_eq (get arr3 left) t then
    arr4 <- swap arr3 left j ;; Done (arr4, j)
  else
    arr4 <- swap arr3 (j + 1) right ;; Done (arr4, j + 1).

Section Quickselect.

(** [Math.log], [Math.exp], [Math.sqrt]: floating-point library
    functions, kept abstract. *)
Variables Math_log Math_exp Math_sqrt : Q -> Q.

(** The sub-range [newLeft, newRight] of the Floyd-Rivest step. *)
Definition fr_range (k left right : Z) : Z * Z :=
  let n := inject_Z (right - left + 1) in
  let m := inject_Z (k - left + 1) in
  let z := Math_log n in
  let s := ((1 # 2) * Math_exp ((2 * z) / 3))%Q in
  let sd := ((1 # 2) * Math_sqrt ((z * s * (n - s)) / n))%Q in
  let sd := if Qltb (m - n / 2) 0 then (sd * - (1))%Q else sd in
  let kq := inject_Z k in
  let newLeft := Z.max left (Qfloor (kq - (m * s) / n + sd)) in
  let newRight := Z.min right (Qfloor (kq + ((n - m) * s) / n + sd)) in
  (newLeft, newRight).

(** The body of [while (right > left)]. *)
Fixpoint quickselect_loop (fuel : nat) (arr : array) (k left right : Z)
  : run array :=
  if left <? right then
    match fuel with
    | O => OutOfFuel
    | S fuel' =>
        arr0 <- (if 600 <? right - left then
                   let '(newLeft, newRight) := fr_range k left right in
                   (* the recursive call re-applies the defaults
                      [left || 0] and [right || arr.length - 1] *)
                   let l' := newLeft in
                   let r' := if newRight =? 0 then len arr - 1
                             else newRight in
                   quickselect_loop fuel' arr k l' r'
                 else Done arr) ;;
        '(arr1, j) <- partition arr0 k left right ;;
        let left' := if j <=? k then j + 1 else left in
        let right' := if k <=? j then j - 1 else right in
        quickselect_loop fuel' arr1 k left' right'
    end
  else Done arr.

(** [quickselect(arr, k, left, right)]: [left || 0] is the identity on
    integers; [right || arr.length - 1] replaces a right bound of 0. *)
Definition quickselect (fuel : nat) (arr : array) (k left right : Z)
  : run array :=
  let right := if right =? 0 then len arr - 1 else right in
  quickselect_loop fuel arr k left right.

End Quickselect.

(** A numeric value that may be [undefined] or [NaN]: both are [None]. *)
Definition value := option Q.

(** [(a + b) / 2] on possibly undefined operands ([NaN] when one is). *)
Definition js_avg (a b : value) : value :=
  match a, b with
  | Some x, Some y => Some ((x + y) / 2)%Q
  | _, _ => None
  end.

(** [quantileSorted(x, p)], with the product [x.length * p] exact. *)
Definition quantileSorted (x : array) (p : Q) : run value :=
  let idx := (inject_Z (len x) * p)%Q in
  if len x =? 0 then
    Throw "quantile requires at least one data point."
  else if Qltb p 0 || Qltb 1 p then
    Throw "quantiles must be between 0 and 1"
  else if Qeq_bool p 1 then Done (get x (len x - 1))
  else if Qeq_bool p 0 then Done (get x 0)
  else if negb (is_integer idx) then Done (get x (Qceiling idx - 1))
  else if len x mod 2 =? 0 then
    Done (js_avg (get x (Qfloor idx - 1)) (get x (Qfloor idx)))
  else Done (get x (Qfloor idx)).

(** [x.length * p] is a product of doubles and [(a + b) / 2] a sum of
    doubles, halved: the machine rounds them to the nearest double, so
    they need not be the exact product and mean.
    [quantileSorted_by times mean] is [quantileSorted] for the product
    and the mean as computed, [times] and [mean]; [quantileSorted] above
    is the instance in which both are exact. *)
Definition js_avg_by (mean : Q -> Q -> Q) (a b : value) : value :=
  match a, b with
  | Some x, Some y => Some (mean x y)
  | _, _ => None
  end.

Definition quantileSorted_by (times mean : Q -> Q -> Q) (x : array) (p : Q)
  : run value :=
  let idx := times (inject_Z (len x)) p in
  if len x =? 0 then
    Throw "quantile requires at least one data point."
  else if Qltb p 0 || Qltb 1 p then
    Throw "quantiles must be between 0 and 1"
  else if Qeq_bool p 1 then Done (get x (len x - 1))
  else if Qeq_bool p 0 then Done (get x 0)
  else if negb (is_integer idx) then Done (get x (Qceiling idx - 1))
  else if len x mod 2 =? 0 then
    Done (js_avg_by mean (get x (Qfloor idx - 1)) (get x (Qfloor idx)))
  else Done (get x (Qfloor idx)).

(** The double nearest to a rational, to even on a tie: 53 significant
    bits (the normal range; no overflow, no subnormals). *)
Definition fl (q : Q) : Q :=
  if Qeq_bool q 0 then 0%Q
  else
    let a := Qabs q in
    let e0 := Z.log2 (Qnum a) - Z.log2 (Zpos (Qden a)) - 52 in
    let e := if Qltb (a / 2 ^ e0) (2 ^ 52) then e0 - 1 else e0 in
    let m := (a / 2 ^ e)%Q in
    let r := Qfloor m in
    let f := (m - inject_Z r)%Q in
    let r' := if Qltb f (1 # 2) then r
              else if Qltb (1 # 2) f then r + 1
              else if Z.even r then r else r + 1 in
    let v := Qred (inject_Z r' * 2 ^ e) in
    if Qltb q 0 then (- v)%Q else v.

(** The product of two doubles as the machine gives it, and the mean
    [(a + b) / 2]. *)
Definition fl_times (a b : Q) : Q := fl (a * b).

Definition fl_mean (a b : Q) : Q := fl (fl (a + b) / 2).

(** [quantileIndex(len, p)]: an index, or a half-integer between the
    two indices to average. *)
Definition quantileIndex (n : Z) (p : Q) : Q :=
  let idx := (inject_Z n * p)%Q in
  if Qeq_bool p 1 then inject_Z (n - 1)
  else if Qeq_bool p 0 then 0%Q
  else if negb (is_integer idx) then inject_Z (Qceiling idx - 1)
  else if n mod 2 =? 0 then (idx - (1 # 2))%Q
  else idx.

(** [compare(a, b)] and [indices.sort(compare)]: the comparator is a
    consistent numeric order, so the (stable) sort is an ascending one. *)
Definition compare (a b : Q) : Q := (a - b)%Q.

Fixpoint insert_sorted (a : Q) (l : list Q) : list Q :=
  match l with
  | [] => [a]
  | b :: r => if Qltb (compare b a) 0 then b :: insert_sorted a r
              else a :: l
  end.

Definition sort_compare (l : list Q) : list Q :=
  fold_right insert_sorted [] l.

Section Quantiles.

Variables Math_log Math_exp Math_sqrt : Q -> Q.

Local Abbreviation quickselect :=
  (quickselect Math_log Math_exp Math_sqrt).

(** [quantileSelect(arr, k, left, right)] *)
Definition quantileSelect (fuel : nat) (arr : array) (k : Q)
  (left right : Z) : run array :=
  if is_integer k then quickselect fuel arr (Qfloor k) left right
  else
    let k := Qfloor k in
    arr1 <- quickselect fuel arr k left right ;;
    quickselect fuel arr1 (k + 1) (k + 1) right.

(** The stack loop of [multiQuantileSelect]; the top of the stack is
    the head of the list.  [indices[m]] is always inside [indices]
    ([0 <= l < m < r < indices.length]); the model stops with
    [OutOfRange] otherwise. *)
Fixpoint multiQuantileSelect_loop (fuel : nat) (arr : array)
  (indices : list Q) (stack : list Z) : run array :=
  match stack with
  | s1 :: s2 :: stack' =>
      match fuel with
      | O => OutOfFuel
      | S fuel' =>
          let r := s1 in
          let l := s2 in
          if r - l <=? 1 then
            multiQuantileSelect_loop fuel' arr indices stack'
          else
            let m := (l + r) / 2 in
            match get indices m, get indices l, get indices r with
            | Some im, Some il, Some ir =>
                arr1 <- quantileSelect fuel' arr im (Qfloor il)
                          (Qceiling ir) ;;
                multiQuantileSelect_loop fuel' arr1 indices
                  (r :: m :: m :: l :: stack')
            | _, _, _ => OutOfRange
            end
      end
  | _ => Done arr
  end.

(** [multiQuantileSelect(arr, p)] *)
Definition multiQuantileSelect (fuel : nat) (arr : array) (p : list Q)
  : run array :=
  let indices :=
    [0%Q] ++ map (quantileIndex (len arr)) p ++ [inject_Z (len arr - 1)] in
  let indices := sort_compare indices in
  multiQuantileSelect_loop fuel arr indices [len indices - 1; 0].

(** *** The store: arrays are objects, [x.slice()] allocates *)

Definition loc := nat.
Definition heap := list array.

Definition alloc (h : heap) (a : array) : heap * loc :=
  (h ++ [a], List.length h).

Fixpoint store (h : heap) (l : loc) (a : array) : heap :=
  match h, l with
  | [], _ => []
  | _ :: r, O => a :: r
  | x :: r, S l' => x :: store r l' a
  end.

Definition deref (h : heap) (l : loc) : run array :=
  match nth_error h l with
  | Some a => Done a
  | None => Throw "TypeError"
  end.

(** The store is threaded through a call; when a step throws, the
    store is the one reached so far (when a selection on the copy stops
    for lack of fuel or range, the copy is shown as it was before that
    selection). *)
Definition on_heap {A B} (h : heap) (m : run A) (k : A -> heap * run B)
  : heap * run B :=
  match m with
  | Done a => k a
  | Throw e => (h, Throw e)
  | OutOfFuel => (h, OutOfFuel)
  | OutOfRange => (h, OutOfRange)
  end.

(** [quantile(x, p)]: works on [copy = x.slice()]. *)
Definition quantile (fuel : nat) (h : heap) (x : loc) (p : Q)
  : heap * run value :=
  on_heap h (deref h x) (fun xs =>
  let '(h1, copy) := alloc h xs in
  on_heap h1 (deref h1 copy) (fun c =>
  let idx := quantileIndex (len c) p in
  on_heap h1 (quantileSelect fuel c idx 0 (len c - 1)) (fun c1 =>
  let h2 := store h1 copy c1 in
  on_heap h2 (deref h2 copy) (fun c2 =>
  (h2, quantileSorted c2 p))))).

(** The loop [results[i] = quantileSorted(copy, p[i])]. *)
Fixpoint quantileSorted_each (c : array) (p : list Q) : run (list value) :=
  match p with
  | [] => Done []
  | pi :: p' =>
      v <- quantileSorted c pi ;;
      vs <- quantileSorted_each c p' ;;
      Done (v :: vs)
  end.

(** [quantileArray(x, p)] with [p] an array. *)
Definition quantileArray (fuel : nat) (h : heap) (x : loc) (p : list Q)
  : heap * run (list value) :=
  on_heap h (deref h x) (fun xs =>
  let '(h1, copy) := alloc h xs in
  on_heap h1 (deref h1 copy) (fun c =>
  on_heap h1 (multiQuantileSelect fuel c p) (fun c1 =>
  let h2 := store h1 copy c1 in
  on_heap h2 (deref h2 copy) (fun c2 =>
  (h2, quantileSorted_each c2 p))))).

End Quantiles.


(** ** grapher: points, links, graphs *)

(** A point is a two-element array [[x, y]]. *)
Definition point : Type := Q * Q.

(** [equalPoints(id1, id2)] *)
Definition equalPoints (id1 id2 : point) : bool :=
  Qeq_bool (fst id1) (fst id2) && Qeq_bool (snd id1) (snd id2).

Record link : Type := makeLink
  { source : point; target : point; weight : Q }.

Record node : Type := makeNode { id : point }.

Record graph : Type := { nodes : list node; links : list link }.

(** [equalLinks(l1, l2)] *)
Definition equalLinks (l1 l2 : link) : bool :=
  (equalPoints (source l1) (source l2) && equalPoints (target l1) (target l2))
  || (equalPoints (source l1) (target l2) && equalPoints (target l1) (source l2)).

(** [idExists(nodes, id)] *)
Definition idExists (nodes : list node) (i : point) : bool :=
  existsb (fun n => equalPoints (id n) i) nodes.

(** [linkExists(links, link)] *)
Definition linkExists (links : list link) (l : link) : bool :=
  existsb (fun l' => equalLinks l l') links.

(** [Math.round(x)]: the nearest integer, halves rounded up. *)
Definition Math_round (x : Q) : Z := Qfloor (x + (1 # 2)).

Section Distance.

Variable Math_sqrt : Q -> Q.

(** [distance(a, b)]: the length rounded to ten decimals. *)
Definition distance (a b : point) : Q :=
  let dx := (fst a - fst b)%Q in
  let dy := (snd a - snd b)%Q in
  (inject_Z (Math_round (Math_sqrt (dx * dx + dy * dy) * inject_Z (10 ^ 10)))
   / inject_Z (10 ^ 10))%Q.

Definition triangle : Type := point * point * point.

(** [t[i]] for [i] in 0, 1, 2. *)
Definition corner (t : triangle) (i : Z) : point :=
  let '(a, b, c) := t in
  if i =? 0 then a else if i =? 1 then b else c.

Definition add_node (ns : list node) (p : point) : list node :=
  if idExists ns p then ns else ns ++ [makeNode p].

Definition add_link (ls : list link) (p1 p2 : point) : list link :=
  let l := makeLink p1 p2 (distance p1 p2) in
  if linkExists ls l then ls else ls ++ [l].

(** [createGraph(triangles)] *)
Definition createGraph (triangles : list triangle) : graph :=
  let ns :=
    fold_left (fun ns t =>
                 fold_left (fun ns i => add_node ns (corner t i)) [0; 1; 2] ns)
              triangles [] in
  let ls :=
    fold_left (fun ls t =>
                 fold_left (fun ls i =>
                              add_link ls (corner t i) (corner t ((i + 1) mod 3)))
                           [0; 1; 2] ls)
              triangles [] in
  {| nodes := ns; links := ls |}.

End Distance.

(** ** grapher: the disjoint-set forest *)

(** A forest node.  [parent_] is a reference to a node object; node
    objects are in one-to-one correspondence with the keys of [index_],
    so the reference is modelled by the key of the parent.  The property
    [rank] (without underscore) read by [union] is never defined. *)
Record NodeObj : Type :=
  { id_ : point; parent_ : point; rank_ : Z }.

Definition rank (n : NodeObj) : option Q := None.

(** The forest object: [index_] maps keys (the point, written ["x,y"])
    to node values; [undefined] values are [None]. *)
Record Forest : Type := { index_ : list (point * option NodeObj) }.

Fixpoint lookup (ix : list (point * option NodeObj)) (k : point)
  : option NodeObj :=
  match ix with
  | [] => None
  | (k', v) :: r => if equalPoints k' k then v else lookup r k
  end.

Fixpoint update (ix : list (point * option NodeObj)) (k : point)
  (v : option NodeObj) : list (point * option NodeObj) :=
  match ix with
  | [] => [(k, v)]
  | (k', v') :: r =>
      if equalPoints k' k then (k', v) :: r else (k', v') :: update r k v
  end.

(** Constructor functions.  The bodies take [this] explicitly and return
    the initialised object: assigning a property of an undefined [this]
    throws a [TypeError]. *)
Definition DisjointSet (this : option Forest) : run Forest :=
  match this with
  | None => Throw "TypeError"
  | Some _ => Done {| index_ := [] |}
  end.

Definition Node (i : point) (this : option NodeObj) : run NodeObj :=
  match this with
  | None => Throw "TypeError"
  | Some _ => Done {| id_ := i; parent_ := i; rank_ := 0 |}
  end.

(** [F(...)] without [new]: in module (strict) code the body runs with
    [this] undefined, and the value of the call is what the function
    returns; these constructors return nothing, so it is [undefined]. *)
Definition call_plain {A} (body : option A -> run A) : run (option A) :=
  _ <- body None ;; Done None.

(** A method call on a value that may be [undefined]. *)
Definition method {A B} (obj : option A) (f : A -> run B) : run B :=
  match obj with
  | None => Throw "TypeError"
  | Some o => f o
  end.

(** [makeSet(id)]: [Node(id)] is called without [new]. *)
Definition makeSet (this : Forest) (i : point) : run Forest :=
  match lookup (index_ this) i with
  | Some _ => Done this
  | None =>
      created <- call_plain (Node i) ;;
      Done {| index_ := update (index_ this) i created |}
  end.

(** The loop [while (current !== current.parent_)] of [find]. *)
Fixpoint find_loop (fuel : nat) (this : Forest) (current : NodeObj)
  : run point :=
  if equalPoints (id_ current) (parent_ current) then Done (id_ current)
  else
    match fuel with
    | O => OutOfFuel
    | S fuel' =>
        method (lookup (index_ this) (parent_ current))
               (fun parent => find_loop fuel' this parent)
    end.

(** [find(id)]: [None] is [undefined]. *)
Definition find (fuel : nat) (this : Forest) (i : point)
  : run (option point) :=
  match lookup (index_ this) i with
  | None => Done None
  | Some n =>
      method (lookup (index_ this) (parent_ n))
             (fun current => r <- find_loop fuel this current ;; Done (Some r))
  end.

Definition set_parent (this : Forest) (n root : NodeObj) : Forest :=
  {| index_ := update (index_ this) (id_ n)
                 (Some {| id_ := id_ n; parent_ := id_ root;
                          rank_ := rank_ n |}) |}.

Definition incr_rank (this : Forest) (n : NodeObj) : Forest :=
  {| index_ := update (index_ this) (id_ n)
                 (Some {| id_ := id_ n; parent_ := parent_ n;
                          rank_ := rank_ n + 1 |}) |}.

Definition index_of (this : Forest) (k : option point) : option NodeObj :=
  match k with
  | None => None
  | Some k => lookup (index_ this) k
  end.

(** [union(x, y)] *)
Definition union (fuel : nat) (this : Forest) (x y : point) : run Forest :=
  fx <- find fuel this x ;;
  fy <- find fuel this y ;;
  match index_of this fx, index_of this fy with
  | Some xRoot, Some yRoot =>
      if equalPoints (id_ xRoot) (id_ yRoot) then Done this
      else if js_lt (rank xRoot) (rank yRoot) then
        Done (set_parent this xRoot yRoot)
      else if rank_ yRoot <? rank_ xRoot then
        Done (set_parent this yRoot xRoot)
      else
        Done (incr_rank (set_parent this yRoot xRoot) xRoot)
  | _, _ => Done this
  end.

(** [size()]: the number of keys of [index_]. *)
Definition size (this : Forest) : Z := Z.of_nat (List.length (index_ this)).

(** ** grapher: mst *)

(** [edges.sort((a, b) => -(a.weight - b.weight))]: a consistent
    comparator, so the stable sort is by descending weight. *)
Fixpoint insert_link (a : link) (l : list link) : list link :=
  match l with
  | [] => [a]
  | b :: r => if Qltb (- (weight b - weight a)) 0 then b :: insert_link a r
              else a :: l
  end.

Definition sort_links (l : list link) : list link :=
  fold_right insert_link [] l.

(** [a !== b] on the results of [find]: two roots are the same object
    exactly when their keys agree. *)
Definition same_root (a b : option point) : bool :=
  match a, b with
  | Some p, Some q => equalPoints p q
  | None, None => true
  | _, _ => false
  end.

(** The loop [while (edges.length && forest.size() > 1)]; [edges.pop()]
    takes the last element, so [edges] is kept reversed. *)
Fixpoint mst_loop (fuel : nat) (forest : option Forest)
  (edges_rev : list link) (selectedEdges : list link) : run (list link) :=
  match edges_rev with
  | [] => Done selectedEdges
  | edge :: rest =>
      n <- method forest (fun f => Done (size f)) ;;
      if 1 <? n then
        a <- method forest (fun f => find fuel f (source edge)) ;;
        b <- method forest (fun f => find fuel f (target edge)) ;;
        if same_root a b then mst_loop fuel forest rest selectedEdges
        else
          f' <- method forest
                  (fun f => union fuel f (source edge) (target edge)) ;;
          mst_loop fuel (Some f') rest (selectedEdges ++ [edge])
      else Done selectedEdges
  end.

(** [mst(graph)]: [forest = DisjointSet()] is a call without [new]. *)
Definition mst (fuel : nat) (g : graph) : run graph :=
  let vertices := nodes g in
  let edges := links g in
  forest <- call_plain DisjointSet ;;
  forest <- fold_left (fun acc v =>
                         f <- acc ;;
                         f' <- method f (fun f => makeSet f (id v)) ;;
                         Done (Some f'))
                      vertices (Done forest) ;;
  let edges := sort_links edges in
  selectedEdges <- mst_loop fuel forest (rev edges) [] ;;
  Done {| nodes := vertices; links := selectedEdges |}.

(** ** grapher: delaunayFromPoints *)

(** The object returned by [delaunayFromPoints]: the fields the pipeline
    reads.  [triangleCoordinates] is [None] when the object has no such
    method. *)
Record DelaunayObj : Type :=
  { triangles : list Z;
    points : list point;
    triangleCoordinates : option (list (point * point * point)) }.

(** The comparator of [copiedSites.sort]. *)
Definition site_compare (a b : point) : Q :=
  if Qltb (fst b) (fst a) then (fst a - fst b)%Q else (snd a - snd b)%Q.

(** The loop [for (let i = 0; i < siteLength; i = i + 2)]. *)
Fixpoint fan_loop (steps : nat) (i siteLength : Z) (tgs : list Z)
  : run (list Z) :=
  if i <? siteLength then
    match steps with
    | O => OutOfFuel
    | S steps' =>
        let tgs := if i + 1 <? siteLength then tgs ++ [i; i + 1] else tgs in
        let tgs := if i + 2 <? siteLength then tgs ++ [i + 2]
                   else if siteLength mod 2 =? 0 then tgs ++ [i - 1]
                   else tgs in
        fan_loop steps' (i + 2) siteLength tgs
    end
  else Done tgs.

Section Delaunay.

(** [isA2DLine] lives in the constructor module; [Array.prototype.sort]
    and d3's [Delaunay.from] are library code. *)
Variable isA2DLine : list point -> bool.
Variable Array_sort : (point -> point -> Q) -> list point -> list point.
Variable Delaunay_from : list point -> DelaunayObj.

(** [delaunayFromPoints(sites)] *)
Definition delaunayFromPoints (sites : list point) : run DelaunayObj :=
  if isA2DLine sites then
    let copiedSites := Array_sort site_compare sites in
    let siteLength := Z.of_nat (List.length copiedSites) in
    tgs <- fan_loop (Z.to_nat siteLength) 0 siteLength [] ;;
    Done {| triangles := tgs; points := copiedSites;
            triangleCoordinates := None |}
  else
    let delaunay := Delaunay_from sites in
    Done {| triangles := triangles delaunay; points := sites;
            triangleCoordinates := triangleCoordinates delaunay |}.

End Delaunay.

(** Modelled from the spec: [isA2DLine] of the constructor module, which
    is not among the sources; the sites are collinear when they all share
    one x or lie on one line, that is, when every three of them are
    aligned. *)
Definition aligned (p q r : point) : bool :=
  Qeq_bool ((fst q - fst p) * (snd r - snd p))%Q
           ((snd q - snd p) * (fst r - fst p))%Q.

Definition isA2DLine_spec (sites : list point) : bool :=
  forallb (fun p => forallb (fun q => forallb (aligned p q) sites) sites) sites.

(** One admissible [Array.prototype.sort]: a stable insertion sort. *)
Section InsertionSort.
Context {A : Type} (cmp : A -> A -> Q).

Fixpoint insert_by (a : A) (l : list A) : list A :=
  match l with
  | [] => [a]
  | b :: r => if Qltb (cmp b a) 0 || Qeq_bool (cmp b a) 0
              then b :: insert_by a r
              else a :: l
  end.

Definition insertion_sort (l : list A) : list A :=
  fold_left (fun acc a => insert_by a acc) l [].
End InsertionSort.

(** ** grapher: concaveHull1 *)

(** A cell is a two-element array of site indices. *)
Definition cell : Type := Z * Z.

(** [String(i)] for an integer index. *)
Definition to_string (i : Z) : string := NilZero.string_of_int (Z.to_int i).

(** [edge.sort()]: the default order compares the elements as strings. *)
Definition sort_cell (e : cell) : cell :=
  let '(a, b) := e in
  if String.ltb (to_string b) (to_string a) then (b, a) else (a, b).

Definition cell_eqb (e1 e2 : cell) : bool :=
  (fst e1 =? fst e2) && (snd e1 =? snd e2).

(** The object [edgeCount], keyed by [edge.join(',')]. *)
Fixpoint count_of (edgeCount : list (cell * Z)) (k : cell) : option Z :=
  match edgeCount with
  | [] => None
  | (k', v) :: r => if cell_eqb k' k then Some v else count_of r k
  end.

Fixpoint count_set (edgeCount : list (cell * Z)) (k : cell) (v : Z)
  : list (cell * Z) :=
  match edgeCount with
  | [] => [(k, v)]
  | (k', v') :: r =>
      if cell_eqb k' k then (k', v) :: r else (k', v') :: count_set r k v
  end.

(** [edgeCount[theKey] ? edgeCount[theKey] : 0 + 1]: the conditional
    binds weaker than [+], so the alternative is [0 + 1]. *)
Definition next_count (c : option Z) : Z :=
  match c with
  | Some v => if v =? 0 then 0 + 1 else v
  | None => 0 + 1
  end.

(** The [forEach] that fills [edgeCount]; it sorts every cell in place. *)
Fixpoint count_edges (cells : list cell) (edgeCount : list (cell * Z))
  : list cell * list (cell * Z) :=
  match cells with
  | [] => ([], edgeCount)
  | edge :: rest =>
      let edge := sort_cell edge in
      let edgeCount :=
        count_set edgeCount edge (next_count (count_of edgeCount edge)) in
      let '(rest', edgeCount') := count_edges rest edgeCount in
      (edge :: rest', edgeCount')
  end.

(** The final [filter]. *)
Definition once_only (cells : list cell) (edgeCount : list (cell * Z))
  : list cell :=
  filter (fun e => match count_of edgeCount (sort_cell e) with
                   | Some 1 => true
                   | _ => false
                   end)
         (map sort_cell cells).

Definition getZ (l : list Z) (i : Z) : option Z :=
  if i <? 0 then None else nth_error l (Z.to_nat i).

Definition get_point (l : list point) (i : option Z) : run point :=
  match i with
  | Some i =>
      match (if i <? 0 then None else nth_error l (Z.to_nat i)) with
      | Some p => Done p
      | None => Throw "TypeError"
      end
  | None => Throw "TypeError"
  end.

Section ConcaveHull1.

Variable Math_sqrt : Q -> Q.
Variable Delaunay_from : list point -> DelaunayObj.

(** The three edges of the triangle at offset [i]: the inner [for]. *)
Definition push_edges (tris : list Z) (pts : list point) (longEdge : Q)
  (i : Z) (cells : list cell) : run (list cell) :=
  fold_left
    (fun acc j =>
       cells <- acc ;;
       let a := getZ tris (i + j) in
       let b := getZ tris (i + (j + 1) mod 3) in
       pa <- get_point pts a ;;
       pb <- get_point pts b ;;
       let d := distance Math_sqrt pa pb in
       if Qltb d longEdge then
         match a, b with
         | Some a, Some b => Done (cells ++ [(a, b)])
         | _, _ => Throw "TypeError"
         end
       else Done cells)
    [0; 1; 2] (Done cells).

(** [for (let i = 0; i < triangles.length; i += 3)] *)
Fixpoint pass (steps : nat) (tris : list Z) (pts : list point)
  (longEdge : Q) (i : Z) (cells : list cell) : run (list cell) :=
  if i <? Z.of_nat (List.length tris) then
    match steps with
    | O => OutOfFuel
    | S steps' =>
        cells <- push_edges tris pts longEdge i cells ;;
        pass steps' tris pts longEdge (i + 3) cells
    end
  else Done cells.

(** [while (cells.length <= 0)] *)
Fixpoint relax (fuel : nat) (tris : list Z) (pts : list point)
  (longEdge : Q) (cells : list cell) : run (list cell) :=
  if Z.of_nat (List.length cells) <=? 0 then
    match fuel with
    | O => OutOfFuel
    | S fuel' =>
        let longEdge := (longEdge + (1 # 100))%Q in
        cells <- pass (List.length tris) tris pts longEdge 0 cells ;;
        relax fuel' tris pts longEdge cells
    end
  else Done cells.

(** [concaveHull1(sites, longEdge)] *)
Definition concaveHull1 (fuel : nat) (sites : list point) (longEdge : Q)
  : run (list cell) :=
  let delaunay := Delaunay_from sites in
  let longEdge := (longEdge - (1 # 100))%Q in
  cells <- relax fuel (triangles delaunay) sites longEdge [] ;;
  let '(cells, edgeCount) := count_edges cells [] in
  Done (once_only cells edgeCount).

End ConcaveHull1.

Section ConcaveHull1Computed.

Variable Math_sqrt : Q -> Q.
Variable Delaunay_from : list point -> DelaunayObj.
(** [longEdge - 10e-3] and [longEdge + 10e-3] are a difference and a
    sum of doubles, rounded by the machine: [down] and [up] are these as
    computed.  [relax] and [concaveHull1] above are the instances whose
    difference and sum are exact. *)
Variables down up : Q -> Q.

(** [while (cells.length <= 0)] *)
Fixpoint relax_by (fuel : nat) (tris : list Z) (pts : list point)
  (longEdge : Q) (cells : list cell) : run (list cell) :=
  if Z.of_nat (List.length cells) <=? 0 then
    match fuel with
    | O => OutOfFuel
    | S fuel' =>
        let longEdge := up longEdge in
        cells <- pass Math_sqrt (List.length tris) tris pts longEdge 0 cells ;;
        relax_by fuel' tris pts longEdge cells
    end
  else Done cells.

(** [concaveHull1(sites, longEdge)] *)
Definition concaveHull1_by (fuel : nat) (sites : list point) (longEdge : Q)
  : run (list cell) :=
  let delaunay := Delaunay_from sites in
  let longEdge := down longEdge in
  cells <- relax_by fuel (triangles delaunay) sites longEdge [] ;;
  let '(cells, edgeCount) := count_edges cells [] in
  Done (once_only cells edgeCount).

End ConcaveHull1Computed.

(** The sum and the difference of two doubles as the machine gives
    them, and the double written [10e-3]. *)
Definition fl_plus (a b : Q) : Q := fl (a + b).

Definition fl_minus (a b : Q) : Q := fl (a - b).

Definition double_001 : Q := fl (1 # 100).

(** Stand-ins for [Math.log], [Math.exp] and [Math.sqrt] in the
    Floyd-Rivest step (reached only beyond 600 elements). *)
Definition log0 (x : Q) : Q := 0.
Definition exp4 (x : Q) : Q := 4.
Definition sqrt0 (x : Q) : Q := 0.

(** A stand-in for [Math.sqrt] with twelve exact decimals. *)
Definition sqrt_dec (x : Q) : Q :=
  (inject_Z (Z.sqrt (Qfloor (x * inject_Z (10 ^ 24)))) / inject_Z (10 ^ 12))%Q.

(** ** grapher: convexHull and sortVerticies *)

(** [Math.PI]: the double nearest to pi, an exact binary fraction. *)
Definition Math_PI : Q := 884279719003555 # 281474976710656.

(** [x % m] on numbers: the remainder has the sign of [x]. *)
Definition Qtrunc (x : Q) : Z := if Qltb x 0 then Qceiling x else Qfloor x.

Definition js_rem (x m : Q) : Q := (x - m * inject_Z (Qtrunc (x / m)))%Q.

(** [Array.from(new Set(l))]: the distinct values, first occurrences. *)
Fixpoint uniqZ (seen l : list Z) : list Z :=
  match l with
  | [] => []
  | a :: r => if existsb (Z.eqb a) seen then uniqZ seen r
              else a :: uniqZ (a :: seen) r
  end.

(** [cells.flat()] *)
Definition flat (cells : list cell) : list Z :=
  flat_map (fun c => [fst c; snd c]) cells.

Fixpoint get_points (sites : list point) (h : list Z) : run (list point) :=
  match h with
  | [] => Done []
  | i :: r =>
      p <- get_point sites (Some i) ;;
      ps <- get_points sites r ;;
      Done (p :: ps)
  end.

Section ConvexHull.

Variable isA2DLine : list point -> bool.
Variable Array_sort : (point -> point -> Q) -> list point -> list point.
(** The alpha-shape package and [Math.atan2] are library code. *)
Variable alphaShape : Q -> list point -> list cell.
Variable Math_atan2 : Q -> Q -> Q.

Definition toDegrees (angle : Q) : Q := (angle * (180 / Math_PI))%Q.

(** [findCentroid(points)] *)
Definition findCentroid (pts : list point) : point :=
  let x := fold_left (fun x p => (x + fst p)%Q) pts 0%Q in
  let y := fold_left (fun y p => (y + snd p)%Q) pts 0%Q in
  let n := inject_Z (Z.of_nat (List.length pts)) in
  ((x / n)%Q, (y / n)%Q).

(** The angle the comparator gives a vertex: [atan2] is applied to
    [(dx, dy)], in this order. *)
Definition bearing (center a : point) : Q :=
  js_rem (toDegrees (Math_atan2 (fst a - fst center) (snd a - snd center))
          + 360) 360.

Definition vertex_compare (center a b : point) : Q :=
  inject_Z (Math_round (bearing center a - bearing center b)).

(** [sortVerticies(points)] *)
Definition sortVerticies (pts : list point) : list point :=
  let center := findCentroid pts in
  Array_sort (vertex_compare center) pts.

(** [convexHull(sites)] *)
Definition convexHull (sites : list point) : run (list point) :=
  if isA2DLine sites then Done sites
  else
    let cells := alphaShape 0 sites in
    let h := uniqZ [] (flat cells) in
    vertices <- get_points sites h ;;
    Done (sortVerticies vertices).

End ConvexHull.

(** A stand-in for [Math.atan2], exact on the four axis directions
    (where the library returns 0, [Math.PI / 2], [Math.PI] and
    [- Math.PI / 2]) and a linear interpolation between them elsewhere. *)
Definition atan2_axis (y x : Q) : Q :=
  let s := (Qabs x + Qabs y)%Q in
  if Qeq_bool s 0 then 0%Q
  else if Qltb y 0 then
    (- (Math_PI / 2) * (1 - x / s))%Q
  else ((Math_PI / 2) * (1 - x / s))%Q.





(** Twice the signed area of a closed polygon (positive for a
    counter-clockwise one when the y axis points up). *)
Fixpoint shoelace (first : point) (poly : list point) : Q :=
  match poly with
  | [] => 0
  | a :: r =>
      let b := match r with [] => first | b :: _ => b end in
      (fst a * snd b - fst b * snd a + shoelace first r)%Q
  end.

Definition signed_area2 (poly : list point) : Q :=
  match poly with
  | [] => 0
  | a :: _ => shoelace a poly
  end.

(** A stand-in for d3-polygon's [polygonArea]: half the sum of
    [a[1] * b[0] - a[0] * b[1]] over the sides from [a] to [b]. *)
Definition polygon_area (poly : list point) : Q := (- signed_area2 poly / 2)%Q.

(** ** The entry point: scagScorer *)

(** A bin: the grouped points with the properties [x], [y] (and
    [binRadius] on the direct path) attached. *)
Record bin : Type :=
  { bin_points : list point; bin_x : Q; bin_y : Q; bin_radius : option Q }.

Record options : Type :=
  { binType : option string;
    startBinGridSize : option Q;
    isNormalized : bool;
    isBinned : bool;
    outlyingUpperBound : option Q;
    minBins : option Q;
    maxBins : option Q }.

(** The values stored on the host object [this]. *)
Inductive hval : Type :=
| VPoints (ps : list point)
| VBins (bs : option (list bin))
| VNum (q : option Q)
| VBinner (radius : option Q)
| VDelaunay (d : DelaunayObj)
| VIndices (t : list Z)
| VTriangles (t : list (point * point * point))
| VGraph (g : graph).

Definition host : Type := list (string * hval).

Fixpoint host_get (h : host) (name : string) : option hval :=
  match h with
  | [] => None
  | (n, v) :: r => if String.eqb n name then Some v else host_get r name
  end.

(** [outputValue(name, value)]: [thisInstance[name] = value]. *)
Fixpoint outputValue (name : string) (value : hval) (h : host) : host :=
  match h with
  | [] => [(name, value)]
  | (n, v) :: r =>
      if String.eqb n name then (n, value) :: r
      else (n, v) :: outputValue name value r
  end.

(** A number used as a condition: 0 and [undefined] are falsy. *)
Definition truthy (q : option Q) : bool :=
  match q with
  | Some v => negb (Qeq_bool v 0)
  | None => false
  end.

Definition or_default (q : option Q) (d : Q) : Q :=
  match q with
  | Some v => if Qeq_bool v 0 then d else v
  | None => d
  end.

(** [uniq(normalizedPoints.map(p => p.join(',')))]: the distinct keys in
    order of first occurrence; a key is modelled by its point. *)
Fixpoint uniq (seen l : list point) : list point :=
  match l with
  | [] => []
  | p :: r => if existsb (equalPoints p) seen then uniq seen r
              else p :: uniq (p :: seen) r
  end.

(** [groupBy(normalizedPoints, p => p.join(','))[key]] *)
Definition group (normalizedPoints : list point) (key : point) : list point :=
  filter (equalPoints key) normalizedPoints.

(** [binType === 'hexagon'] *)
Definition is_hexagon (t : option string) : bool :=
  match t with
  | Some s => String.eqb s "hexagon"
  | None => false
  end.

(** The state of the binning loop. *)
Record binning : Type :=
  { bins : list bin; binner : option Q; binSize : option Q; binRadius : Q }.

Section ScagScorer.

Variable Math_sqrt : Q -> Q.
Variable isA2DLine : list point -> bool.
Variable Array_sort : (point -> point -> Q) -> list point -> list point.
Variable Delaunay_from : list point -> DelaunayObj.
(** The constructor module ([Normalizer], [Binner]) and the measures
    (coremeasure, computator) are not among the sources. *)
Variable Normalizer : list point -> run (list point).
Variable hexbin : Q -> list point -> list bin.
Variable measures : graph -> host -> host * run unit.

Definition out_of_bounds (n minNumOfBins maxNumOfBins : Q) : bool :=
  Qltb maxNumOfBins n || Qltb n minNumOfBins.

Definition count (b : list bin) : Q := inject_Z (Z.of_nat (List.length b)).

(** The body of the [do ... while] loop. *)
Definition bin_step (o : options) (startBinGridSize minNumOfBins maxNumOfBins : Q)
  (normalizedPoints : list point) (st : binning) : binning :=
  let size :=
    match binSize st with
    | None => startBinGridSize
    | Some sz =>
        if Qltb maxNumOfBins (count (bins st)) then (sz / 2)%Q
        else if Qltb (count (bins st)) minNumOfBins then (sz + 5)%Q
        else sz
    end in
  if is_hexagon (binType o) then
    let shortDiagonal := (1 / size)%Q in
    let radius := (shortDiagonal / Math_sqrt 2)%Q in
    {| bins := hexbin radius normalizedPoints; binner := Some radius;
       binSize := Some size; binRadius := radius |}
  else
    {| bins := bins st; binner := binner st;
       binSize := Some size; binRadius := binRadius st |}.

(** [do { ... } while (bins.length > max || bins.length < min)] *)
Fixpoint bin_loop (fuel : nat) (o : options)
  (startBinGridSize minNumOfBins maxNumOfBins : Q)
  (normalizedPoints : list point) (st : binning) : run binning :=
  match fuel with
  | O => OutOfFuel
  | S fuel' =>
      let st' := bin_step o startBinGridSize minNumOfBins maxNumOfBins
                   normalizedPoints st in
      if out_of_bounds (count (bins st')) minNumOfBins maxNumOfBins then
        bin_loop fuel' o startBinGridSize minNumOfBins maxNumOfBins
          normalizedPoints st'
      else Done st'
  end.

(** The binning of lines 73-123. *)
Definition binning_of (fuel : nat) (o : options)
  (normalizedPoints : list point) : run binning :=
  let startBinGridSize := or_default (startBinGridSize o) 40 in
  let minNumOfBins := or_default (minBins o) 50 in
  let maxNumOfBins := or_default (maxBins o) 500 in
  let uniqueKeys := uniq [] normalizedPoints in
  if Qltb (inject_Z (Z.of_nat (List.length uniqueKeys))) minNumOfBins then
    Done {| bins := map (fun key =>
                          {| bin_points := group normalizedPoints key;
                             bin_x := fst key; bin_y := snd key;
                             bin_radius := Some 0%Q |}) uniqueKeys;
            binner := None; binSize := None; binRadius := 0 |}
  else
    bin_loop fuel o startBinGridSize minNumOfBins maxNumOfBins
      normalizedPoints
      {| bins := []; binner := None; binSize := None; binRadius := 0 |}.

(** The host object is threaded through the run; a throw keeps what
    was stored before it. *)
Definition step {A} (h : host) (m : run A) (k : A -> host * run unit)
  : host * run unit :=
  match m with
  | Done a => k a
  | Throw e => (h, Throw e)
  | OutOfFuel => (h, OutOfFuel)
  | OutOfRange => (h, OutOfRange)
  end.

(** [scagScorer(inputPoints, options)] *)
Definition scagScorer (fuel : nat) (this : host) (inputPoints : list point)
  (o : options) : host * run unit :=
  let points := inputPoints in
  step this (if isNormalized o then Done points else Normalizer points)
  (fun normalizedPoints =>
  let this := outputValue "normalizedPoints" (VPoints normalizedPoints) this in
  step this
    (if isBinned o then Done (normalizedPoints, None)
     else
       b <- binning_of fuel o normalizedPoints ;;
       Done (map (fun d => (bin_x d, bin_y d)) (bins b), Some b))
  (fun '(sites, b) =>
  let this :=
    match b with
    | Some b =>
        outputValue "binRadius" (VNum (Some (binRadius b)))
          (outputValue "binSize" (VNum (binSize b))
             (outputValue "bins" (VBins (Some (bins b)))
                (outputValue "binner" (VBinner (binner b)) this)))
    | None => this
    end in
  let this := outputValue "binnedSites" (VPoints sites) this in
  step this (delaunayFromPoints isA2DLine Array_sort Delaunay_from sites)
  (fun delaunay =>
  step this (match triangleCoordinates delaunay with
             | Some t => Done t
             | None => Throw "TypeError"
             end)
  (fun coordinates =>
  let this := outputValue "delaunay" (VDelaunay delaunay) this in
  let this := outputValue "triangles" (VIndices (triangles delaunay)) this in
  let this := outputValue "triangleCoordinates" (VTriangles coordinates) this in
  let graph := createGraph Math_sqrt coordinates in
  step this (mst fuel graph)
  (fun mstree =>
  let this := outputValue "graph" (VGraph graph) this in
  let this := outputValue "mst" (VGraph mstree) this in
  measures mstree this))))).

End ScagScorer.

(** ** util.ts: max, min, maxSorted, zip, getCol *)

(** [max(x)] *)
Definition max (x : array) : run Q :=
  match x with
  | [] => Throw "max requires at least one data point"
  | x0 :: rest =>
      Done (fold_left (fun value xi => if Qltb value xi then xi else value)
                      rest x0)
  end.

(** [min(x)] *)
Definition min (x : array) : run Q :=
  match x with
  | [] => Throw "min requires at least one data point"
  | x0 :: rest =>
      Done (fold_left (fun value xi => if Qltb xi value then xi else value)
                      rest x0)
  end.

(** [maxSorted(x)]: [x[x.length - 1]]. *)
Definition maxSorted (x : array) : value := get x (len x - 1).

(** A row of possibly undefined entries, and [row[c]]. *)
Definition row : Type := list value.

Definition entry (r : row) (c : Z) : value :=
  if c <? 0 then None else nth (Z.to_nat c) r None.

(** [zip(...rows)]: [rows[0].map((_, c) => rows.map(row => row[c]))];
    without arguments [rows[0]] is undefined. *)
Definition zip (rows : list row) : run (list row) :=
  match rows with
  | [] => Throw "TypeError"
  | row0 :: _ =>
      Done (map (fun c => map (fun r => entry r (Z.of_nat c)) rows)
                (seq 0 (List.length row0)))
  end.

(** [getCol(matrix, col)] *)
Definition getCol (matrix : list row) (col : Z) : row :=
  map (fun r => entry r col) matrix.

(** ** grapher: the links of each node *)

(** The object [nestedByNodes]: keys in insertion order (a key
    ["x,y"] is never an array index), modelled by the point first
    stored under it. *)
Fixpoint nest_push (nested : list (point * list link)) (key : point)
  (l : link) : list (point * list link) :=
  match nested with
  | [] => [(key, [l])]
  | (k, ls) :: r =>
      if equalPoints k key then (k, ls ++ [l]) :: r
      else (k, ls) :: nest_push r key l
  end.

(** [pairNodeLinks(links)] *)
Definition pairNodeLinks (links : list link) : list (point * list link) :=
  fold_left (fun nested l =>
               nest_push (nest_push nested (source l) l) (target l) l)
            links [].

(** [getAllV1sFromTree(tree)] *)
Definition getAllV1sFromTree (tree : graph) : list point :=
  map fst (filter (fun p => Nat.eqb (List.length (snd p)) 1)
                  (pairNodeLinks (links tree))).

(** [getAllV2OrGreaterFromTree(tree)] *)
Definition getAllV2OrGreaterFromTree (tree : graph) : list point :=
  map fst (filter (fun p => Nat.leb 2 (List.length (snd p)))
                  (pairNodeLinks (links tree))).

(** [getAllV2CornersFromTree(tree)]: the vertex, then for each of its
    two links the end that is not written like the vertex. *)
Definition getAllV2CornersFromTree (tree : graph) : list (list point) :=
  map (fun v2 =>
         fst v2 ::
         map (fun l => if negb (equalPoints (source l) (fst v2))
                       then source l else target l) (snd v2))
      (filter (fun p => Nat.eqb (List.length (snd p)) 2)
              (pairNodeLinks (links tree))).

(** ** grapher: hulls from cells *)

(** A hull is a [Set] of site indices, kept in insertion order. *)
Definition hull : Type := list Z.

Definition has (h : hull) (v : Z) : bool := existsb (Z.eqb v) h.

Definition add (h : hull) (v : Z) : hull := if has h v then h else h ++ [v].

(** [putCellToHulls(cell, hulls)]: [Some] of the updated hulls when it
    returns true, [None] when it returns false. *)
Fixpoint putCellToHulls (c : cell) (hulls : list hull) : option (list hull) :=
  match hulls with
  | [] => None
  | h :: r =>
      if has h (fst c) then Some (add h (snd c) :: r)
      else if has h (snd c) then Some (add h (fst c) :: r)
      else match putCellToHulls c r with
           | Some r' => Some (h :: r')
           | None => None
           end
  end.

(** The [forEach] of [processCells]: the hulls after it and the cells
    whose index was not pushed on [processedIndice]. *)
Fixpoint put_cells (cells : list cell) (hulls : list hull)
  : list hull * list cell :=
  match cells with
  | [] => (hulls, [])
  | c :: rest =>
      match putCellToHulls c hulls with
      | Some hulls' => put_cells rest hulls'
      | None => let '(hulls', kept) := put_cells rest hulls in
                (hulls', c :: kept)
      end
  end.

(** [processCells(cells, hulls)]; the recursion is run with fuel. *)
Fixpoint processCells (fuel : nat) (cells : list cell) (hulls : list hull)
  : run (list hull) :=
  match cells with
  | [] => Done hulls
  | first :: others =>
      match fuel with
      | O => OutOfFuel
      | S fuel' =>
          let '(hulls', kept) := put_cells cells hulls in
          if Nat.eqb (List.length kept) (List.length cells) then
            (* nothing was processed: [cells.shift()] opens a new hull *)
            processCells fuel' others
              (hulls' ++ [add (add [] (fst first)) (snd first)])
          else processCells fuel' kept hulls'
      end
  end.

Section HullArea.

(** d3-polygon's [polygonArea] (signed) is library code. *)
Variable polygonArea : list point -> Q.
(** [total += a] is a sum of doubles, rounded by the machine: [plus] is
    that sum as computed. *)
Variable plus : Q -> Q -> Q.

(** [concaveHullArea(hulls)] *)
Definition concaveHullArea (hulls : list (list point)) : Q :=
  fold_left (fun total h => plus total (Qabs (polygonArea h))) hulls 0%Q.

(** [convexHullArea(hull)] *)
Definition convexHullArea (h : list point) : Q := Qabs (polygonArea h).

End HullArea.

(** * Properties *)

(** ** Basic facts about the number model *)

Lemma Qltb_true (a b : Q) : Qltb a b = true <-> (a < b)%Q.
Proof.
  unfold Qltb; destruct (Qlt_le_dec a b); split; intros; try easy; lra.
Qed.

Lemma Qltb_false (a b : Q) : Qltb a b = false <-> (b <= a)%Q.
Proof.
  unfold Qltb; destruct (Qlt_le_dec a b); split; intros; try easy; lra.
Qed.

Lemma is_integer_true (x : Q) :
  is_integer x = true <-> (inject_Z (Qfloor x) == x)%Q.
Proof. unfold is_integer; apply Qeq_bool_iff. Qed.


Lemma get_Some_iff (arr : array) (i : Z) :
  0 <= i < len arr <-> exists v, get arr i = Some v.
Proof.
  unfold get, len; split.
  - intros [H0 H1]. destruct (Z.ltb_spec i 0); [lia|].
    destruct (nth_error arr (Z.to_nat i)) eqn:E; [eauto|].
    apply nth_error_None in E; lia.
  - intros [v H]. destruct (Z.ltb_spec i 0); [discriminate|].
    assert (nth_error arr (Z.to_nat i) <> None) by congruence.
    apply nth_error_Some in H1; lia.
Qed.

Lemma get_in_range (arr : array) (i : Z) :
  0 <= i < len arr -> exists v, get arr i = Some v.
Proof. apply get_Some_iff. Qed.

(** Bounds on [idx = n * p] for [0 < p < 1]. *)
Lemma idx_bounds (n : Z) (p : Q) :
  0 < n -> (0 < p)%Q -> (p < 1)%Q ->
  (0 < inject_Z n * p)%Q /\ (inject_Z n * p < inject_Z n)%Q.
Proof.
  intros Hn H0 H1.
  assert (0 < inject_Z n)%Q by (change 0%Q with (inject_Z 0); rewrite <- Zlt_Qlt; lia).
  split; nra.
Qed.

Lemma Qfloor_pos_lt (x : Q) (n : Z) :
  (0 < x)%Q -> (x < inject_Z n)%Q -> 0 <= Qfloor x < n.
Proof.
  intros H0 H1. split.
  - change 0 with (Qfloor 0). apply Qfloor_resp_le; lra.
  - pose proof (Qfloor_le x).
    assert (inject_Z (Qfloor x) < inject_Z n)%Q by lra.
    now rewrite <- Zlt_Qlt in H2.
Qed.

Lemma Qceiling_pos_le (x : Q) (n : Z) :
  (0 < x)%Q -> (x < inject_Z n)%Q -> 1 <= Qceiling x <= n.
Proof.
  intros H0 H1. split.
  - pose proof (Qle_ceiling x).
    assert (H2 : (0 < inject_Z (Qceiling x))%Q) by lra.
    change 0%Q with (inject_Z 0) in H2.
    rewrite <- Zlt_Qlt in H2; lia.
  - replace n with (Qceiling (inject_Z n)) by apply Qceiling_Z.
    apply Qceiling_resp_le; lra.
Qed.

Lemma integer_idx_pos (x : Q) (n : Z) :
  (0 < x)%Q -> (x < inject_Z n)%Q -> (inject_Z (Qfloor x) == x)%Q ->
  1 <= Qfloor x < n.
Proof.
  intros H0 H1 E.
  pose proof (Qfloor_pos_lt x n H0 H1).
  assert (H2 : (0 < inject_Z (Qfloor x))%Q) by lra.
  change 0%Q with (inject_Z 0) in H2.
  rewrite <- Zlt_Qlt in H2; lia.
Qed.

(** ** quantileSorted *)

(** The quantile rule in the words of the specification, for the
    product [idx = n * p] given by [times]: the mean of the two
    neighbours when [idx] is an integer and [n] is even, the element
    [x[ceil(idx) - 1]] in every other case. *)
Definition quantileSorted_spec (times mean : Q -> Q -> Q) (x : array)
  (p : Q) : value :=
  let idx := times (inject_Z (len x)) p in
  if Qeq_bool p 0 then get x 0
  else if Qeq_bool p 1 then get x (len x - 1)
  else if is_integer idx && (len x mod 2 =? 0) then
    js_avg_by mean (get x (Qfloor idx - 1)) (get x (Qfloor idx))
  else get x (Qceiling idx - 1).

Definition sample5 : array := [1; 2; 3; 4; 5]%Q.

Definition sample10 : array := [1; 2; 3; 4; 5; 6; 7; 8; 9; 10]%Q.

(** The double written [0.2]. *)
Definition double_02 : Q := 3602879701896397 # 18014398509481984.

Lemma quantileSorted_exact (x : array) (p : Q) :
  quantileSorted x p
  = quantileSorted_by Qmult (fun a b => (a + b) / 2)%Q x p.
Proof. reflexivity. Qed.

(** The rule of the specification is not what the code does, whichever
    way [idx = n * p] is read.  As the product the code computes: on five
    elements and [p = 0.2] it is the integer 1 and the length is odd; the
    code returns [x[1] = 2], the rule gives [x[0] = 1].  As the exact
    product: on ten elements and [p = 0.2] it is a little more than 2, so
    the rule gives [x[2] = 3], while the code, whose product is 2, returns
    the mean [(x[1] + x[2]) / 2 = 5/2]. *)
Lemma quantileSorted_odd_integer_idx :
  fl (1 # 5) = double_02 /\
  (fl_times 5 double_02 == 1)%Q /\
  quantileSorted_by fl_times fl_mean sample5 double_02 = Done (Some 2%Q) /\
  quantileSorted_spec fl_times fl_mean sample5 double_02 = Some 1%Q /\
  (fl_times 10 double_02 == 2)%Q /\ (2 < 10 * double_02)%Q /\
  quantileSorted_by fl_times fl_mean sample10 double_02 = Done (Some (5 # 2)%Q) /\
  quantileSorted_spec Qmult fl_mean sample10 double_02 = Some 3%Q.
Proof. repeat split; vm_compute; reflexivity. Qed.

(** On the numbers 1 to 50 and [p = 0.14] the computed product is a
    little more than 7 and the code returns [x[7] = 8]. *)
Example quantileSorted_rounded_product :
  quantileSorted_by fl_times fl_mean
    (map (fun i => inject_Z (Z.of_nat i)) (seq 1 50)) (fl (14 # 100))
  = Done (Some 8%Q).
Proof. vm_compute. reflexivity. Qed.

Section ComputedProduct.

(** [x.length * p] and [(a + b) / 2] as the machine computes them. *)
Variables times mean : Q -> Q -> Q.

(** C4 (amended): for a non-empty array and [p] in [0, 1],
    [quantileSorted] returns a number of the array (or the mean of two):
    the last element when [p = 1], the first when [p = 0]; otherwise, with
    [idx] the product [n * p] as the code computes it (which lies
    strictly between 0 and [n]): [x[ceil(idx) - 1]] when [idx] is not an
    integer, the mean [(x[idx - 1] + x[idx]) / 2] (as computed) when [idx]
    is an integer and [n] is even, and [x[idx]] when [idx] is an integer
    and [n] is odd. *)
Theorem quantileSorted_cases (x : array) (p : Q) :
  x <> [] -> (0 <= p)%Q -> (p <= 1)%Q ->
  let n := len x in
  let idx := times (inject_Z n) p in
  ((0 < p)%Q -> (p < 1)%Q -> (0 < idx)%Q /\ (idx < inject_Z n)%Q) ->
  exists v, quantileSorted_by times mean x p = Done (Some v) /\
    ((p == 1)%Q -> get x (n - 1) = Some v) /\
    ((p == 0)%Q -> get x 0 = Some v) /\
    ((0 < p)%Q -> (p < 1)%Q -> is_integer idx = false ->
       get x (Qceiling idx - 1) = Some v) /\
    ((0 < p)%Q -> (p < 1)%Q -> is_integer idx = true -> n mod 2 = 0 ->
       exists a b, get x (Qfloor idx - 1) = Some a /\
                   get x (Qfloor idx) = Some b /\ v = mean a b) /\
    ((0 < p)%Q -> (p < 1)%Q -> is_integer idx = true -> n mod 2 <> 0 ->
       get x (Qfloor idx) = Some v).
Proof.
  intros Hne H0 H1 n idx Hin.
  assert (Hn : 0 < n).
  { unfold n, len. destruct x; [congruence | simpl; lia]. }
  unfold quantileSorted_by. fold n. fold idx.
  destruct (Z.eqb_spec n 0); [lia|].
  assert (Hp0 : Qltb p 0 = false) by (apply Qltb_false; lra).
  assert (Hp1 : Qltb 1 p = false) by (apply Qltb_false; lra).
  rewrite Hp0, Hp1; simpl orb; cbv iota.
  destruct (Qeq_bool p 1) eqn:E1.
  { apply Qeq_bool_iff in E1.
    destruct (get_in_range x (n - 1)) as [v Hv]; [fold n; lia|].
    exists v; rewrite Hv; repeat split; intros; try lra; auto. }
  assert (N1 : ~ (p == 1)%Q).
  { intros E; apply Qeq_bool_iff in E; congruence. }
  destruct (Qeq_bool p 0) eqn:E0.
  { apply Qeq_bool_iff in E0.
    destruct (get_in_range x 0) as [v Hv]; [fold n; lia|].
    exists v; rewrite Hv; repeat split; intros; try lra; auto. }
  assert (N0 : ~ (p == 0)%Q).
  { intros E; apply Qeq_bool_iff in E; congruence. }
  assert (P0 : (0 < p)%Q) by lra.
  assert (P1 : (p < 1)%Q) by lra.
  destruct (Hin P0 P1) as [I0 I1].
  destruct (is_integer idx) eqn:EI; simpl negb; cbv iota.
  - apply is_integer_true in EI.
    pose proof (integer_idx_pos idx n I0 I1 EI) as Hf.
    destruct (Z.eqb_spec (n mod 2) 0) as [Ev|Od].
    + destruct (get_in_range x (Qfloor idx - 1)) as [a Ha]; [fold n; lia|].
      destruct (get_in_range x (Qfloor idx)) as [b Hb]; [fold n; lia|].
      exists (mean a b). rewrite Ha, Hb; simpl.
      repeat split; intros; try lra; try congruence; try lia.
      exists a, b; auto.
    + destruct (get_in_range x (Qfloor idx)) as [b Hb]; [fold n; lia|].
      exists b. rewrite Hb.
      repeat split; intros; try lra; try congruence; try lia.
  - pose proof (Qceiling_pos_le idx n I0 I1) as Hc.
    destruct (get_in_range x (Qceiling idx - 1)) as [b Hb]; [fold n; lia|].
    exists b. rewrite Hb.
    repeat split; intros; try lra; try congruence; try lia.
Qed.

End ComputedProduct.

Lemma quantileSorted_cases_witness :
  exists v, quantileSorted_by fl_times fl_mean sample5 double_02 = Done (Some v) /\
            get sample5 (Qfloor (fl_times (inject_Z (len sample5)) double_02))
            = Some v.
Proof.
  destruct (quantileSorted_cases fl_times fl_mean sample5 double_02)
    as (v & Hv & _ & _ & _ & _ & H).
  - discriminate.
  - unfold Qle; simpl; lia.
  - unfold Qle; simpl; lia.
  - intros _ _. split; vm_compute; reflexivity.
  - exists v; split; [exact Hv|].
    apply H; [reflexivity | reflexivity | reflexivity | discriminate].
Defined.

(** ** The store: [quantile] and [quantileArray] work on a copy *)

Lemma store_alloc (h : heap) (a c : array) :
  store (h ++ [a]) (List.length h) c = h ++ [c].
Proof. induction h as [|b h IH]; simpl; [reflexivity | now rewrite IH]. Qed.

Lemma nth_error_alloc (h : heap) (c : array) (x : loc) (xs : array) :
  nth_error h x = Some xs -> nth_error (h ++ [c]) x = Some xs.
Proof.
  intros H. rewrite nth_error_app1; [exact H|].
  apply nth_error_Some; congruence.
Qed.

Section Frame.

Variables Math_log Math_exp Math_sqrt : Q -> Q.

Lemma quantile_extends_heap fuel h x p :
  let h' := fst (quantile Math_log Math_exp Math_sqrt fuel h x p) in
  h' = h \/ exists c, h' = h ++ [c].
Proof.
  unfold quantile, deref, alloc, on_heap.
  destruct (nth_error h x) as [xs|]; [|now left].
  rewrite nth_error_app2, Nat.sub_diag by lia. cbn [nth_error].
  destruct (quantileSelect _ _ _ _ _ _ _ _) as [c1| | |];
    try (right; eexists; reflexivity).
  rewrite store_alloc.
  rewrite nth_error_app2, Nat.sub_diag by lia. cbn [nth_error fst].
  right; eexists; reflexivity.
Qed.

Lemma quantileArray_extends_heap fuel h x p :
  let h' := fst (quantileArray Math_log Math_exp Math_sqrt fuel h x p) in
  h' = h \/ exists c, h' = h ++ [c].
Proof.
  unfold quantileArray, deref, alloc, on_heap.
  destruct (nth_error h x) as [xs|]; [|now left].
  rewrite nth_error_app2, Nat.sub_diag by lia. cbn [nth_error].
  destruct (multiQuantileSelect _ _ _ _ _ _) as [c1| | |];
    try (right; eexists; reflexivity).
  rewrite store_alloc.
  rewrite nth_error_app2, Nat.sub_diag by lia. cbn [nth_error fst].
  right; eexists; reflexivity.
Qed.

End Frame.

(** ** mst *)

Definition unit_triangle : list (point * point * point) :=
  [((0, 0), (1, 0), (0, 1))]%Q.

(** The graph of one triangle: three nodes, three links, connected. *)
Example createGraph_triangle :
  let g := createGraph sqrt_dec unit_triangle in
  map id (nodes g) = [(0, 0); (1, 0); (0, 1)]%Q /\
  map (fun l => (source l, target l)) (links g)
  = [((0, 0), (1, 0)); ((1, 0), (0, 1)); ((0, 1), (0, 0))]%Q.
Proof. split; reflexivity. Qed.

(** C1: [mst] builds its forest with [DisjointSet()], a call without
    [new]: the constructor body runs with [this] undefined and throws a
    [TypeError].  On every graph, so also on the connected graph of one
    triangle, the run ends in that error and no tree is returned. *)
Theorem mst_throws :
  (forall fuel g, mst fuel g = Throw "TypeError") /\
  mst 10 (createGraph sqrt_dec unit_triangle) = Throw "TypeError".
Proof. split; reflexivity. Qed.

(** ** delaunayFromPoints on collinear sites *)

(** The triples [(2a, 2a+1, 2a+2), (2a+2, 2a+3, 2a+4), ...], [cnt] of them. *)
Fixpoint triples_from (a : Z) (cnt : nat) : list Z :=
  match cnt with
  | O => []
  | S c => [2 * a; 2 * a + 1; 2 * a + 2] ++ triples_from (a + 1) c
  end.

(** The index stream built for [n] collinear sites. *)
Definition fan_stream (n : Z) : list Z :=
  if n mod 2 =? 0 then
    triples_from 0 (Z.to_nat (n / 2 - 1)) ++ [n - 2; n - 1; n - 3]
  else triples_from 0 (Z.to_nat ((n - 1) / 2)).

Lemma fan_loop_odd (cnt : nat) : forall (a : Z) (acc : list Z) (steps : nat),
  (cnt < steps)%nat ->
  fan_loop steps (2 * a) (2 * (a + Z.of_nat cnt) + 1) acc
  = Done (acc ++ triples_from a cnt).
Proof.
  induction cnt as [|c IH]; intros a acc steps Hs.
  - destruct steps as [|s]; [lia|]. cbn [fan_loop].
    replace (2 * (a + Z.of_nat 0) + 1) with (2 * a + 1) by lia.
    destruct (Z.ltb_spec (2 * a) (2 * a + 1)); [|lia].
    destruct (Z.ltb_spec (2 * a + 1) (2 * a + 1)); [lia|].
    destruct (Z.ltb_spec (2 * a + 2) (2 * a + 1)); [lia|].
    replace ((2 * a + 1) mod 2) with 1
      by (rewrite Z.add_comm, Z.mul_comm, Z.mod_add; [reflexivity | lia]).
    simpl Z.eqb. cbv iota.
    destruct s; cbn [fan_loop];
      (destruct (Z.ltb_spec (2 * a + 2) (2 * a + 1)); [lia|]);
      now rewrite app_nil_r.
  - destruct steps as [|s]; [lia|]. cbn [fan_loop].
    set (n := 2 * (a + Z.of_nat (S c)) + 1).
    assert (Hn : n = 2 * ((a + 1) + Z.of_nat c) + 1) by (unfold n; lia).
    destruct (Z.ltb_spec (2 * a) n); [|lia].
    destruct (Z.ltb_spec (2 * a + 1) n); [|lia].
    destruct (Z.ltb_spec (2 * a + 2) n); [|lia].
    replace (2 * a + 2) with (2 * (a + 1)) by lia.
    rewrite Hn, IH by lia.
    cbn [triples_from]. rewrite <- !app_assoc.
    replace (2 * (a + 1)) with (2 * a + 2) by lia. reflexivity.
Qed.

Lemma fan_loop_even (cnt : nat) : forall (a : Z) (acc : list Z) (steps : nat),
  (cnt < steps)%nat ->
  fan_loop steps (2 * a) (2 * (a + Z.of_nat cnt) + 2) acc
  = Done (acc ++ triples_from a cnt
              ++ [2 * (a + Z.of_nat cnt); 2 * (a + Z.of_nat cnt) + 1;
                  2 * (a + Z.of_nat cnt) - 1]).
Proof.
  induction cnt as [|c IH]; intros a acc steps Hs.
  - destruct steps as [|s]; [lia|]. cbn [fan_loop triples_from].
    replace (a + Z.of_nat 0) with a by lia.
    destruct (Z.ltb_spec (2 * a) (2 * a + 2)); [|lia].
    destruct (Z.ltb_spec (2 * a + 1) (2 * a + 2)); [|lia].
    destruct (Z.ltb_spec (2 * a + 2) (2 * a + 2)); [lia|].
    replace ((2 * a + 2) mod 2) with 0
      by (replace (2 * a + 2) with ((a + 1) * 2) by lia;
          now rewrite Z.mod_mul by lia).
    simpl Z.eqb. cbv iota.
    destruct s; cbn [fan_loop];
      (destruct (Z.ltb_spec (2 * a + 2) (2 * a + 2)); [lia|]);
      now rewrite <- app_assoc.
  - destruct steps as [|s]; [lia|]. cbn [fan_loop].
    set (n := 2 * (a + Z.of_nat (S c)) + 2).
    assert (Hn : n = 2 * ((a + 1) + Z.of_nat c) + 2) by (unfold n; lia).
    destruct (Z.ltb_spec (2 * a) n); [|lia].
    destruct (Z.ltb_spec (2 * a + 1) n); [|lia].
    destruct (Z.ltb_spec (2 * a + 2) n); [|lia].
    replace (2 * a + 2) with (2 * (a + 1)) by lia.
    rewrite Hn, IH by lia.
    cbn [triples_from]. rewrite <- !app_assoc.
    replace (a + Z.of_nat (S c)) with (a + 1 + Z.of_nat c) by lia.
    replace (2 * (a + 1)) with (2 * a + 2) by lia. reflexivity.
Qed.

Lemma triples_from_bounds (cnt : nat) : forall (a : Z),
  0 <= a ->
  Forall (fun t => 0 <= t <= 2 * (a + Z.of_nat cnt)) (triples_from a cnt).
Proof.
  induction cnt as [|c IH]; intros a Ha; cbn [triples_from]; [constructor|].
  repeat (constructor; [lia|]).
  eapply Forall_impl; [|apply (IH (a + 1)); lia].
  cbv beta; intros; lia.
Qed.

Lemma fan_loop_stream (n : Z) :
  1 <= n -> fan_loop (Z.to_nat n) 0 n [] = Done (fan_stream n).
Proof.
  intros Hn. unfold fan_stream.
  destruct (Z.eqb_spec (n mod 2) 0) as [E|E].
  - assert (Hd : n = 2 * (n / 2)) by (apply Z_div_exact_2; lia).
    set (c := Z.to_nat (n / 2 - 1)).
    assert (Hc : n = 2 * (0 + Z.of_nat c) + 2) by (unfold c; lia).
    rewrite Hc at 2. change 0 with (2 * 0) at 1.
    rewrite fan_loop_even by (unfold c; lia).
    cbn [app].
    replace (2 * (0 + Z.of_nat c)) with (n - 2) by (unfold c; lia).
    replace (n - 2 + 1) with (n - 1) by lia.
    replace (n - 2 - 1) with (n - 3) by lia.
    reflexivity.
  - assert (Hm : n mod 2 = 1) by (pose proof (Z.mod_pos_bound n 2); lia).
    assert (Hd : n = 2 * ((n - 1) / 2) + 1).
    { pose proof (Z.div_mod n 2).
      replace ((n - 1) / 2) with (n / 2); [lia|].
      rewrite (Z.div_mod n 2) at 2 by lia. rewrite Hm.
      replace (2 * (n / 2) + 1 - 1) with (n / 2 * 2) by lia.
      now rewrite Z.div_mul by lia. }
    set (c := Z.to_nat ((n - 1) / 2)).
    assert (Hc : n = 2 * (0 + Z.of_nat c) + 1) by (unfold c; lia).
    rewrite Hc at 2. change 0 with (2 * 0) at 1.
    rewrite fan_loop_odd by (unfold c; lia).
    reflexivity.
Qed.

Lemma fan_stream_valid (n : Z) :
  3 <= n -> Forall (fun t => 0 <= t < n) (fan_stream n).
Proof.
  intros Hn. unfold fan_stream.
  destruct (Z.eqb_spec (n mod 2) 0) as [E|E].
  - assert (Hd : n = 2 * (n / 2)) by (apply Z_div_exact_2; lia).
    apply Forall_app; split.
    + eapply Forall_impl; [|apply triples_from_bounds; lia].
      cbv beta; intros; lia.
    + repeat (constructor; [lia|]). constructor.
  - assert (Hm : n mod 2 = 1) by (pose proof (Z.mod_pos_bound n 2); lia).
    pose proof (Z.div_mod (n - 1) 2).
    assert ((n - 1) mod 2 = 0).
    { replace (n - 1) with (n + (-1) * 1) by lia.
      rewrite <- Zplus_mod_idemp_l, Hm. reflexivity. }
    eapply Forall_impl; [|apply triples_from_bounds; lia].
    cbv beta; intros; lia.
Qed.

(** The comparator is not the lexicographic order: on a descending
    line each of two sites is put after the other. *)
Example site_compare_descending :
  (0 < site_compare (0, 1) (1, 0))%Q /\ (0 < site_compare (1, 0) (0, 1))%Q.
Proof. split; reflexivity. Qed.

Section DelaunayCollinear.

Variable isA2DLine : list point -> bool.
Variable Array_sort : (point -> point -> Q) -> list point -> list point.
Variable Delaunay_from : list point -> DelaunayObj.

(** C7 (amended): for three or more collinear sites, and a sort that
    keeps the number of elements, [delaunayFromPoints] returns the
    sites sorted with [site_compare] and the index stream
    [(0,1,2), (2,3,4), ...] of the triples [(i, i+1, i+2)], [i] even,
    [i + 2 < n], closed, when the count [n] is even, by the triple
    [(n-2, n-1, n-3)]; every index of the stream is in [0, n - 1]. *)
Theorem delaunayFromPoints_collinear (sites : list point) :
  (forall cmp l, List.length (Array_sort cmp l) = List.length l) ->
  isA2DLine sites = true ->
  3 <= Z.of_nat (List.length sites) ->
  let n := Z.of_nat (List.length sites) in
  exists d,
    delaunayFromPoints isA2DLine Array_sort Delaunay_from sites = Done d /\
    points d = Array_sort site_compare sites /\
    triangles d = fan_stream n /\
    Forall (fun t => 0 <= t < Z.of_nat (List.length (points d)))
           (triangles d).
Proof.
  intros Hlen Hline Hn n.
  unfold delaunayFromPoints. rewrite Hline, Hlen. fold n.
  rewrite fan_loop_stream by lia. cbn [bind].
  eexists; split; [reflexivity|]. cbn [points triangles].
  rewrite Hlen. fold n.
  repeat split. apply fan_stream_valid; lia.
Qed.

End DelaunayCollinear.

Lemma insert_by_length {A} (cmp : A -> A -> Q) (a : A) (l : list A) :
  List.length (insert_by cmp a l) = S (List.length l).
Proof.
  induction l as [|b r IH]; simpl; [reflexivity|].
  destruct (_ || _); simpl; congruence.
Qed.

Lemma insertion_sort_length {A} (cmp : A -> A -> Q) (l : list A) :
  List.length (insertion_sort cmp l) = List.length l.
Proof.
  unfold insertion_sort.
  assert (G : forall acc, List.length (fold_left (fun acc a => insert_by cmp a acc) l acc)
                          = (List.length acc + List.length l)%nat).
  { induction l as [|a l IH]; intros acc; simpl; [lia|].
    rewrite IH, insert_by_length; lia. }
  now rewrite G.
Qed.

Definition no_delaunay (sites : list point) : DelaunayObj :=
  {| triangles := []; points := sites; triangleCoordinates := None |}.

Definition line4 : list point := [(0, 0); (1, 1); (2, 2); (3, 3)]%Q.

(** The index stream cut into triangles, and the shape the
    specification gives them. *)
Fixpoint chunks3 (l : list Z) : list (list Z) :=
  match l with
  | a :: b :: c :: r => [a; b; c] :: chunks3 r
  | _ => []
  end.

Definition fan_triple (t : list Z) : Prop := exists i, t = [i; i + 1; i + 2].

Definition line4_delaunay : DelaunayObj :=
  {| triangles := [0; 1; 2; 2; 3; 1]; points := line4;
     triangleCoordinates := None |}.

(** Four sites on the diagonal: the second triangle of the stream is
    [(2, 3, 1)], which is not of the form [(i, i+1, i+2)]. *)
Lemma delaunayFromPoints_even_count :
  isA2DLine_spec line4 = true /\
  delaunayFromPoints isA2DLine_spec (@insertion_sort point) no_delaunay line4
  = Done line4_delaunay /\
  ~ Forall fan_triple (chunks3 (triangles line4_delaunay)).
Proof.
  split; [reflexivity|]. split; [reflexivity|].
  intros H. simpl in H. inversion H as [|? ? _ H']; subst.
  inversion H' as [|? ? [i Hi] _]; subst.
  injection Hi as H1 H2 H3. lia.
Qed.

Lemma delaunayFromPoints_collinear_witness :
  exists d,
    delaunayFromPoints isA2DLine_spec (@insertion_sort point) no_delaunay line4
    = Done d /\
    points d = insertion_sort site_compare line4 /\
    triangles d = fan_stream 4 /\
    Forall (fun t => 0 <= t < Z.of_nat (List.length (points d))) (triangles d).
Proof.
  apply (delaunayFromPoints_collinear isA2DLine_spec (@insertion_sort point)
           no_delaunay line4).
  - intros cmp l; apply insertion_sort_length.
  - reflexivity.
  - simpl; lia.
Defined.

(** ** concaveHull1: the edge count *)

Lemma ltb_asym (s1 s2 : string) :
  String.ltb s1 s2 = true -> String.ltb s2 s1 = false.
Proof.
  unfold String.ltb. rewrite (String.compare_antisym s2 s1).
  destruct (String.compare s1 s2); simpl; congruence.
Qed.

Lemma sort_cell_idem (e : cell) : sort_cell (sort_cell e) = sort_cell e.
Proof.
  destruct e as [a b]. unfold sort_cell.
  destruct (String.ltb (to_string b) (to_string a)) eqn:E.
  - now rewrite (ltb_asym _ _ E).
  - now rewrite E.
Qed.

Lemma cell_eqb_eq (e1 e2 : cell) : cell_eqb e1 e2 = true <-> e1 = e2.
Proof.
  destruct e1, e2; unfold cell_eqb; simpl.
  rewrite andb_true_iff, !Z.eqb_eq. split; [intros []|intros [=]]; subst; auto.
Qed.

(** Every count ever stored is 1. *)
Definition all_ones (edgeCount : list (cell * Z)) : Prop :=
  forall k v, count_of edgeCount k = Some v -> v = 1.

Lemma next_count_one (edgeCount : list (cell * Z)) (k : cell) :
  all_ones edgeCount -> next_count (count_of edgeCount k) = 1.
Proof.
  intros H. unfold next_count.
  destruct (count_of edgeCount k) as [v|] eqn:E; [|reflexivity].
  now rewrite (H _ _ E).
Qed.

Lemma count_of_set (edgeCount : list (cell * Z)) (k k' : cell) (v : Z) :
  count_of (count_set edgeCount k v) k'
  = if cell_eqb k k' then Some v else count_of edgeCount k'.
Proof.
  induction edgeCount as [|[k0 v0] r IH]; simpl.
  - reflexivity.
  - destruct (cell_eqb k0 k) eqn:E0; simpl.
    + apply cell_eqb_eq in E0; subst k0.
      destruct (cell_eqb k k'); reflexivity.
    + destruct (cell_eqb k0 k') eqn:E1; [|exact IH].
      apply cell_eqb_eq in E1; subst k0.
      destruct (cell_eqb k k') eqn:E2; [|reflexivity].
      apply cell_eqb_eq in E2; subst k.
      assert (cell_eqb k' k' = true) by now apply cell_eqb_eq.
      congruence.
Qed.

Lemma count_edges_ones (cells : list cell) : forall edgeCount,
  all_ones edgeCount ->
  let '(cells', edgeCount') := count_edges cells edgeCount in
  cells' = map sort_cell cells /\ all_ones edgeCount' /\
  (forall k, In k cells' \/ count_of edgeCount k <> None ->
             count_of edgeCount' k = Some 1).
Proof.
  induction cells as [|e rest IH]; intros ec Hec; cbn [count_edges map].
  - split; [reflexivity|]. split; [exact Hec|].
    intros k [[]|Hk]. destruct (count_of ec k) as [v|] eqn:E; [|congruence].
    now rewrite (Hec _ _ E).
  - set (ec1 := count_set ec (sort_cell e) (next_count (count_of ec (sort_cell e)))).
    assert (H1 : all_ones ec1).
    { intros k v. unfold ec1. rewrite count_of_set, next_count_one by exact Hec.
      destruct (cell_eqb (sort_cell e) k); [congruence | apply Hec]. }
    specialize (IH ec1 H1).
    destruct (count_edges rest ec1) as [rest' ec'].
    destruct IH as (Hr & Ho & Hk).
    split; [now rewrite Hr|]. split; [exact Ho|].
    intros k Hin. apply Hk.
    assert (Hset : count_of ec1 (sort_cell e) <> None).
    { unfold ec1. rewrite count_of_set.
      assert (cell_eqb (sort_cell e) (sort_cell e) = true) by now apply cell_eqb_eq.
      rewrite H; discriminate. }
    destruct Hin as [[<-|Hin]|Hin]; [now right | now left |].
    right. unfold ec1. rewrite count_of_set.
    destruct (cell_eqb (sort_cell e) k); [discriminate | exact Hin].
Qed.

Lemma once_only_all (cells : list cell) :
  let '(cells', edgeCount) := count_edges cells [] in
  once_only cells' edgeCount = map sort_cell cells.
Proof.
  pose proof (count_edges_ones cells []) as H.
  destruct (count_edges cells []) as [cells' ec].
  destruct H as (Hc & _ & Hk); [intros k v; discriminate|].
  unfold once_only. subst cells'.
  rewrite map_map.
  rewrite (map_ext _ sort_cell) by (intros; apply sort_cell_idem).
  apply forallb_filter_id. apply forallb_forall.
  intros k Hin. rewrite (Hk (sort_cell k)); [reflexivity|].
  left. apply in_map_iff in Hin. destruct Hin as (e & <- & Hin).
  rewrite sort_cell_idem. apply in_map_iff. eauto.
Qed.

(** C5: the table [edgeCount] only ever holds 1, so the final filter
    keeps every cell; [concaveHull1] returns all the edges that pass the
    threshold, each sorted, and an edge shared by two triangles is
    returned twice.  On the unit square cut along the diagonal (0, 2) the
    result holds the diagonal two times. *)
Theorem concaveHull1_keeps_shared_edges :
  (forall Math_sqrt Delaunay_from fuel sites longEdge,
     concaveHull1 Math_sqrt Delaunay_from fuel sites longEdge
     = (cells <- relax Math_sqrt fuel (triangles (Delaunay_from sites)) sites
                   (longEdge - (1 # 100))%Q [] ;;
        Done (map sort_cell cells))) /\
  concaveHull1 sqrt_dec
    (fun sites => {| triangles := [0; 1; 2; 0; 2; 3]; points := sites;
                     triangleCoordinates := None |})
    5 [(0, 0); (1, 0); (1, 1); (0, 1)]%Q 2
  = Done [(0, 1); (1, 2); (0, 2); (0, 2); (2, 3); (0, 3)].
Proof.
  split; [|reflexivity].
  intros. unfold concaveHull1.
  destruct (relax _ _ _ _ _ _) as [cells| | |]; simpl; try reflexivity.
  pose proof (once_only_all cells) as H.
  destruct (count_edges cells []) as [cells' ec]. now rewrite H.
Qed.

(** ** convexHull *)

Definition diamond : list point := [(1 # 2, 1); (0, 1 # 2); (1 # 2, 0); (1, 1 # 2)]%Q.

Definition diamond_cells (alpha : Q) (sites : list point) : list cell :=
  [(0, 1); (1, 2); (2, 3); (3, 0)].




(** *** Sorting by a numeric key *)





(** *** The comparator of sortVerticies *)




Section ConvexHullOrder.

Variable isA2DLine : list point -> bool.
Variable Array_sort : (point -> point -> Q) -> list point -> list point.
Variable alphaShape : Q -> list point -> list cell.
Variable Math_atan2 : Q -> Q -> Q.














End ConvexHullOrder.









(** ** scagScorer: the binning loop *)

Section Binning.

Variable Math_sqrt : Q -> Q.
Variable hexbin : Q -> list point -> list bin.

Lemma bin_loop_unknown_type (o : options) (start mn mx : Q)
  (pts : list point) :
  is_hexagon (binType o) = false -> (0 < mn)%Q ->
  forall fuel st, bins st = [] ->
    bin_loop Math_sqrt hexbin fuel o start mn mx pts st = OutOfFuel.
Proof.
  intros Ht Hmn. induction fuel as [|fuel IH]; intros st Hst; [reflexivity|].
  cbn [bin_loop].
  assert (Hb : bins (bin_step Math_sqrt hexbin o start mn mx pts st) = []).
  { unfold bin_step. rewrite Ht. exact Hst. }
  rewrite Hb. unfold out_of_bounds, count; simpl List.length.
  assert (Qltb (inject_Z (Z.of_nat 0)) mn = true)
    by (apply Qltb_true; exact Hmn).
  rewrite H, orb_true_r. apply IH. exact Hb.
Qed.

Lemma bin_loop_in_bounds (o : options) (start mn mx : Q) (pts : list point) :
  forall fuel st b,
    bin_loop Math_sqrt hexbin fuel o start mn mx pts st = Done b ->
    (mn <= count (bins b))%Q /\ (count (bins b) <= mx)%Q.
Proof.
  induction fuel as [|fuel IH]; intros st b H; [discriminate|].
  cbn [bin_loop] in H.
  destruct (out_of_bounds _ mn mx) eqn:E; [eapply IH; exact H|].
  injection H as <-. unfold out_of_bounds in E.
  apply orb_false_iff in E. destruct E as [E1 E2].
  apply Qltb_false in E1, E2. split; assumption.
Qed.

End Binning.

Section BinningLoop.

Variable Math_sqrt : Q -> Q.
Variable hexbin : Q -> list point -> list bin.

(** The state after [k] rounds of the loop body. *)
Fixpoint rounds (k : nat) (o : options) (start mn mx : Q) (pts : list point)
  (st : binning) : binning :=
  match k with
  | O => st
  | S k' => rounds k' o start mn mx pts (bin_step Math_sqrt hexbin o start mn mx pts st)
  end.

(** The loop returns as soon as a round ends with a count within the
    bounds, whatever fuel is left over. *)
Lemma bin_loop_returns (o : options) (start mn mx : Q) (pts : list point) :
  forall k st fuel,
    (forall i, (i < k)%nat ->
       out_of_bounds (count (bins (rounds (S i) o start mn mx pts st))) mn mx
       = true) ->
    out_of_bounds (count (bins (rounds (S k) o start mn mx pts st))) mn mx
    = false ->
    (k < fuel)%nat ->
    bin_loop Math_sqrt hexbin fuel o start mn mx pts st
    = Done (rounds (S k) o start mn mx pts st).
Proof.
  induction k as [|k IH]; intros st fuel Hbad Hok Hf;
    (destruct fuel as [|fuel]; [lia|]); cbn [bin_loop].
  - cbn [rounds] in Hok. rewrite Hok. reflexivity.
  - pose proof (Hbad O ltac:(lia)) as H0. cbn [rounds] in H0. rewrite H0.
    apply IH; [|exact Hok|lia].
    intros i Hi. apply (Hbad (S i)). lia.
Qed.

Definition direct_bins (pts : list point) : list bin :=
  map (fun key => {| bin_points := group pts key; bin_x := fst key;
                     bin_y := snd key; bin_radius := Some 0%Q |})
      (uniq [] pts).

(** C2 (amended): the binning has no iteration cap.  With fewer
    distinct points than [minNumOfBins] it returns one bin per distinct
    point without entering the loop.  Otherwise it repeats the grid
    adjustment until a round ends with a bin count within
    [minNumOfBins, maxNumOfBins] and returns the bins of that round;
    whenever it returns, the count is within these bounds; with a
    [binType] other than 'hexagon' (and a positive minimum) the bins
    stay empty and no amount of steps makes the loop return. *)
Theorem binning_of_behaviour (fuel : nat) (o : options) (pts : list point) :
  let start := or_default (startBinGridSize o) 40 in
  let mn := or_default (minBins o) 50 in
  let mx := or_default (maxBins o) 500 in
  let distinct := inject_Z (Z.of_nat (List.length (uniq [] pts))) in
  let init := {| bins := []; binner := None; binSize := None;
                 binRadius := 0 |} in
  ((distinct < mn)%Q ->
     binning_of Math_sqrt hexbin fuel o pts
     = Done {| bins := direct_bins pts; binner := None; binSize := None;
               binRadius := 0 |}) /\
  ((mn <= distinct)%Q -> forall k,
     (forall i, (i < k)%nat ->
        out_of_bounds (count (bins (rounds (S i) o start mn mx pts init)))
          mn mx = true) ->
     out_of_bounds (count (bins (rounds (S k) o start mn mx pts init)))
       mn mx = false ->
     (k < fuel)%nat ->
     binning_of Math_sqrt hexbin fuel o pts = Done (rounds (S k) o start mn mx pts init)) /\
  ((mn <= distinct)%Q -> forall b,
     binning_of Math_sqrt hexbin fuel o pts = Done b ->
     (mn <= count (bins b))%Q /\ (count (bins b) <= mx)%Q) /\
  ((mn <= distinct)%Q -> (0 < mn)%Q -> is_hexagon (binType o) = false ->
     binning_of Math_sqrt hexbin fuel o pts = OutOfFuel).
Proof.
  intros start mn mx distinct init.
  unfold binning_of. fold start mn mx distinct.
  repeat split.
  - intros H. apply Qltb_true in H. rewrite H. reflexivity.
  - intros H k Hbad Hok Hf. apply Qltb_false in H. rewrite H.
    now apply bin_loop_returns.
  - apply Qltb_false in H. rewrite H in H0.
    now apply (bin_loop_in_bounds _ _ _ _ _ _ _ _ _ _ H0).
  - apply Qltb_false in H. rewrite H in H0.
    now apply (bin_loop_in_bounds _ _ _ _ _ _ _ _ _ _ H0).
  - intros H Hmn Ht. apply Qltb_false in H. rewrite H.
    now apply bin_loop_unknown_type.
Qed.

End BinningLoop.

Definition no_hexbin (radius : Q) (pts : list point) : list bin := [].

Definition three_points : list point := [(0, 0); (1, 0); (0, 1)]%Q.

Definition square_options : options :=
  {| binType := Some "square"%string; startBinGridSize := None;
     isNormalized := true; isBinned := false; outlyingUpperBound := None;
     minBins := Some 1%Q; maxBins := Some 500%Q |}.

(** Three distinct points, [minBins = 1 <= maxBins = 500] and the
    unknown [binType] 'square': with no budget of steps does the binning
    return. *)
Lemma binning_unknown_binType_never_returns :
  ~ (exists fuel b,
       binning_of sqrt_dec no_hexbin fuel square_options three_points = Done b).
Proof.
  intros (fuel & b & H).
  unfold binning_of in H. simpl in H.
  rewrite bin_loop_unknown_type in H; [discriminate|reflexivity| |reflexivity].
  unfold Qlt; simpl; lia.
Qed.

Definition default_options : options :=
  {| binType := Some "hexagon"%string; startBinGridSize := None;
     isNormalized := true; isBinned := false; outlyingUpperBound := None;
     minBins := None; maxBins := None |}.

Lemma binning_of_behaviour_witness :
  binning_of sqrt_dec no_hexbin 0 default_options three_points
  = Done {| bins := direct_bins three_points; binner := None;
            binSize := None; binRadius := 0 |} /\
  binning_of sqrt_dec no_hexbin 7 square_options three_points = OutOfFuel.
Proof.
  split.
  - apply (binning_of_behaviour sqrt_dec no_hexbin 0 default_options
             three_points).
    unfold Qlt; simpl; lia.
  - apply (binning_of_behaviour sqrt_dec no_hexbin 7 square_options
             three_points).
    + unfold Qle; simpl; lia.
    + unfold Qlt; simpl; lia.
    + reflexivity.
Defined.

(** ** scagScorer: no check of the number of points *)

Lemma bin_loop_no_throw Math_sqrt hexbin fuel o start mn mx pts : forall st msg,
  bin_loop Math_sqrt hexbin fuel o start mn mx pts st <> Throw msg.
Proof.
  induction fuel as [|fuel IH]; intros st msg; cbn [bin_loop]; [discriminate|].
  destruct (out_of_bounds _ _ _); [apply IH | discriminate].
Qed.

Lemma binning_of_no_throw Math_sqrt hexbin fuel o pts msg :
  binning_of Math_sqrt hexbin fuel o pts <> Throw msg.
Proof.
  unfold binning_of. destruct (Qltb _ _); [discriminate|].
  apply bin_loop_no_throw.
Qed.

Lemma fan_loop_no_throw steps : forall i n tgs msg,
  fan_loop steps i n tgs <> Throw msg.
Proof.
  induction steps as [|steps IH]; intros i n tgs msg; cbn [fan_loop];
    destruct (i <? n); try discriminate. apply IH.
Qed.

Lemma delaunayFromPoints_no_throw isA2DLine Array_sort Delaunay_from sites msg :
  delaunayFromPoints isA2DLine Array_sort Delaunay_from sites <> Throw msg.
Proof.
  unfold delaunayFromPoints. destruct (isA2DLine sites); [|discriminate].
  destruct (fan_loop _ _ _ _) eqn:E; simpl; try discriminate.
  now apply fan_loop_no_throw in E.
Qed.

Lemma mst_TypeError (fuel : nat) (g : graph) : mst fuel g = Throw "TypeError".
Proof. reflexivity. Qed.

Lemma host_get_output_same (name : string) (v : hval) (h : host) :
  host_get (outputValue name v h) name = Some v.
Proof.
  induction h as [|[n w] r IH]; simpl.
  - now rewrite String.eqb_refl.
  - destruct (String.eqb n name) eqn:E; simpl; rewrite E; auto.
Qed.

Lemma host_get_output_other (name name' : string) (v : hval) (h : host) :
  String.eqb name' name = false ->
  host_get (outputValue name' v h) name = host_get h name.
Proof.
  intros Hn. induction h as [|[n w] r IH]; simpl.
  - rewrite Hn. reflexivity.
  - destruct (String.eqb n name') eqn:E; simpl.
    + apply String.eqb_eq in E; subst n. rewrite Hn. reflexivity.
    + destruct (String.eqb n name); auto.
Qed.

Ltac host_simpl :=
  repeat (rewrite host_get_output_other by reflexivity);
  try rewrite host_get_output_same.

Section NoPointCheck.

Variable Math_sqrt : Q -> Q.
Variable isA2DLine : list point -> bool.
Variable Array_sort : (point -> point -> Q) -> list point -> list point.
Variable Delaunay_from : list point -> DelaunayObj.
Variable Normalizer : list point -> run (list point).
Variable hexbin : Q -> list point -> list bin.
Variable measures : graph -> host -> host * run unit.

(** C3 (amended): [scagScorer] does not check the number of points
    and has no [InsufficientPoints] failure.  Whatever the input (so
    also with fewer than 3 points), once the points are normalized
    the run stores [normalizedPoints] on the host object before the
    later stages run, and it does not end in [InsufficientPoints]. *)
Theorem scagScorer_no_point_check (fuel : nat) (this : host)
  (inputPoints normalizedPoints : list point) (o : options) :
  (if isNormalized o then Done inputPoints else Normalizer inputPoints)
  = Done normalizedPoints ->
  let '(this', r) :=
    scagScorer Math_sqrt isA2DLine Array_sort Delaunay_from Normalizer
      hexbin measures fuel this inputPoints o in
  host_get this' "normalizedPoints" = Some (VPoints normalizedPoints) /\
  r <> Throw "InsufficientPoints".
Proof.
  intros Hn. unfold scagScorer. rewrite Hn. cbn [step].
  destruct (if isBinned o then _ else _) as [[sites b]|msg| |] eqn:Eb;
    cbn [step].
  2:{ exfalso. destruct (isBinned o); [discriminate|].
      destruct (binning_of _ _ _ _ _) eqn:E; try discriminate.
      now apply binning_of_no_throw in E. }
  2,3: split; [host_simpl; reflexivity | discriminate].
  destruct (delaunayFromPoints _ _ _ sites) as [d|msg| |] eqn:Ed;
    cbn [step].
  2:{ exfalso. now apply delaunayFromPoints_no_throw in Ed. }
  2,3: split; [destruct b; host_simpl; reflexivity | discriminate].
  destruct (triangleCoordinates d) as [t|]; cbn [step];
    split; try (destruct b; host_simpl; reflexivity); discriminate.
Qed.

End NoPointCheck.

Definition no_measures (mstree : graph) (h : host) : host * run unit :=
  (h, Done tt).

Definition one_point : list point := [(0, 0)]%Q.

(** One point, default options on normalized input: the run keeps
    [normalizedPoints], [bins] and [binnedSites] on the host and ends in
    a [TypeError], not in [InsufficientPoints]. *)
Lemma scagScorer_one_point :
  (List.length one_point < 3)%nat /\
  let '(this', r) :=
    scagScorer sqrt_dec isA2DLine_spec (@insertion_sort point) no_delaunay
      (fun ps => Done ps) no_hexbin no_measures 10 [] one_point
      default_options in
  r = Throw "TypeError" /\ r <> Throw "InsufficientPoints" /\
  host_get this' "normalizedPoints" = Some (VPoints one_point) /\
  host_get this' "binnedSites" = Some (VPoints one_point).
Proof.
  split; [simpl; lia|]. vm_compute.
  repeat split; discriminate.
Qed.

Lemma scagScorer_no_point_check_witness :
  let '(this', r) :=
    scagScorer sqrt_dec isA2DLine_spec (@insertion_sort point) no_delaunay
      (fun ps => Done ps) no_hexbin no_measures 10 [] one_point
      default_options in
  host_get this' "normalizedPoints" = Some (VPoints one_point) /\
  r <> Throw "InsufficientPoints".
Proof.
  apply (scagScorer_no_point_check sqrt_dec isA2DLine_spec
           (@insertion_sort point) no_delaunay (fun ps => Done ps) no_hexbin
           no_measures 10 [] one_point one_point default_options).
  reflexivity.
Defined.

(** ** quickselect with a right bound of 0 *)

(** C6: [right || arr.length - 1] replaces a right bound of 0 by the
    last index.  On [[2, 1]] with [k = left = right = 0] the range
    [[0, 0]] holds the single value 2, which is its smallest; the call
    rearranges the whole array, moves 1 to index 0 and changes index 1,
    outside the range. *)
Theorem quickselect_right_zero (Math_log Math_exp Math_sqrt : Q -> Q) :
  let arr := [2; 1]%Q in
  0 <= 0 <= 0 /\ 0 < len arr /\
  quickselect Math_log Math_exp Math_sqrt 5 arr 0 0 0 = Done [1; 2]%Q /\
  get [1; 2]%Q 0 <> get arr 0 /\ get [1; 2]%Q 1 <> get arr 1.
Proof.
  cbv zeta. repeat split; try lia; try reflexivity; discriminate.
Qed.

(** ** quantileArray against quantile *)

(** C8: on [x = [0, 2, 2, 1]] and [p = [0, 3/4]] the multi-quantile
    selection first puts the minimum at index 0, then selects index 2
    within [[0, 3]], which moves the minimum away from index 0;
    [quantileArray] answers 1 for [p = 0], [quantile] answers 0. *)
Theorem quantileArray_differs_from_quantile
  (Math_log Math_exp Math_sqrt : Q -> Q) :
  let x := [0; 2; 2; 1]%Q in
  quantileArray Math_log Math_exp Math_sqrt 20 [x] 0%nat [0; 3 # 4]%Q
  = ([x; [1; 0; 2; 2]%Q], Done [Some 1%Q; Some ((2 + 2) / 2)%Q]) /\
  quantile Math_log Math_exp Math_sqrt 20 [x] 0%nat 0%Q
  = ([x; [0; 2; 2; 1]%Q], Done (Some 0%Q)) /\
  quantile Math_log Math_exp Math_sqrt 20 [x] 0%nat (3 # 4)%Q
  = ([x; [1; 0; 2; 2]%Q], Done (Some ((2 + 2) / 2)%Q)).
Proof.
  cbv zeta. repeat split; vm_compute; reflexivity.
Qed.

(** ** quantile and quantileArray leave their input alone *)

(** C10: whatever [quantile(x, p)] or [quantileArray(x, p)] does
    (return or throw), the store afterwards is the old one, possibly
    extended by one new array, the copy: the array [x], and every other
    array that existed, holds the same elements in the same order as
    before the call. *)
Theorem quantile_leaves_input (Math_log Math_exp Math_sqrt : Q -> Q)
  (fuel : nat) (h : heap) (x : loc) :
  (forall p,
     let h' := fst (quantile Math_log Math_exp Math_sqrt fuel h x p) in
     nth_error h' x = nth_error h x /\
     forall l a, nth_error h l = Some a -> nth_error h' l = Some a) /\
  (forall p,
     let h' := fst (quantileArray Math_log Math_exp Math_sqrt fuel h x p) in
     nth_error h' x = nth_error h x /\
     forall l a, nth_error h l = Some a -> nth_error h' l = Some a).
Proof.
  assert (G : forall h' : heap, (h' = h \/ exists c, h' = h ++ [c]) ->
            forall l a, nth_error h l = Some a -> nth_error h' l = Some a).
  { intros h' [->|[c ->]] l a Hl; [exact Hl | now apply nth_error_alloc]. }
  split; intros p h'.
  - pose proof (quantile_extends_heap Math_log Math_exp Math_sqrt fuel h x p)
      as He. cbv zeta in He. fold h' in He. split; [|now apply G].
    destruct (nth_error h x) as [xs|] eqn:Hx; [now apply G|].
    unfold h', quantile, deref, on_heap. now rewrite Hx.
  - pose proof (quantileArray_extends_heap Math_log Math_exp Math_sqrt fuel h
                  x p) as He. cbv zeta in He. fold h' in He.
    split; [|now apply G].
    destruct (nth_error h x) as [xs|] eqn:Hx; [now apply G|].
    unfold h', quantileArray, deref, on_heap. now rewrite Hx.
Qed.

(** The calls do return on ordinary input; the second array of the
    store is the rearranged copy. *)
Example quantile_runs :
  let x := [3; 1; 2]%Q in
  quantile log0 exp4 sqrt0 20 [x] 0%nat (1 # 2)
  = ([x; [1; 2; 3]%Q], Done (Some 2%Q)) /\
  quantileArray log0 exp4 sqrt0 20 [x] 0%nat [1 # 2; 1]%Q
  = ([x; [1; 2; 3]%Q], Done [Some 2%Q; Some 3%Q]) /\
  quantile log0 exp4 sqrt0 20 [[]] 0%nat (1 # 2)
  = ([[]; []], Throw "quantile requires at least one data point.").
Proof. cbv zeta. repeat split; vm_compute; reflexivity. Qed.

(** ** quickselect: arrays, swaps and rearrangements *)

Lemma len_nonneg (arr : array) : 0 <= len arr.
Proof. unfold len; lia. Qed.

Lemma set_nth_length (arr : array) : forall n v,
  List.length (set_nth arr n v) = List.length arr.
Proof.
  induction arr as [|x r IH]; intros [|n] v; simpl; auto.
Qed.

Lemma len_set (arr : array) (i : Z) (v : Q) : len (set arr i v) = len arr.
Proof. unfold len, set. now rewrite set_nth_length. Qed.

Lemma nth_error_set_nth_same (arr : array) : forall n v,
  (n < List.length arr)%nat -> nth_error (set_nth arr n v) n = Some v.
Proof.
  induction arr as [|x r IH]; intros [|n] v H; simpl in *; try lia; auto.
  apply IH; lia.
Qed.

Lemma nth_error_set_nth_other (arr : array) : forall n m v,
  n <> m -> nth_error (set_nth arr n v) m = nth_error arr m.
Proof.
  induction arr as [|x r IH]; intros [|n] [|m] v H; simpl; auto; try congruence.
Qed.

Lemma get_set_same (arr : array) (i : Z) (v : Q) :
  0 <= i < len arr -> get (set arr i v) i = Some v.
Proof.
  intros H. unfold get, set, len in *.
  destruct (Z.ltb_spec i 0); [lia|].
  apply nth_error_set_nth_same; lia.
Qed.

Lemma get_set_other (arr : array) (i j : Z) (v : Q) :
  0 <= i -> i <> j -> get (set arr i v) j = get arr j.
Proof.
  intros H0 H. unfold get, set.
  destruct (Z.ltb_spec j 0); [reflexivity|].
  apply nth_error_set_nth_other; lia.
Qed.

Lemma get_range (arr : array) (i : Z) (v : Q) :
  get arr i = Some v -> 0 <= i < len arr.
Proof. intros H. apply get_Some_iff. eauto. Qed.

Lemma get_None_iff (arr : array) (i : Z) :
  get arr i = None <-> (i < 0 \/ len arr <= i).
Proof.
  split.
  - intros H. destruct (Z_lt_dec i 0); [now left|].
    destruct (Z_lt_dec i (len arr)); [|right; lia].
    destruct (get_in_range arr i) as [v Hv]; [lia | congruence].
  - intros H. destruct (get arr i) eqn:E; [|reflexivity].
    apply get_range in E. lia.
Qed.

(** Two arrays with the same reads are equal. *)
Lemma get_ext (a b : array) :
  (forall i, get a i = get b i) -> a = b.
Proof.
  intros H. apply nth_error_ext. intros n.
  specialize (H (Z.of_nat n)). unfold get in H.
  destruct (Z.ltb_spec (Z.of_nat n) 0); [lia|].
  now rewrite Nat2Z.id in H.
Qed.

(** What a successful [swap] does. *)
Lemma swap_spec (arr arr' : array) (i j : Z) :
  swap arr i j = Done arr' ->
  0 <= i < len arr /\ 0 <= j < len arr /\ len arr' = len arr /\
  get arr' i = get arr j /\ get arr' j = get arr i /\
  (forall x, x <> i -> x <> j -> get arr' x = get arr x).
Proof.
  unfold swap. intros H.
  destruct (get arr i) as [vi|] eqn:Ei; [|discriminate].
  destruct (get arr j) as [vj|] eqn:Ej; [|discriminate].
  injection H as <-.
  pose proof (get_range _ _ _ Ei) as Ri.
  pose proof (get_range _ _ _ Ej) as Rj.
  repeat split; try lia.
  - now rewrite !len_set.
  - destruct (Z.eq_dec i j) as [->|N].
    + rewrite get_set_same by (rewrite len_set; lia). congruence.
    + rewrite get_set_other by lia. now rewrite get_set_same by lia.
  - now rewrite get_set_same by (rewrite len_set; lia).
  - intros x Hi Hj. rewrite !get_set_other by lia. reflexivity.
Qed.

Lemma swap_Done (arr : array) (i j : Z) :
  0 <= i < len arr -> 0 <= j < len arr -> exists arr', swap arr i j = Done arr'.
Proof.
  intros Hi Hj. unfold swap.
  destruct (get_in_range arr i Hi) as [vi ->].
  destruct (get_in_range arr j Hj) as [vj ->]. eauto.
Qed.

Lemma swap_same (arr arr' : array) (i : Z) :
  swap arr i i = Done arr' -> arr' = arr.
Proof.
  intros H. apply swap_spec in H. destruct H as (Hi & _ & _ & Hg & _ & Ho).
  apply get_ext. intros x. destruct (Z.eq_dec x i) as [->|N]; auto.
Qed.

Lemma set_nth_take (r : array) : forall n v x,
  nth_error r n = Some v -> Permutation (v :: set_nth r n x) (x :: r).
Proof.
  induction r as [|y r IH]; intros [|n] v x H; simpl in *; try discriminate.
  - injection H as ->. apply perm_swap.
  - rewrite perm_swap. rewrite (IH n v x H). apply perm_swap.
Qed.

Lemma set_nth_swap_perm (arr : array) : forall i j vi vj,
  nth_error arr i = Some vi -> nth_error arr j = Some vj ->
  Permutation (set_nth (set_nth arr i vj) j vi) arr.
Proof.
  induction arr as [|x r IH]; intros [|i] [|j] vi vj Hi Hj; simpl in *;
    try discriminate.
  - injection Hi as ->. reflexivity.
  - injection Hi as ->. now apply set_nth_take.
  - injection Hj as ->. now apply set_nth_take.
  - constructor. now apply IH.
Qed.

Lemma swap_perm (arr arr' : array) (i j : Z) :
  swap arr i j = Done arr' -> Permutation arr' arr.
Proof.
  unfold swap, get, set. intros H.
  destruct (i <? 0); [discriminate|].
  destruct (nth_error arr (Z.to_nat i)) as [vi|] eqn:Ei; [|discriminate].
  destruct (j <? 0); [discriminate|].
  destruct (nth_error arr (Z.to_nat j)) as [vj|] eqn:Ej; [|discriminate].
  injection H as <-. now apply set_nth_swap_perm.
Qed.

(** [arr'] rearranges [arr] inside [[l, r]]: a permutation that leaves
    the elements outside in place and fills [[l, r]] from [[l, r]]. *)
Record rearr (l r : Z) (arr arr' : array) : Prop :=
  { rearr_perm : Permutation arr' arr;
    rearr_len : len arr' = len arr;
    rearr_out : forall x, x < l \/ r < x -> get arr' x = get arr x;
    rearr_in : forall y, l <= y <= r ->
                 exists y', l <= y' <= r /\ get arr' y = get arr y' }.

Lemma rearr_refl (l r : Z) (arr : array) : rearr l r arr arr.
Proof. split; auto. intros y Hy; exists y; auto. Qed.

Lemma rearr_trans (l r : Z) (a b c : array) :
  rearr l r a b -> rearr l r b c -> rearr l r a c.
Proof.
  intros [P1 L1 O1 I1] [P2 L2 O2 I2]. split.
  - now rewrite P2.
  - congruence.
  - intros x Hx. rewrite O2, O1; auto.
  - intros y Hy. destruct (I2 y Hy) as (y1 & Hy1 & E1).
    destruct (I1 y1 Hy1) as (y2 & Hy2 & E2). exists y2. split; congruence.
Qed.

Lemma rearr_weaken (l r l' r' : Z) (a b : array) :
  l' <= l -> r <= r' -> rearr l r a b -> rearr l' r' a b.
Proof.
  intros Hl Hr [P L O I]. split; auto.
  - intros x Hx. apply O. lia.
  - intros y Hy.
    destruct (Z_lt_dec y l); [exists y; split; [lia | apply O; lia]|].
    destruct (Z_lt_dec r y); [exists y; split; [lia | apply O; lia]|].
    destruct (I y) as (y' & Hy' & E); [lia|]. exists y'. split; [lia | exact E].
Qed.

Lemma swap_rearr (l r : Z) (arr arr' : array) (i j : Z) :
  l <= i <= r -> l <= j <= r -> swap arr i j = Done arr' -> rearr l r arr arr'.
Proof.
  intros Hi Hj H. pose proof (swap_perm _ _ _ _ H) as P.
  apply swap_spec in H. destruct H as (_ & _ & L & Gi & Gj & Go).
  split; auto.
  - intros x Hx. apply Go; lia.
  - intros y Hy. destruct (Z.eq_dec y i) as [->|Ni]; [exists j; auto|].
    destruct (Z.eq_dec y j) as [->|Nj]; [exists i; auto|].
    exists y. split; [lia | now apply Go].
Qed.

(** Bounds on a range of the array, relative to a pivot value [t]. *)
Definition all_le (arr : array) (a b : Z) (t : Q) : Prop :=
  forall x v, a <= x <= b -> get arr x = Some v -> (v <= t)%Q.

Definition all_ge (arr : array) (a b : Z) (t : Q) : Prop :=
  forall x v, a <= x <= b -> get arr x = Some v -> (t <= v)%Q.

(** ** quickselect: the two scans *)

Lemma skipn_nth_error_Some (arr : array) : forall n x,
  nth_error arr n = Some x -> skipn n arr = x :: skipn (S n) arr.
Proof.
  induction arr as [|y r IH]; intros [|n] x H; simpl in *; try discriminate.
  - now injection H as ->.
  - now apply IH.
Qed.

Lemma skipn_nth_error_None (arr : array) : forall n,
  nth_error arr n = None -> skipn n arr = [].
Proof.
  intros n H. apply skipn_all2. now apply nth_error_None.
Qed.

Lemma firstn_nth_error_Some (arr : array) : forall n x,
  nth_error arr n = Some x -> firstn (S n) arr = firstn n arr ++ [x].
Proof.
  induction arr as [|y r IH]; intros [|n] x H; simpl in *; try discriminate.
  - now injection H as ->.
  - f_equal. now apply IH.
Qed.

Lemma scan_up_unfold (arr : array) (t : option Q) (i : Z) :
  0 <= i ->
  scan_up arr t i = if js_lt (get arr i) t then scan_up arr t (i + 1) else i.
Proof.
  intros Hi. unfold scan_up, get.
  destruct (Z.ltb_spec i 0); [lia|].
  destruct (Z.ltb_spec (i + 1) 0); [lia|].
  destruct (nth_error arr (Z.to_nat i)) as [x|] eqn:E.
  - rewrite (skipn_nth_error_Some _ _ _ E). cbn [scan_up_from].
    replace (Z.to_nat (i + 1)) with (S (Z.to_nat i)) by lia. reflexivity.
  - rewrite (skipn_nth_error_None _ _ E). reflexivity.
Qed.

Lemma scan_down_unfold (arr : array) (t : option Q) (j : Z) :
  0 <= j < len arr ->
  scan_down arr t j
  = if js_gt (get arr j) t then scan_down arr t (j - 1) else j.
Proof.
  intros Hj. unfold scan_down at 1.
  destruct (Z.ltb_spec j 0); [lia|].
  destruct (Z.leb_spec (len arr) j); [lia|]. cbn [orb].
  destruct (get_in_range arr j Hj) as [x Hx]. rewrite Hx.
  assert (E : nth_error arr (Z.to_nat j) = Some x).
  { unfold get in Hx. destruct (Z.ltb_spec j 0); [lia | exact Hx]. }
  replace (Z.to_nat j + 1)%nat with (S (Z.to_nat j)) by lia.
  rewrite (firstn_nth_error_Some _ _ _ E), rev_app_distr.
  cbn [rev app scan_down_from].
  destruct (js_gt (Some x) t); [|reflexivity].
  unfold scan_down.
  destruct (Z.ltb_spec (j - 1) 0).
  - cbn [orb]. replace (Z.to_nat j) with 0%nat by lia. reflexivity.
  - destruct (Z.leb_spec (len arr) (j - 1)); [lia|]. cbn [orb].
    replace (Z.to_nat (j - 1) + 1)%nat with (Z.to_nat j) by lia. reflexivity.
Qed.

Lemma scan_down_neg (arr : array) (t : option Q) (j : Z) :
  j < 0 -> scan_down arr t j = j.
Proof.
  intros H. unfold scan_down. destruct (Z.ltb_spec j 0); [reflexivity | lia].
Qed.

(** The upward scan stops at the first element not below [tv]; a
    sentinel at [s] bounds it. *)
Lemma scan_up_spec (arr : array) (tv : Q) (d : nat) : forall i s vs,
  0 <= i -> s = i + Z.of_nat d -> get arr s = Some vs -> (tv <= vs)%Q ->
  let i' := scan_up arr (Some tv) i in
  i <= i' <= s /\
  (forall x v, i <= x < i' -> get arr x = Some v -> (v < tv)%Q) /\
  (exists v', get arr i' = Some v' /\ (tv <= v')%Q).
Proof.
  induction d as [|d IH]; intros i s vs Hi Hs Gs Hv; cbv zeta;
    rewrite scan_up_unfold by lia.
  - replace s with i in Gs by lia. rewrite Gs. cbn [js_lt].
    assert (E : Qltb vs tv = false) by (apply Qltb_false; exact Hv).
    rewrite E. repeat split; try lia. eauto.
  - assert (Ri : 0 <= i < len arr) by (apply get_range in Gs; lia).
    destruct (get_in_range arr i Ri) as [vi Gi]. rewrite Gi. cbn [js_lt].
    destruct (Qltb vi tv) eqn:E.
    + apply Qltb_true in E.
      destruct (IH (i + 1) s vs) as (B & L & S'); try lia; auto.
      repeat split; try lia; auto.
      intros x v Hx Gx. destruct (Z.eq_dec x i) as [->|N].
      * congruence.
      * apply (L x); [lia | exact Gx].
    + apply Qltb_false in E. repeat split; try lia. eauto.
Qed.

(** The downward scan stops at the first element not above [tv]. *)
Lemma scan_down_spec (arr : array) (tv : Q) (d : nat) : forall j s vs,
  j < len arr -> j = s + Z.of_nat d -> get arr s = Some vs -> (vs <= tv)%Q ->
  let j' := scan_down arr (Some tv) j in
  s <= j' <= j /\
  (forall x v, j' < x <= j -> get arr x = Some v -> (tv < v)%Q) /\
  (exists v', get arr j' = Some v' /\ (v' <= tv)%Q).
Proof.
  induction d as [|d IH]; intros j s vs Hj Hs Gs Hv; cbv zeta;
    pose proof (get_range _ _ _ Gs) as Rs;
    rewrite scan_down_unfold by lia.
  - replace j with s by lia. rewrite Gs. unfold js_gt; cbn [js_lt].
    assert (E : Qltb tv vs = false) by (apply Qltb_false; exact Hv).
    rewrite E. repeat split; try lia. eauto.
  - assert (Rj : 0 <= j < len arr) by lia.
    destruct (get_in_range arr j Rj) as [vj Gj]. rewrite Gj.
    unfold js_gt; cbn [js_lt].
    destruct (Qltb tv vj) eqn:E.
    + apply Qltb_true in E.
      destruct (IH (j - 1) s vs) as (B & L & S'); try lia; auto.
      repeat split; try lia; auto.
      intros x v Hx Gx. destruct (Z.eq_dec x j) as [->|N].
      * congruence.
      * apply (L x); [lia | exact Gx].
    + apply Qltb_false in E. repeat split; try lia. eauto.
Qed.

(** ** quickselect: the Hoare loop *)

(** The pivot value sits at one end of the range. *)
Definition pivot_at_end (arr : array) (left right : Z) (tv : Q) : Prop :=
  (exists v, get arr left = Some v /\ (v == tv)%Q) \/
  (exists v, get arr right = Some v /\ (v == tv)%Q).

(** The state at the head of [while (i < j)]. *)
Record hoare_inv (left right : Z) (tv : Q) (arr : array) (i j : Z) : Prop :=
  { hi_left : left <= i;
    hi_right : j <= right;
    hi_ir : i <= right;
    hi_jl : left <= j;
    hi_lo : 0 <= left;
    hi_hi : right < len arr;
    hi_i : exists vi, get arr i = Some vi /\ (tv <= vi)%Q;
    hi_j : exists vj, get arr j = Some vj /\ (vj <= tv)%Q;
    hi_le : all_le arr left (i - 1) tv;
    hi_ge : all_ge arr (j + 1) right tv;
    hi_mode : (i = left /\ j = right) \/ (left < i /\ j < right);
    hi_pivot : pivot_at_end arr left right tv }.

Lemma hoare_loop_spec (left right : Z) (tv : Q) (n : nat) : forall arr i j,
  hoare_inv left right tv arr i j ->
  (Z.to_nat (j - i) <= n)%nat ->
  exists arr' i' j',
    hoare_loop n arr (Some tv) i j = Done (arr', j') /\
    rearr left right arr arr' /\
    hoare_inv left right tv arr' i' j' /\ j' <= i'.
Proof.
  induction n as [|n IH]; intros arr i j Inv Hn.
  - assert (j <= i) by lia. cbn [hoare_loop].
    destruct (Z.ltb_spec i j); [lia|].
    exists arr, i, j. split; [reflexivity|]. split; [apply rearr_refl|].
    split; [exact Inv | lia].
  - cbn [hoare_loop]. destruct (Z.ltb_spec i j) as [Hij|Hij].
    2:{ exists arr, i, j. split; [reflexivity|]. split; [apply rearr_refl|].
        split; [exact Inv | lia]. }
    destruct Inv as [Hl Hr Hir Hjl H0 Hlen (vi & Gi & Vi) (vj & Gj & Vj)
                       Hle Hge Hmode Hpiv].
    pose proof (get_range _ _ _ Gi) as Ri.
    pose proof (get_range _ _ _ Gj) as Rj.
    destruct (swap_Done arr i j Ri Rj) as [arr1 Hsw]. rewrite Hsw. cbn [bind].
    assert (R1 : rearr left right arr arr1)
      by (apply (swap_rearr left right arr arr1 i j); [lia | lia | exact Hsw]).
    apply swap_spec in Hsw.
    destruct Hsw as (_ & _ & L1 & G1i & G1j & G1o).
    rewrite Gj in G1i. rewrite Gi in G1j.
    destruct (scan_up_spec arr1 tv (Z.to_nat (j - (i + 1))) (i + 1) j vi)
      as (Bi & Li & (v1 & Gv1 & Vv1)); try lia; auto.
    destruct (scan_down_spec arr1 tv (Z.to_nat (j - 1 - i)) (j - 1) i vj)
      as (Bj & Lj & (v2 & Gv2 & Vv2)); try lia; auto.
    set (i1 := scan_up arr1 (Some tv) (i + 1)) in *.
    set (j1 := scan_down arr1 (Some tv) (j - 1)) in *.
    destruct (IH arr1 i1 j1) as (arr' & i' & j' & Hrun & R2 & Inv' & Hji).
    + split; try lia; eauto.
      * intros x v Hx Gx.
        destruct (Z_lt_dec x i) as [Lt|Ge].
        { rewrite G1o in Gx by lia. apply (Hle x); [lia | exact Gx]. }
        destruct (Z.eq_dec x i) as [->|N].
        { assert (v = vj) by congruence. subst v. exact Vj. }
        { assert (v < tv)%Q by (apply (Li x); [lia | exact Gx]). lra. }
      * intros x v Hx Gx.
        destruct (Z_lt_dec j x) as [Lt|Ge].
        { rewrite G1o in Gx by lia. apply (Hge x); [lia | exact Gx]. }
        destruct (Z.eq_dec x j) as [->|N].
        { assert (v = vi) by congruence. subst v. exact Vi. }
        { assert (tv < v)%Q by (apply (Lj x); [lia | exact Gx]). lra. }
      * unfold pivot_at_end in *.
        destruct Hmode as [[-> ->]|[Hli Hjr]].
        { destruct Hpiv as [(v & Gv & Ev)|(v & Gv & Ev)].
          - right. exists v. split; [congruence | exact Ev].
          - left. exists v. split; [congruence | exact Ev]. }
        { destruct Hpiv as [(v & Gv & Ev)|(v & Gv & Ev)].
          - left. exists v. split; [|exact Ev]. rewrite G1o by lia. exact Gv.
          - right. exists v. split; [|exact Ev]. rewrite G1o by lia. exact Gv. }
    + lia.
    + exists arr', i', j'. split; [exact Hrun|].
      split; [exact (rearr_trans _ _ _ _ _ R1 R2)|].
      split; [exact Inv' | exact Hji].
Qed.

(** ** quickselect: one partition *)

Lemma js_eq_true (a : option Q) (tv : Q) :
  js_eq a (Some tv) = true <-> exists v, a = Some v /\ (v == tv)%Q.
Proof.
  destruct a as [v|]; simpl; split.
  - intros H. apply Qeq_bool_iff in H. eauto.
  - intros (w & [= ->] & H). now apply Qeq_bool_iff.
  - discriminate.
  - intros (w & H & _). discriminate.
Qed.

Lemma partition_spec (arr : array) (k left right : Z) (tv : Q) :
  0 <= left -> left <= k <= right -> right < len arr -> left < right ->
  get arr k = Some tv ->
  exists arr' p,
    partition arr k left right = Done (arr', p) /\
    rearr left right arr arr' /\
    left <= p <= right /\
    (exists v, get arr' p = Some v /\ (v == tv)%Q) /\
    all_le arr' left (p - 1) tv /\ all_ge arr' (p + 1) right tv.
Proof.
  intros H0 Hk Hr Hlr Gk. unfold partition. rewrite Gk.
  (* swap(arr, left, k) *)
  destruct (swap_Done arr left k) as [arr1 S1]; try lia. rewrite S1. cbn [bind].
  assert (R1 : rearr left right arr arr1)
    by (apply (swap_rearr left right arr arr1 left k); [lia | lia | exact S1]).
  apply swap_spec in S1. destruct S1 as (_ & _ & L1 & G1l & G1k & G1o).
  rewrite Gk in G1l.
  (* if (arr[right] > t) swap(arr, left, right) *)
  destruct (get_in_range arr1 right) as [vr Gr]; [lia|].
  assert (Step2 : exists arr2,
             (if js_gt (get arr1 right) (Some tv) then swap arr1 left right
              else Done arr1) = Done arr2 /\
             rearr left right arr1 arr2 /\
             hoare_inv left right tv arr2 left right).
  { rewrite Gr. unfold js_gt; cbn [js_lt]. destruct (Qltb tv vr) eqn:E.
    - apply Qltb_true in E.
      destruct (swap_Done arr1 left right) as [arr2 S2]; try lia.
      exists arr2. split; [exact S2|].
      split; [apply (swap_rearr left right arr1 arr2 left right); [lia|lia|exact S2]|].
      apply swap_spec in S2. destruct S2 as (_ & _ & L2 & G2l & G2r & G2o).
      rewrite Gr in G2l. rewrite G1l in G2r.
      split; try lia.
      + exists vr. split; [exact G2l | lra].
      + exists tv. split; [exact G2r | lra].
      + intros x v Hx. lia.
      + intros x v Hx. lia.
      + right. exists tv. split; [exact G2r | reflexivity].
    - apply Qltb_false in E.
      exists arr1. split; [reflexivity|]. split; [apply rearr_refl|].
      split; try lia.
      + exists tv. split; [exact G1l | lra].
      + exists vr. split; [exact Gr | exact E].
      + intros x v Hx. lia.
      + intros x v Hx. lia.
      + left. exists tv. split; [exact G1l | reflexivity]. }
  destruct Step2 as (arr2 & E2 & R2 & Inv2). rewrite E2. cbn [bind].
  (* the loop *)
  destruct (hoare_loop_spec left right tv (Z.to_nat (right - left)) arr2
              left right Inv2) as (arr3 & i' & j' & E3 & R3 & Inv3 & Hji);
    [lia|].
  rewrite E3. cbn [bind].
  destruct Inv3 as [Hl' Hr' Hir' Hjl' _ Hlen' (vi & Gi & Vi) (vj & Gj & Vj)
                      Hle Hge Hmode Hpiv].
  assert (Hm : left < i' /\ j' < right) by (destruct Hmode; lia).
  assert (R123 : rearr left right arr arr3)
    by (eapply rearr_trans; [exact R1|]; eapply rearr_trans; eassumption).
  destruct (js_eq (get arr3 left) (Some tv)) eqn:Eq.
  - (* swap(arr, left, j) *)
    apply js_eq_true in Eq. destruct Eq as (vl & Gl & El).
    destruct (swap_Done arr3 left j') as [arr4 S4]; try lia.
    rewrite S4. cbn [bind]. exists arr4, j'.
    split; [reflexivity|].
    split; [eapply rearr_trans; [exact R123|];
            apply (swap_rearr left right arr3 arr4 left j'); [lia|lia|exact S4]|].
    apply swap_spec in S4. destruct S4 as (_ & _ & L4 & G4l & G4j & G4o).
    split; [lia|]. split; [exists vl; split; [congruence | exact El]|].
    split.
    + intros x v Hx Gx. destruct (Z.eq_dec x left) as [->|N].
      * assert (v = vj) by congruence. subst v. exact Vj.
      * rewrite G4o in Gx by lia. apply (Hle x); [lia | exact Gx].
    + intros x v Hx Gx. rewrite G4o in Gx by lia.
      apply (Hge x); [lia | exact Gx].
  - (* j++; swap(arr, j, right) *)
    assert (Gp : exists v, get arr3 right = Some v /\ (v == tv)%Q).
    { destruct Hpiv as [Hp|Hp]; [|exact Hp].
      apply js_eq_true in Hp. congruence. }
    destruct Gp as (vp & Gp & Ep).
    destruct (swap_Done arr3 (j' + 1) right) as [arr4 S4]; try lia.
    rewrite S4. cbn [bind]. exists arr4, (j' + 1).
    split; [reflexivity|].
    split; [eapply rearr_trans; [exact R123|];
            apply (swap_rearr left right arr3 arr4 (j' + 1) right);
            [lia|lia|exact S4]|].
    apply swap_spec in S4. destruct S4 as (_ & _ & L4 & G4j & G4r & G4o).
    split; [lia|]. split; [exists vp; split; [congruence | exact Ep]|].
    split.
    + intros x v Hx Gx. rewrite G4o in Gx by lia.
      destruct (Z_lt_dec x i') as [Lt|Ge].
      * apply (Hle x); [lia | exact Gx].
      * assert (x = j') by lia. subst x.
        assert (v = vj) by congruence. subst v. exact Vj.
    + intros x v Hx Gx. destruct (Z.eq_dec x right) as [->|N].
      * rewrite G4r in Gx. apply (Hge (j' + 1)); [lia | exact Gx].
      * rewrite G4o in Gx by lia. apply (Hge x); [lia | exact Gx].
Qed.

(** ** quickselect: the selection loop *)

(** [arr[k]] is in its sorted place within [[l, r]]. *)
Definition selected (arr : array) (k l r : Z) : Prop :=
  exists tv, get arr k = Some tv /\ all_le arr l k tv /\ all_ge arr k r tv.

Section QuickselectCorrect.

Variables Math_log Math_exp Math_sqrt : Q -> Q.

(** The sub-range of the Floyd-Rivest step contains [k], is shorter
    than the range it is taken from, and does not end at index 0 (which
    the callee would replace by the last index). *)
Definition fr_range_ok : Prop :=
  forall k left right,
    0 <= left -> left <= k <= right -> 600 < right - left ->
    let '(newLeft, newRight) :=
      fr_range Math_log Math_exp Math_sqrt k left right in
    newLeft <= k <= newRight /\ 0 < newRight /\
    newRight - newLeft < right - left.

Lemma fr_range_inside (k left right : Z) :
  let '(newLeft, newRight) :=
    fr_range Math_log Math_exp Math_sqrt k left right in
  left <= newLeft /\ newRight <= right.
Proof. unfold fr_range. lia. Qed.

Lemma quickselect_loop_spec (Hfr : fr_range_ok) (fuel : nat) :
  forall arr k left right,
    0 <= left -> left <= k <= right -> right < len arr ->
    (Z.to_nat (right - left) <= fuel)%nat ->
    exists arr',
      quickselect_loop Math_log Math_exp Math_sqrt fuel arr k left right
      = Done arr' /\
      rearr left right arr arr' /\ selected arr' k left right.
Proof.
  induction fuel as [|fuel IH]; intros arr k left right H0 Hk Hr Hf.
  - assert (left = right) by lia. subst right. assert (k = left) by lia. subst k.
    cbn [quickselect_loop]. destruct (Z.ltb_spec left left); [lia|].
    exists arr. split; [reflexivity|]. split; [apply rearr_refl|].
    destruct (get_in_range arr left) as [tv Gt]; [lia|].
    exists tv. split; [exact Gt|].
    split; intros x v Hx Gx; assert (x = left) by lia; subst x;
      assert (v = tv) by congruence; subst v; lra.
  - cbn [quickselect_loop]. destruct (Z.ltb_spec left right) as [Hlr|Hlr].
    2:{ assert (left = right) by lia. subst right.
        assert (k = left) by lia. subst k.
        exists arr. split; [reflexivity|]. split; [apply rearr_refl|].
        destruct (get_in_range arr left) as [tv Gt]; [lia|].
        exists tv. split; [exact Gt|].
        split; intros x v Hx Gx; assert (x = left) by lia; subst x;
          assert (v = tv) by congruence; subst v; lra. }
    (* the Floyd-Rivest pass *)
    assert (Pre : exists arr0,
               (if 600 <? right - left
                then let '(newLeft, newRight) :=
                       fr_range Math_log Math_exp Math_sqrt k left right in
                     quickselect_loop Math_log Math_exp Math_sqrt fuel arr k
                       newLeft
                       (if newRight =? 0 then len arr - 1 else newRight)
                else Done arr) = Done arr0 /\
               rearr left right arr arr0).
    { destruct (Z.ltb_spec 600 (right - left)) as [Big|Small].
      - pose proof (Hfr k left right H0 Hk Big) as Hok.
        pose proof (fr_range_inside k left right) as Hin.
        destruct (fr_range Math_log Math_exp Math_sqrt k left right)
          as [nl nr].
        destruct Hok as (Hkn & Hpos & Hw). destruct Hin as (Hnl & Hnr).
        destruct (Z.eqb_spec nr 0); [lia|].
        destruct (IH arr k nl nr) as (arr0 & E0 & R0 & _); try lia.
        exists arr0. split; [exact E0|].
        apply (rearr_weaken nl nr); [lia | lia | exact R0].
      - exists arr. split; [reflexivity | apply rearr_refl]. }
    destruct Pre as (arr0 & E0 & R0). rewrite E0. cbn [bind].
    assert (L0 : len arr0 = len arr) by apply R0.
    destruct (get_in_range arr0 k) as [tv Gt]; [lia|].
    destruct (partition_spec arr0 k left right tv)
      as (arr1 & p & E1 & R1 & Hp & (vp & Gp & Ep) & Hle & Hge); try lia; auto.
    rewrite E1. cbn [bind].
    assert (L1 : len arr1 = len arr0) by apply R1.
    assert (R01 : rearr left right arr arr1)
      by (eapply rearr_trans; eassumption).
    destruct (Z.leb_spec p k) as [Hpk|Hpk];
      destruct (Z.leb_spec k p) as [Hkp|Hkp]; try lia.
    + (* the pivot landed on k *)
      assert (p = k) by lia. subst p.
      exists arr1. split.
      { destruct fuel; cbn [quickselect_loop];
          destruct (Z.ltb_spec (k + 1) (k - 1)); try lia; reflexivity. }
      split; [exact R01|].
      exists vp. split; [exact Gp|]. split.
      * intros x v Hx Gx. destruct (Z.eq_dec x k) as [->|N].
        { assert (v = vp) by congruence. subst v. lra. }
        { assert (v <= tv)%Q by (apply (Hle x); [lia | exact Gx]). lra. }
      * intros x v Hx Gx. destruct (Z.eq_dec x k) as [->|N].
        { assert (v = vp) by congruence. subst v. lra. }
        { assert (tv <= v)%Q by (apply (Hge x); [lia | exact Gx]). lra. }
    + (* the pivot is left of k: continue in [p + 1, right] *)
      destruct (IH arr1 k (p + 1) right) as (arr' & E' & R' & (sv & Gs & Sle & Sge));
        try lia.
      exists arr'. split; [exact E'|].
      split; [eapply rearr_trans; [exact R01|];
              apply (rearr_weaken (p + 1) right); [lia | lia | exact R']|].
      exists sv. split; [exact Gs|]. split; [|intros x v Hx Gx; apply (Sge x); [lia | exact Gx]].
      assert (Hsv : (tv <= sv)%Q).
      { destruct (rearr_in _ _ _ _ R' k) as (y' & Hy' & Ey'); [lia|].
        rewrite Gs in Ey'. apply (Hge y'); [lia | now symmetry]. }
      intros x v Hx Gx. destruct (Z_le_dec (p + 1) x) as [In|Out].
      * apply (Sle x); [lia | exact Gx].
      * rewrite (rearr_out _ _ _ _ R') in Gx by lia.
        destruct (Z.eq_dec x p) as [->|N].
        { assert (v = vp) by congruence. subst v. lra. }
        { assert (v <= tv)%Q by (apply (Hle x); [lia | exact Gx]). lra. }
    + (* the pivot is right of k: continue in [left, p - 1] *)
      destruct (IH arr1 k left (p - 1)) as (arr' & E' & R' & (sv & Gs & Sle & Sge));
        try lia.
      exists arr'. split; [exact E'|].
      split; [eapply rearr_trans; [exact R01|];
              apply (rearr_weaken left (p - 1)); [lia | lia | exact R']|].
      exists sv. split; [exact Gs|]. split; [intros x v Hx Gx; apply (Sle x); [lia | exact Gx]|].
      assert (Hsv : (sv <= tv)%Q).
      { destruct (rearr_in _ _ _ _ R' k) as (y' & Hy' & Ey'); [lia|].
        rewrite Gs in Ey'. apply (Hle y'); [lia | now symmetry]. }
      intros x v Hx Gx. destruct (Z_le_dec x (p - 1)) as [In|Out].
      * apply (Sge x); [lia | exact Gx].
      * rewrite (rearr_out _ _ _ _ R') in Gx by lia.
        destruct (Z.eq_dec x p) as [->|N].
        { assert (v = vp) by congruence. subst v. lra. }
        { assert (tv <= v)%Q by (apply (Hge x); [lia | exact Gx]). lra. }
Qed.

End QuickselectCorrect.

Section QuickselectTop.

Variables Math_log Math_exp Math_sqrt : Q -> Q.
Hypothesis Hfr : fr_range_ok Math_log Math_exp Math_sqrt.

(** [quickselect] with a right bound other than 0: the call returns,
    the array is a permutation of the old one, nothing outside
    [[left, right]] moves, every element of [[left, k]] is at most
    [arr[k]] and every element of [[k, right]] at least [arr[k]]. *)
Lemma quickselect_correct (fuel : nat) (arr : array) (k left right : Z) :
  0 <= left -> left <= k <= right -> right < len arr -> right <> 0 ->
  (Z.to_nat (right - left) <= fuel)%nat ->
  exists arr',
    quickselect Math_log Math_exp Math_sqrt fuel arr k left right = Done arr' /\
    Permutation arr' arr /\
    (forall x, x < left \/ right < x -> get arr' x = get arr x) /\
    selected arr' k left right.
Proof.
  intros H0 Hk Hr Hnz Hf. unfold quickselect.
  destruct (Z.eqb_spec right 0); [contradiction|].
  destruct (quickselect_loop_spec Math_log Math_exp Math_sqrt Hfr fuel arr k
              left right) as (arr' & E & R & S); auto.
  exists arr'. split; [exact E|]. split; [apply R|]. split; [apply R | exact S].
Qed.

(** With a right bound of 0 the range is the whole array. *)
Lemma quickselect_whole (fuel : nat) (arr : array) (k : Z) :
  0 <= k < len arr -> (Z.to_nat (len arr - 1) <= fuel)%nat ->
  exists arr',
    quickselect Math_log Math_exp Math_sqrt fuel arr k 0 (len arr - 1)
    = Done arr' /\
    Permutation arr' arr /\ selected arr' k 0 (len arr - 1).
Proof.
  intros Hk Hf. unfold quickselect.
  assert (E0 : (if len arr - 1 =? 0 then len arr - 1 else len arr - 1)
               = len arr - 1) by (destruct (len arr - 1 =? 0); reflexivity).
  rewrite E0.
  destruct (quickselect_loop_spec Math_log Math_exp Math_sqrt Hfr fuel arr k
              0 (len arr - 1)) as (arr' & E & R & S); try lia.
  exists arr'. split; [exact E|]. split; [apply R | exact S].
Qed.

End QuickselectTop.

(** *** A Floyd-Rivest step that satisfies [fr_range_ok] *)

Lemma Qfloor_lb (e : Q) (c : Z) : (inject_Z c <= e)%Q -> c <= Qfloor e.
Proof.
  intros H. rewrite <- (Qfloor_Z c). now apply Qfloor_resp_le.
Qed.

Lemma Qfloor_ub (e : Q) (c : Z) : (e < inject_Z c)%Q -> Qfloor e < c.
Proof.
  intros H. pose proof (Qfloor_le e).
  rewrite Zlt_Qlt. lra.
Qed.

Lemma fr_range_ok_instance : fr_range_ok log0 exp4 sqrt0.
Proof.
  intros k left right H0 Hk Hbig. unfold fr_range, log0, exp4, sqrt0.
  set (n := inject_Z (right - left + 1)).
  set (m := inject_Z (k - left + 1)).
  set (kq := inject_Z k).
  assert (Hn : (602 <= n)%Q).
  { unfold n. change 602%Q with (inject_Z 602). rewrite <- Zle_Qle. lia. }
  assert (Hm1 : (1 <= m)%Q).
  { unfold m. change 1%Q with (inject_Z 1). rewrite <- Zle_Qle. lia. }
  assert (Hmn : (m <= n)%Q) by (unfold m, n; rewrite <- Zle_Qle; lia).
  set (sd := if Qltb (m - n / 2) 0 then ((1 # 2) * 0 * - (1))%Q
             else ((1 # 2) * 0)%Q).
  assert (Hsd : (sd == 0)%Q) by (unfold sd; destruct (Qltb _ _); lra).
  set (a := (m * ((1 # 2) * 4) / n)%Q).
  set (b := ((n - m) * ((1 # 2) * 4) / n)%Q).
  assert (Ha0 : (0 < a)%Q) by (unfold a; apply Qlt_shift_div_l; lra).
  assert (Ha2 : (a <= 2)%Q) by (unfold a; apply Qle_shift_div_r; lra).
  assert (Hb0 : (0 <= b)%Q) by (unfold b; apply Qle_shift_div_l; lra).
  assert (Hb2 : (b < 2)%Q) by (unfold b; apply Qlt_shift_div_r; lra).
  assert (L1 : Qfloor (kq - a + sd) < k)
    by (apply Qfloor_ub; fold kq; lra).
  assert (L2 : k - 2 <= Qfloor (kq - a + sd)).
  { apply Qfloor_lb. unfold Z.sub. rewrite inject_Z_plus. fold kq.
    change (inject_Z (- (2))) with (- (2))%Q. lra. }
  assert (U1 : k <= Qfloor (kq + b + sd)) by (apply Qfloor_lb; fold kq; lra).
  assert (U2 : Qfloor (kq + b + sd) < k + 2).
  { apply Qfloor_ub. rewrite inject_Z_plus. fold kq.
    change (inject_Z 2) with 2%Q. lra. }
  assert (U3 : k = 0 -> 1 <= Qfloor (kq + b + sd)).
  { intros ->. apply Qfloor_lb.
    assert (Eq0 : kq = 0%Q) by reflexivity. rewrite Eq0.
    assert (Em : (m == 1)%Q).
    { unfold m. replace (0 - left + 1) with 1 by lia. reflexivity. }
    assert (1 <= b)%Q; [|change (inject_Z 1) with 1%Q; lra].
    unfold b. apply Qle_shift_div_l; lra. }
  lia.
Qed.

(** ** quantile returns on every non-empty sample *)

Lemma quantileSorted_defined (x : array) (p : Q) :
  0 < len x -> (0 <= p)%Q -> (p <= 1)%Q ->
  exists v, quantileSorted x p = Done (Some v).
Proof.
  intros Hn H0 H1. unfold quantileSorted. set (n := len x) in *.
  set (idx := (inject_Z n * p)%Q).
  destruct (Z.eqb_spec n 0); [lia|].
  assert (Hp0 : Qltb p 0 = false) by (apply Qltb_false; lra).
  assert (Hp1 : Qltb 1 p = false) by (apply Qltb_false; lra).
  rewrite Hp0, Hp1; simpl orb; cbv iota.
  destruct (Qeq_bool p 1) eqn:E1.
  { destruct (get_in_range x (n - 1)) as [v ->]; [fold n; lia | eauto]. }
  destruct (Qeq_bool p 0) eqn:E0.
  { destruct (get_in_range x 0) as [v ->]; [fold n; lia | eauto]. }
  assert (P0 : (0 < p)%Q).
  { destruct (Qeq_dec p 0) as [E|E]; [apply Qeq_bool_iff in E; congruence | lra]. }
  assert (P1 : (p < 1)%Q).
  { destruct (Qeq_dec p 1) as [E|E]; [apply Qeq_bool_iff in E; congruence | lra]. }
  destruct (idx_bounds n p Hn P0 P1) as [I0 I1]. fold idx in I0, I1.
  destruct (is_integer idx) eqn:EI; simpl negb; cbv iota.
  - apply is_integer_true in EI.
    pose proof (integer_idx_pos idx n I0 I1 EI).
    destruct (n mod 2 =? 0).
    + destruct (get_in_range x (Qfloor idx - 1)) as [a ->]; [fold n; lia|].
      destruct (get_in_range x (Qfloor idx)) as [b ->]; [fold n; lia|].
      simpl. eauto.
    + destruct (get_in_range x (Qfloor idx)) as [v ->]; [fold n; lia | eauto].
  - pose proof (Qceiling_pos_le idx n I0 I1).
    destruct (get_in_range x (Qceiling idx - 1)) as [v ->];
      [fold n; lia | eauto].
Qed.

Section QuantileReturns.

Variables Math_log Math_exp Math_sqrt : Q -> Q.
Hypothesis Hfr : fr_range_ok Math_log Math_exp Math_sqrt.

(** The index asked of [quantileSelect] by [quantile]: an index of the
    array, or the middle of two neighbouring indices. *)
Lemma quantileIndex_range (n : Z) (p : Q) :
  0 < n -> (0 <= p)%Q -> (p <= 1)%Q ->
  let idx := quantileIndex n p in
  (is_integer idx = true /\ 0 <= Qfloor idx < n) \/
  (is_integer idx = false /\ 0 <= Qfloor idx /\ Qfloor idx + 1 < n).
Proof.
  intros Hn H0 H1. cbv zeta. unfold quantileIndex.
  assert (Hz : forall z, is_integer (inject_Z z) = true).
  { intros z. apply is_integer_true. now rewrite Qfloor_Z. }
  destruct (Qeq_bool p 1) eqn:E1.
  { left. rewrite Hz, Qfloor_Z. split; [reflexivity | lia]. }
  destruct (Qeq_bool p 0) eqn:E0.
  { left. split; [reflexivity | change (Qfloor 0) with 0; lia]. }
  assert (P0 : (0 < p)%Q).
  { destruct (Qeq_dec p 0) as [E|E]; [apply Qeq_bool_iff in E; congruence | lra]. }
  assert (P1 : (p < 1)%Q).
  { destruct (Qeq_dec p 1) as [E|E]; [apply Qeq_bool_iff in E; congruence | lra]. }
  destruct (idx_bounds n p Hn P0 P1) as [I0 I1].
  set (idx := (inject_Z n * p)%Q) in *.
  destruct (is_integer idx) eqn:EI; simpl negb; cbv iota.
  - apply is_integer_true in EI.
    pose proof (integer_idx_pos idx n I0 I1 EI) as Hf.
    destruct (Z.eqb_spec (n mod 2) 0).
    + right.
      assert (Lo : (inject_Z (Qfloor idx - 1) < idx - (1 # 2))%Q).
      { unfold Z.sub. rewrite inject_Z_plus.
        change (inject_Z (- (1))) with (- (1))%Q. lra. }
      assert (Hi : (idx - (1 # 2) < inject_Z (Qfloor idx))%Q) by lra.
      assert (Fl : Qfloor (idx - (1 # 2)) = Qfloor idx - 1).
      { pose proof (Qfloor_lb (idx - (1 # 2)) (Qfloor idx - 1) ltac:(lra)).
        pose proof (Qfloor_ub (idx - (1 # 2)) (Qfloor idx) Hi). lia. }
      split; [|rewrite Fl; lia].
      unfold is_integer. rewrite Fl.
      destruct (Qeq_bool (inject_Z (Qfloor idx - 1)) (idx - (1 # 2))) eqn:E;
        [|reflexivity].
      apply Qeq_bool_iff in E. lra.
    + left. split; [now apply is_integer_true | lia].
  - left. pose proof (Qceiling_pos_le idx n I0 I1).
    rewrite Hz, Qfloor_Z. split; [reflexivity | lia].
Qed.

Lemma quantileSelect_returns (fuel : nat) (arr : array) (p : Q) :
  0 < len arr -> (0 <= p)%Q -> (p <= 1)%Q ->
  (Z.to_nat (len arr) <= fuel)%nat ->
  exists arr',
    quantileSelect Math_log Math_exp Math_sqrt fuel arr
      (quantileIndex (len arr) p) 0 (len arr - 1) = Done arr' /\
    Permutation arr' arr.
Proof.
  intros Hn H0 H1 Hf. unfold quantileSelect.
  destruct (quantileIndex_range (len arr) p Hn H0 H1) as [[E R]|[E R]];
    cbv zeta in E, R; rewrite E.
  - destruct (quickselect_whole Math_log Math_exp Math_sqrt Hfr fuel arr
                (Qfloor (quantileIndex (len arr) p)))
      as (arr' & Ea & P & _); [lia | lia |].
    exists arr'. split; assumption.
  - set (k := Qfloor (quantileIndex (len arr) p)) in *.
    destruct (quickselect_whole Math_log Math_exp Math_sqrt Hfr fuel arr k)
      as (arr1 & E1 & P1 & _); [lia | lia |].
    rewrite E1. cbn [bind].
    assert (L1 : len arr1 = len arr).
    { unfold len. now rewrite (Permutation_length P1). }
    destruct (quickselect_correct Math_log Math_exp Math_sqrt Hfr fuel arr1
                (k + 1) (k + 1) (len arr - 1))
      as (arr2 & E2 & P2 & _); try lia.
    exists arr2. split; [exact E2 | now rewrite P2].
Qed.

(** [quantile(x, p)] returns a number for every non-empty [x] and every
    [p] in [0, 1], given fuel for the length of [x]. *)
Lemma quantile_returns (fuel : nat) (h : heap) (x : loc) (xs : array) (p : Q) :
  nth_error h x = Some xs -> 0 < len xs -> (0 <= p)%Q -> (p <= 1)%Q ->
  (Z.to_nat (len xs) <= fuel)%nat ->
  exists c v,
    quantile Math_log Math_exp Math_sqrt fuel h x p
    = (h ++ [c], Done (Some v)) /\ Permutation c xs.
Proof.
  intros Hx Hn H0 H1 Hf. unfold quantile, deref, alloc, on_heap.
  rewrite Hx. rewrite nth_error_app2, Nat.sub_diag by lia. cbn [nth_error].
  destruct (quantileSelect_returns fuel xs p Hn H0 H1 Hf) as (c & E & P).
  rewrite E, store_alloc.
  rewrite nth_error_app2, Nat.sub_diag by lia. cbn [nth_error].
  assert (Lc : len c = len xs).
  { unfold len. now rewrite (Permutation_length P). }
  destruct (quantileSorted_defined c p) as [v Hv]; [lia | assumption..|].
  rewrite Hv. eauto.
Qed.

End QuantileReturns.

(** * Further properties of util.ts *)

(** ** max, min and maxSorted *)

Lemma max_loop_spec (rest : list Q) : forall v0,
  let v := fold_left (fun value xi => if Qltb value xi then xi else value)
                     rest v0 in
  In v (v0 :: rest) /\ (v0 <= v)%Q /\ forall y, In y rest -> (y <= v)%Q.
Proof.
  induction rest as [|a r IH]; intros v0; cbv zeta; cbn [fold_left].
  - split; [now left|]. split; [lra | intros y []].
  - destruct (Qltb v0 a) eqn:E.
    + apply Qltb_true in E. destruct (IH a) as (I & L & A).
      split; [right; exact I|]. split; [lra|].
      intros y [<-|Hy]; [exact L | now apply A].
    + apply Qltb_false in E. destruct (IH v0) as (I & L & A).
      split; [destruct I as [I|I]; [now left | right; now right]|].
      split; [exact L|].
      intros y [<-|Hy]; [lra | now apply A].
Qed.

Lemma min_loop_spec (rest : list Q) : forall v0,
  let v := fold_left (fun value xi => if Qltb xi value then xi else value)
                     rest v0 in
  In v (v0 :: rest) /\ (v <= v0)%Q /\ forall y, In y rest -> (v <= y)%Q.
Proof.
  induction rest as [|a r IH]; intros v0; cbv zeta; cbn [fold_left].
  - split; [now left|]. split; [lra | intros y []].
  - destruct (Qltb a v0) eqn:E.
    + apply Qltb_true in E. destruct (IH a) as (I & L & A).
      split; [right; exact I|]. split; [lra|].
      intros y [<-|Hy]; [exact L | now apply A].
    + apply Qltb_false in E. destruct (IH v0) as (I & L & A).
      split; [destruct I as [I|I]; [now left | right; now right]|].
      split; [exact L|].
      intros y [<-|Hy]; [lra | now apply A].
Qed.

Lemma max_nonempty (x : array) :
  x <> [] ->
  exists v, max x = Done v /\ In v x /\ forall y, In y x -> (y <= v)%Q.
Proof.
  destruct x as [|x0 rest]; [congruence|]. intros _.
  destruct (max_loop_spec rest x0) as (I & L & A). cbv zeta in *.
  eexists. split; [reflexivity|]. split; [exact I|].
  intros y [<-|Hy]; [exact L | now apply A].
Qed.

(** X1: [max] throws on the empty array and otherwise returns an
    element of the array that no element exceeds. *)
Theorem max_greatest (x : array) :
  (x = [] -> max x = Throw "max requires at least one data point") /\
  (x <> [] ->
   exists v, max x = Done v /\ In v x /\ forall y, In y x -> (y <= v)%Q).
Proof.
  split; [intros ->; reflexivity | apply max_nonempty].
Qed.

Lemma max_greatest_witness :
  exists v, max [3; 1; 4]%Q = Done v /\ In v [3; 1; 4]%Q /\
            forall y, In y [3; 1; 4]%Q -> (y <= v)%Q.
Proof. apply (proj2 (max_greatest [3; 1; 4]%Q)). discriminate. Defined.

(** X2: [min] throws on the empty array and otherwise returns an
    element of the array that no element is below. *)
Theorem min_least (x : array) :
  (x = [] -> min x = Throw "min requires at least one data point") /\
  (x <> [] ->
   exists v, min x = Done v /\ In v x /\ forall y, In y x -> (v <= y)%Q).
Proof.
  split; [intros ->; reflexivity|].
  destruct x as [|x0 rest]; [congruence|]. intros _.
  destruct (min_loop_spec rest x0) as (I & L & A). cbv zeta in *.
  eexists. split; [reflexivity|]. split; [exact I|].
  intros y [<-|Hy]; [exact L | now apply A].
Qed.

Lemma min_least_witness :
  exists v, min [3; 1; 4]%Q = Done v /\ In v [3; 1; 4]%Q /\
            forall y, In y [3; 1; 4]%Q -> (v <= y)%Q.
Proof. apply (proj2 (min_least [3; 1; 4]%Q)). discriminate. Defined.

(** An ascending array. *)
Definition ascending (x : array) : Prop :=
  StronglySorted (fun a b => (a <= b)%Q) x.

Lemma get_last (x : array) (a : Q) : get (x ++ [a]) (len (x ++ [a]) - 1) = Some a.
Proof.
  unfold get, len. rewrite length_app. cbn [List.length].
  destruct (Z.ltb_spec (Z.of_nat (List.length x + 1) - 1) 0); [lia|].
  replace (Z.to_nat (Z.of_nat (List.length x + 1) - 1)) with (List.length x)
    by lia.
  rewrite nth_error_app2, Nat.sub_diag by lia. reflexivity.
Qed.

Lemma get_In (x : array) (i : Z) (v : Q) : get x i = Some v -> In v x.
Proof.
  unfold get. destruct (i <? 0); [discriminate|]. apply nth_error_In.
Qed.

Lemma ascending_get (x : array) : ascending x ->
  forall i j vi vj, i <= j -> get x i = Some vi -> get x j = Some vj ->
                    (vi <= vj)%Q.
Proof.
  unfold ascending. induction 1 as [|a l Hs IH Ha]; intros i j vi vj Hij Gi Gj.
  - apply get_In in Gi. destruct Gi.
  - pose proof (get_range _ _ _ Gi) as Ri. pose proof (get_range _ _ _ Gj) as Rj.
    unfold get in Gi, Gj.
    destruct (Z.ltb_spec i 0); [lia|]. destruct (Z.ltb_spec j 0); [lia|].
    destruct (Z.to_nat i) as [|ni] eqn:Ei; destruct (Z.to_nat j) as [|nj] eqn:Ej;
      cbn [nth_error] in Gi, Gj.
    + assert (vi = vj) by congruence. subst. lra.
    + injection Gi as <-. apply nth_error_In in Gj.
      rewrite Forall_forall in Ha. now apply Ha.
    + lia.
    + apply (IH (Z.of_nat ni) (Z.of_nat nj)); try lia;
        unfold get;
        [destruct (Z.ltb_spec (Z.of_nat ni) 0); [lia|]; now rewrite Nat2Z.id
        |destruct (Z.ltb_spec (Z.of_nat nj) 0); [lia|]; now rewrite Nat2Z.id].
Qed.

(** X3: on a non-empty ascending array [maxSorted] returns the same
    number as [max]; on the empty array it returns [undefined] where
    [max] throws. *)
Theorem maxSorted_is_max (x : array) :
  (x = [] -> maxSorted x = None) /\
  (x <> [] -> ascending x ->
   exists v w, maxSorted x = Some v /\ max x = Done w /\ (v == w)%Q).
Proof.
  split; [intros ->; reflexivity|]. intros Hne Hs.
  destruct (max_nonempty x Hne) as (w & Hw & Iw & Aw).
  assert (Hn : 0 < len x) by (unfold len; destruct x; [congruence | simpl; lia]).
  destruct (get_in_range x (len x - 1)) as [v Hv]; [lia|].
  exists v, w. unfold maxSorted. split; [exact Hv|]. split; [exact Hw|].
  assert (v <= w)%Q by (apply Aw; eapply get_In; exact Hv).
  apply In_nth_error in Iw. destruct Iw as [n Hn'].
  assert (w <= v)%Q.
  { apply (ascending_get x Hs (Z.of_nat n) (len x - 1)); [|  |exact Hv].
    - assert (n < List.length x)%nat by (apply nth_error_Some; congruence).
      unfold len; lia.
    - unfold get. destruct (Z.ltb_spec (Z.of_nat n) 0); [lia|].
      now rewrite Nat2Z.id. }
  lra.
Qed.

Lemma maxSorted_is_max_witness :
  exists v w, maxSorted [1; 3; 4]%Q = Some v /\ max [1; 3; 4]%Q = Done w /\
              (v == w)%Q.
Proof.
  apply (proj2 (maxSorted_is_max [1; 3; 4]%Q)); [discriminate|].
  repeat constructor; unfold Qle; simpl; lia.
Defined.

(** ** zip and getCol *)

Lemma entry_of_nat (r : row) (c : nat) : entry r (Z.of_nat c) = nth c r None.
Proof.
  unfold entry. destruct (Z.ltb_spec (Z.of_nat c) 0); [lia|].
  now rewrite Nat2Z.id.
Qed.

Lemma map_nth_seq {A} (d : A) (l : list A) :
  map (fun c => nth c l d) (seq 0 (List.length l)) = l.
Proof.
  induction l as [|a l IH]; [reflexivity|].
  cbn [List.length seq map nth]. f_equal.
  rewrite <- seq_shift, map_map. exact IH.
Qed.

(** X4: for one or more rows of one common positive length [n],
    [zip] returns [n] rows whose length is the number of rows given,
    and zipping the result gives the rows back. *)
Theorem zip_zip (rows : list row) (n : nat) :
  rows <> [] -> (0 < n)%nat ->
  (forall r, In r rows -> List.length r = n) ->
  exists t,
    zip rows = Done t /\ List.length t = n /\
    (forall col, In col t -> List.length col = List.length rows) /\
    zip t = Done rows.
Proof.
  intros Hne Hn Hrect.
  destruct rows as [|row0 rs]; [congruence|].
  set (rows := row0 :: rs) in *.
  assert (H0 : List.length row0 = n) by (apply Hrect; now left).
  set (column := fun c : nat => map (fun r : row => entry r (Z.of_nat c)) rows).
  exists (map column (seq 0 n)).
  split; [unfold zip, rows; now rewrite H0|].
  split; [now rewrite length_map, length_seq|].
  assert (Hcol : forall c, List.length (column c) = List.length rows)
    by (intros c; unfold column; now rewrite length_map).
  split.
  { intros col Hc. apply in_map_iff in Hc. destruct Hc as (c & <- & _).
    apply Hcol. }
  assert (Ht : exists c0 cs, map column (seq 0 n) = c0 :: cs /\
                            List.length c0 = List.length rows).
  { destruct n as [|n']; [lia|]. exists (column 0%nat), (map column (seq 1 n')).
    split; [reflexivity | apply Hcol]. }
  destruct Ht as (c0 & cs & Et & Lc0).
  assert (Ez : zip (map column (seq 0 n))
               = Done (map (fun i => map (fun r : row => entry r (Z.of_nat i))
                                         (map column (seq 0 n)))
                           (seq 0 (List.length rows)))).
  { rewrite Et. unfold zip. now rewrite Lc0. }
  rewrite Ez. apply f_equal.
  transitivity (map (fun i => nth i rows []) (seq 0 (List.length rows)));
    [|apply map_nth_seq].
  apply map_ext_in. intros i Hi. apply in_seq in Hi.
  rewrite map_map.
  assert (Hlen : List.length (nth i rows []) = n).
  { apply Hrect. apply nth_In. lia. }
  transitivity (map (fun c => nth c (nth i rows []) None) (seq 0 n));
    [|rewrite <- Hlen; apply map_nth_seq].
  apply map_ext. intros c. rewrite entry_of_nat. unfold column.
  rewrite (nth_indep _ None (entry [] (Z.of_nat c)))
    by (rewrite length_map; lia).
  rewrite (map_nth (fun r : row => entry r (Z.of_nat c))).
  apply entry_of_nat.
Qed.

Lemma zip_zip_witness :
  exists t,
    zip [[Some 1; Some 2]; [Some 3; Some 4]; [Some 5; None]]%Q = Done t /\
    List.length t = 2%nat /\
    (forall col, In col t -> List.length col = 3%nat) /\
    zip t = Done [[Some 1; Some 2]; [Some 3; Some 4]; [Some 5; None]]%Q.
Proof.
  apply (zip_zip [[Some 1; Some 2]; [Some 3; Some 4]; [Some 5; None]]%Q 2).
  - discriminate.
  - lia.
  - intros r [<-|[<-|[<-|[]]]]; reflexivity.
Defined.

(** X5: [getCol(matrix, col)] has one entry per row of the matrix, an
    undefined one where the row has no column [col]; for a column index
    of the first row it is row [col] of [zip(...matrix)]. *)
Theorem getCol_zip (matrix : list row) (col : Z) :
  List.length (getCol matrix col) = List.length matrix /\
  (forall i r, nth_error matrix i = Some r ->
     nth_error (getCol matrix col) i = Some (entry r col)) /\
  (forall row0 rest t, matrix = row0 :: rest ->
     0 <= col < Z.of_nat (List.length row0) -> zip matrix = Done t ->
     nth_error t (Z.to_nat col) = Some (getCol matrix col)).
Proof.
  unfold getCol. split; [apply length_map|]. split.
  - intros i r Hi. now rewrite nth_error_map, Hi.
  - intros row0 rest t -> Hc H. unfold zip in H. injection H as <-.
    rewrite nth_error_map.
    rewrite (nth_error_nth' _ 0%nat) by (rewrite length_seq; lia).
    rewrite seq_nth by lia. cbn [option_map Nat.add].
    now rewrite Z2Nat.id by lia.
Qed.

Lemma getCol_zip_witness :
  nth_error [[Some 1; Some 3]; [Some 2; Some 4]]%Q (Z.to_nat 1)
  = Some (getCol [[Some 1; Some 2]; [Some 3; Some 4]]%Q 1).
Proof.
  refine (proj2 (proj2 (getCol_zip [[Some 1; Some 2]; [Some 3; Some 4]]%Q 1))
            [Some 1; Some 2]%Q [[Some 3; Some 4]]%Q _ eq_refl _ _).
  - simpl; lia.
  - reflexivity.
Defined.

(** ** The selected element is the one of the sorted array *)

Lemma filter_length_perm {A} (f : A -> bool) (l l' : list A) :
  Permutation l l' -> List.length (filter f l) = List.length (filter f l').
Proof.
  induction 1 as [|a l l' _ IH|a b l|l l' l'' _ IH1 _ IH2]; cbn [filter].
  - reflexivity.
  - destruct (f a); cbn [List.length]; congruence.
  - destruct (f a), (f b); reflexivity.
  - congruence.
Qed.

Lemma filter_none {A} (f : A -> bool) (l : list A) :
  (forall y, In y l -> f y = false) -> filter f l = [].
Proof.
  induction l as [|a l IH]; intros H; cbn [filter]; [reflexivity|].
  rewrite (H a) by now left. apply IH. intros y Hy. apply H. now right.
Qed.

Lemma filter_all {A} (f : A -> bool) (l : list A) :
  (forall y, In y l -> f y = true) -> filter f l = l.
Proof.
  intros H. apply forallb_filter_id. now apply forallb_forall.
Qed.

Lemma filter_length_bound {A} (f : A -> bool) (l : list A) :
  (List.length (filter f l) <= List.length l)%nat.
Proof.
  induction l as [|a l IH]; cbn [filter]; [lia|].
  destruct (f a); cbn [List.length]; lia.
Qed.

Lemma In_firstn_get (x : array) (k : nat) (y : Q) :
  In y (firstn k x) -> exists j, 0 <= j < Z.of_nat k /\ get x j = Some y.
Proof.
  intros H. apply In_nth_error in H. destruct H as [j Hj].
  assert (Hlt : (j < k)%nat).
  { assert (j < List.length (firstn k x))%nat by (apply nth_error_Some; congruence).
    rewrite length_firstn in H. lia. }
  rewrite nth_error_firstn in Hj.
  destruct (Nat.ltb_spec j k); [|lia].
  exists (Z.of_nat j). split; [lia|]. unfold get.
  destruct (Z.ltb_spec (Z.of_nat j) 0); [lia|]. now rewrite Nat2Z.id.
Qed.

Lemma In_skipn_get (x : array) (k : nat) (y : Q) :
  In y (skipn k x) -> exists j, Z.of_nat k <= j /\ get x j = Some y.
Proof.
  intros H. apply In_nth_error in H. destruct H as [j Hj].
  rewrite nth_error_skipn in Hj.
  exists (Z.of_nat (k + j)). split; [lia|]. unfold get.
  destruct (Z.ltb_spec (Z.of_nat (k + j)) 0); [lia|]. now rewrite Nat2Z.id.
Qed.

(** Counting the elements that satisfy [f], split at position [k]. *)
Lemma count_split {A} (f : A -> bool) (l : list A) (k : nat) :
  List.length (filter f l)
  = (List.length (filter f (firstn k l)) + List.length (filter f (skipn k l)))%nat.
Proof.
  rewrite <- (firstn_skipn k l) at 1. now rewrite filter_app, length_app.
Qed.

Lemma selected_rank (c s : array) (k : Z) :
  Permutation c s -> ascending s -> 0 <= k < len c ->
  selected c k 0 (len c - 1) ->
  exists v w, get c k = Some v /\ get s k = Some w /\ (v == w)%Q.
Proof.
  intros P Hs Hk (v & Gv & Hle & Hge).
  assert (Ls : len s = len c) by (unfold len; now rewrite (Permutation_length P)).
  destruct (get_in_range s k) as [w Gw]; [lia|].
  exists v, w. split; [exact Gv|]. split; [exact Gw|].
  set (kn := Z.to_nat k).
  assert (Lc : (kn < List.length c)%nat) by (unfold len in Hk; lia).
  assert (Lsn : List.length s = List.length c) by (now rewrite (Permutation_length P)).
  (* w < v is impossible: count the elements below v *)
  assert (Hvw : (v <= w)%Q).
  { destruct (Qlt_le_dec w v) as [Lt|]; [exfalso|assumption].
    set (f := fun y => Qltb y v).
    pose proof (filter_length_perm f c s P) as Ec.
    rewrite (count_split f c kn) in Ec.
    rewrite (filter_none f (skipn kn c)) in Ec.
    2:{ intros y Hy. apply In_skipn_get in Hy. destruct Hy as (j & Hj & Gj).
        unfold f. apply Qltb_false. pose proof (get_range _ _ _ Gj).
        apply (Hge j); [unfold kn in Hj; lia | exact Gj]. }
    pose proof (filter_length_bound f (firstn kn c)).
    rewrite length_firstn in H.
    rewrite (count_split f s (S kn)) in Ec.
    rewrite (filter_all f (firstn (S kn) s)) in Ec.
    2:{ intros y Hy. apply In_firstn_get in Hy. destruct Hy as (j & Hj & Gj).
        unfold f. apply Qltb_true.
        assert (y <= w)%Q
          by (apply (ascending_get s Hs j k); [unfold kn in Hj; lia | exact Gj | exact Gw]).
        lra. }
    rewrite length_firstn in Ec. cbn [List.length] in Ec. lia. }
  (* v < w is impossible: count the elements above v *)
  assert (Hwv : (w <= v)%Q).
  { destruct (Qlt_le_dec v w) as [Lt|]; [exfalso|assumption].
    set (f := fun y => Qltb v y).
    pose proof (filter_length_perm f c s P) as Ec.
    rewrite (count_split f c (S kn)) in Ec.
    rewrite (filter_none f (firstn (S kn) c)) in Ec.
    2:{ intros y Hy. apply In_firstn_get in Hy. destruct Hy as (j & Hj & Gj).
        unfold f. apply Qltb_false.
        apply (Hle j); [unfold kn in Hj; lia | exact Gj]. }
    pose proof (filter_length_bound f (skipn (S kn) c)).
    rewrite length_skipn in H.
    rewrite (count_split f s kn) in Ec.
    rewrite (filter_all f (skipn kn s)) in Ec.
    2:{ intros y Hy. apply In_skipn_get in Hy. destruct Hy as (j & Hj & Gj).
        unfold f. apply Qltb_true.
        assert (w <= y)%Q
          by (apply (ascending_get s Hs k j); [unfold kn in Hj; lia | exact Gw | exact Gj]).
        lra. }
    rewrite length_skipn in Ec. cbn [List.length] in Ec. lia. }
  lra.
Qed.

(** ** quantileSorted reads the array at quantileIndex *)

Lemma quantileSorted_reads (x : array) (p : Q) :
  0 < len x -> (0 <= p)%Q -> (p <= 1)%Q ->
  let qi := quantileIndex (len x) p in
  (is_integer qi = true -> quantileSorted x p = Done (get x (Qfloor qi))) /\
  (is_integer qi = false ->
   quantileSorted x p
   = Done (js_avg (get x (Qfloor qi)) (get x (Qfloor qi + 1)))).
Proof.
  intros Hn H0 H1. cbv zeta. unfold quantileSorted, quantileIndex.
  set (n := len x) in *. set (idx := (inject_Z n * p)%Q).
  assert (Hz : forall z, is_integer (inject_Z z) = true).
  { intros z. apply is_integer_true. now rewrite Qfloor_Z. }
  destruct (Z.eqb_spec n 0); [lia|].
  assert (Hp0 : Qltb p 0 = false) by (apply Qltb_false; lra).
  assert (Hp1 : Qltb 1 p = false) by (apply Qltb_false; lra).
  rewrite Hp0, Hp1; simpl orb; cbv iota.
  destruct (Qeq_bool p 1) eqn:E1.
  { rewrite Hz, Qfloor_Z. split; [reflexivity | discriminate]. }
  destruct (Qeq_bool p 0) eqn:E0.
  { split; [reflexivity | discriminate]. }
  assert (P0 : (0 < p)%Q).
  { destruct (Qeq_dec p 0) as [E|E]; [apply Qeq_bool_iff in E; congruence | lra]. }
  assert (P1 : (p < 1)%Q).
  { destruct (Qeq_dec p 1) as [E|E]; [apply Qeq_bool_iff in E; congruence | lra]. }
  destruct (idx_bounds n p Hn P0 P1) as [I0 I1]. fold idx in I0, I1.
  destruct (is_integer idx) eqn:EI; simpl negb; cbv iota.
  - pose proof EI as EI'. apply is_integer_true in EI'.
    destruct (Z.eqb_spec (n mod 2) 0).
    + assert (Lo : (inject_Z (Qfloor idx - 1) < idx - (1 # 2))%Q).
      { unfold Z.sub. rewrite inject_Z_plus.
        change (inject_Z (- (1))) with (- (1))%Q. lra. }
      assert (Hi : (idx - (1 # 2) < inject_Z (Qfloor idx))%Q) by lra.
      assert (Fl : Qfloor (idx - (1 # 2)) = Qfloor idx - 1).
      { pose proof (Qfloor_lb (idx - (1 # 2)) (Qfloor idx - 1) ltac:(lra)).
        pose proof (Qfloor_ub (idx - (1 # 2)) (Qfloor idx) Hi). lia. }
      assert (Ni : is_integer (idx - (1 # 2)) = false).
      { unfold is_integer. rewrite Fl.
        destruct (Qeq_bool (inject_Z (Qfloor idx - 1)) (idx - (1 # 2))) eqn:E;
          [|reflexivity].
        apply Qeq_bool_iff in E. lra. }
      rewrite Ni, Fl. split; [discriminate|]. intros _.
      replace (Qfloor idx - 1 + 1) with (Qfloor idx) by lia. reflexivity.
    + rewrite EI. split; [reflexivity | discriminate].
  - rewrite Hz, Qfloor_Z. split; [reflexivity | discriminate].
Qed.



(** ** quickselect and quantile against the sorted array *)

Section QuantileCorrect.

Variables Math_log Math_exp Math_sqrt : Q -> Q.
Hypothesis Hfr : fr_range_ok Math_log Math_exp Math_sqrt.

(** X7: for [0 <= left <= k <= right < arr.length] with [right] not 0,
    [quickselect] returns; the array is a permutation of the old one of
    the same length, nothing outside [[left, right]] has moved, no
    element of [[left, k]] exceeds [arr[k]] and no element of
    [[k, right]] is below it. *)
Theorem quickselect_selects (fuel : nat) (arr : array) (k left right : Z) :
  0 <= left -> left <= k <= right -> right < len arr -> right <> 0 ->
  (Z.to_nat (right - left) <= fuel)%nat ->
  exists arr' tv,
    quickselect Math_log Math_exp Math_sqrt fuel arr k left right = Done arr' /\
    Permutation arr' arr /\ len arr' = len arr /\
    (forall x, x < left \/ right < x -> get arr' x = get arr x) /\
    get arr' k = Some tv /\
    (forall x v, left <= x <= k -> get arr' x = Some v -> (v <= tv)%Q) /\
    (forall x v, k <= x <= right -> get arr' x = Some v -> (tv <= v)%Q).
Proof.
  intros H0 Hk Hr Hnz Hf.
  destruct (quickselect_correct Math_log Math_exp Math_sqrt Hfr fuel arr k
              left right H0 Hk Hr Hnz Hf)
    as (arr' & E & P & Fr & (tv & Gt & Hle & Hge)).
  exists arr', tv. split; [exact E|]. split; [exact P|].
  split; [unfold len; now rewrite (Permutation_length P)|].
  repeat split; assumption.
Qed.

(** X8: selecting index [k] in the whole array puts there the element
    that the sorted array has at index [k]. *)
Theorem quickselect_kth (fuel : nat) (arr s : array) (k : Z) :
  0 <= k < len arr -> (Z.to_nat (len arr - 1) <= fuel)%nat ->
  Permutation s arr -> ascending s ->
  exists arr' v w,
    quickselect Math_log Math_exp Math_sqrt fuel arr k 0 (len arr - 1)
    = Done arr' /\
    Permutation arr' arr /\
    get arr' k = Some v /\ get s k = Some w /\ (v == w)%Q.
Proof.
  intros Hk Hf Ps Hs.
  destruct (quickselect_whole Math_log Math_exp Math_sqrt Hfr fuel arr k Hk Hf)
    as (arr' & E & P & S).
  assert (L : len arr' = len arr) by (unfold len; now rewrite (Permutation_length P)).
  destruct (selected_rank arr' s k) as (v & w & Gv & Gw & Evw).
  - rewrite P. now symmetry.
  - exact Hs.
  - lia.
  - now rewrite L.
  - exists arr', v, w. repeat split; assumption.
Qed.

(** What [quantileSelect] leaves at the index (or the two indices) that
    [quantileSorted] will read. *)
Lemma quantileSelect_selects (fuel : nat) (arr : array) (p : Q) :
  0 < len arr -> (0 <= p)%Q -> (p <= 1)%Q ->
  (Z.to_nat (len arr) <= fuel)%nat ->
  let qi := quantileIndex (len arr) p in
  exists arr',
    quantileSelect Math_log Math_exp Math_sqrt fuel arr qi 0 (len arr - 1)
    = Done arr' /\
    Permutation arr' arr /\
    selected arr' (Qfloor qi) 0 (len arr - 1) /\
    (is_integer qi = false -> selected arr' (Qfloor qi + 1) 0 (len arr - 1)).
Proof.
  intros Hn H0 H1 Hf. cbv zeta. unfold quantileSelect.
  destruct (quantileIndex_range (len arr) p Hn H0 H1) as [[E R]|[E R]];
    cbv zeta in E, R; rewrite E.
  - destruct (quickselect_whole Math_log Math_exp Math_sqrt Hfr fuel arr
                (Qfloor (quantileIndex (len arr) p)))
      as (arr' & Ea & P & S); [lia | lia |].
    exists arr'. repeat split; try assumption. discriminate.
  - set (k := Qfloor (quantileIndex (len arr) p)) in *.
    destruct (quickselect_whole Math_log Math_exp Math_sqrt Hfr fuel arr k)
      as (arr1 & E1 & P1 & (t1 & G1 & Le1 & Ge1)); [lia | lia |].
    rewrite E1. cbn [bind].
    assert (L1 : len arr1 = len arr).
    { unfold len. now rewrite (Permutation_length P1). }
    unfold quickselect. destruct (Z.eqb_spec (len arr - 1) 0); [lia|].
    destruct (quickselect_loop_spec Math_log Math_exp Math_sqrt Hfr fuel arr1
                (k + 1) (k + 1) (len arr - 1))
      as (arr2 & E2 & R2 & (t2 & G2 & Le2 & Ge2)); try lia.
    exists arr2. split; [exact E2|].
    split; [rewrite (rearr_perm _ _ _ _ R2); exact P1|].
    assert (Ht : (t1 <= t2)%Q).
    { destruct (rearr_in _ _ _ _ R2 (k + 1)) as (y & Hy & Ey); [lia|].
      rewrite G2 in Ey. apply (Ge1 y); [lia | now symmetry]. }
    split; [|intros _].
    + exists t1. split; [rewrite (rearr_out _ _ _ _ R2) by lia; exact G1|].
      split.
      * intros x v Hx Gx. rewrite (rearr_out _ _ _ _ R2) in Gx by lia.
        apply (Le1 x); [lia | exact Gx].
      * intros x v Hx Gx. destruct (Z.eq_dec x k) as [->|N].
        { rewrite (rearr_out _ _ _ _ R2) in Gx by lia.
          assert (v = t1) by congruence. subst v. lra. }
        { destruct (rearr_in _ _ _ _ R2 x) as (y & Hy & Ey); [lia|].
          rewrite Gx in Ey. apply (Ge1 y); [lia | now symmetry]. }
    + exists t2. split; [exact G2|]. split.
      * intros x v Hx Gx. destruct (Z.eq_dec x (k + 1)) as [->|N].
        { assert (v = t2) by congruence. subst v. lra. }
        { rewrite (rearr_out _ _ _ _ R2) in Gx by lia.
          assert (v <= t1)%Q by (apply (Le1 x); [lia | exact Gx]). lra. }
      * intros x v Hx Gx. apply (Ge2 x); [lia | exact Gx].
Qed.

(** X9: [quantile(x, p)], for a non-empty [x] and [p] in [0, 1], returns
    the number that [quantileSorted] gives on the sorted sample; the
    store gets one new array, a permutation of [x]. *)
Theorem quantile_is_sorted_quantile (fuel : nat) (h : heap) (x : loc)
  (xs s : array) (p : Q) :
  nth_error h x = Some xs -> 0 < len xs -> (0 <= p)%Q -> (p <= 1)%Q ->
  (Z.to_nat (len xs) <= fuel)%nat ->
  Permutation s xs -> ascending s ->
  exists c v w,
    quantile Math_log Math_exp Math_sqrt fuel h x p
    = (h ++ [c], Done (Some v)) /\
    Permutation c xs /\
    quantileSorted s p = Done (Some w) /\ (v == w)%Q.
Proof.
  intros Hx Hn H0 H1 Hf Ps Hs. unfold quantile, deref, alloc, on_heap.
  rewrite Hx. rewrite nth_error_app2, Nat.sub_diag by lia. cbn [nth_error].
  destruct (quantileSelect_selects fuel xs p Hn H0 H1 Hf)
    as (c & E & P & S1 & S2). cbv zeta in E, S1, S2.
  rewrite E, store_alloc.
  rewrite nth_error_app2, Nat.sub_diag by lia. cbn [nth_error].
  assert (Lc : len c = len xs) by (unfold len; now rewrite (Permutation_length P)).
  assert (Ls : len s = len xs) by (unfold len; now rewrite (Permutation_length Ps)).
  assert (Pcs : Permutation c s) by (rewrite P; now symmetry).
  destruct (quantileSorted_reads c p) as [Ci Ch]; try lia; try assumption.
  destruct (quantileSorted_reads s p) as [Si Sh]; try lia; try assumption.
  cbv zeta in Ci, Ch, Si, Sh. rewrite Lc in Ci, Ch. rewrite Ls in Si, Sh.
  set (qi := quantileIndex (len xs) p) in *.
  destruct (quantileIndex_range (len xs) p Hn H0 H1) as [[Eq R]|[Eq R]];
    cbv zeta in Eq, R; fold qi in Eq, R.
  - destruct (selected_rank c s (Qfloor qi) Pcs Hs) as (v & w & Gv & Gw & Evw);
      [lia | now rewrite Lc |].
    exists c, v, w. rewrite (Ci Eq), (Si Eq), Gv, Gw. repeat split; assumption.
  - destruct (selected_rank c s (Qfloor qi) Pcs Hs) as (a & a' & Ga & Ga' & Ea);
      [lia | now rewrite Lc |].
    destruct (selected_rank c s (Qfloor qi + 1) Pcs Hs)
      as (b & b' & Gb & Gb' & Eb); [lia | rewrite Lc; now apply S2 |].
    exists c, ((a + b) / 2)%Q, ((a' + b') / 2)%Q.
    rewrite (Ch Eq), (Sh Eq), Ga, Ga', Gb, Gb'. cbn [js_avg].
    repeat split; try assumption. now rewrite Ea, Eb.
Qed.

End QuantileCorrect.

Lemma quickselect_selects_witness :
  exists arr' tv,
    quickselect log0 exp4 sqrt0 5 [3; 1; 2]%Q 1 0 2 = Done arr' /\
    Permutation arr' [3; 1; 2]%Q /\ len arr' = len [3; 1; 2]%Q /\
    (forall x, x < 0 \/ 2 < x -> get arr' x = get [3; 1; 2]%Q x) /\
    get arr' 1 = Some tv /\
    (forall x v, 0 <= x <= 1 -> get arr' x = Some v -> (v <= tv)%Q) /\
    (forall x v, 1 <= x <= 2 -> get arr' x = Some v -> (tv <= v)%Q).
Proof.
  apply (quickselect_selects log0 exp4 sqrt0 fr_range_ok_instance 5
           [3; 1; 2]%Q 1 0 2); simpl; unfold len; simpl; lia.
Defined.

Lemma perm_312 : Permutation [1; 2; 3]%Q [3; 1; 2]%Q.
Proof.
  eapply perm_trans; [apply perm_skip, perm_swap | apply perm_swap].
Qed.

Lemma asc_123 : ascending [1; 2; 3]%Q.
Proof. repeat constructor; unfold Qle; simpl; lia. Qed.

Lemma quickselect_kth_witness :
  exists arr' v w,
    quickselect log0 exp4 sqrt0 5 [3; 1; 2]%Q 1 0 (len [3; 1; 2]%Q - 1)
    = Done arr' /\
    Permutation arr' [3; 1; 2]%Q /\
    get arr' 1 = Some v /\ get [1; 2; 3]%Q 1 = Some w /\ (v == w)%Q.
Proof.
  apply (quickselect_kth log0 exp4 sqrt0 fr_range_ok_instance 5
           [3; 1; 2]%Q [1; 2; 3]%Q 1).
  - unfold len; simpl; lia.
  - unfold len; simpl; lia.
  - exact perm_312.
  - exact asc_123.
Defined.

Lemma quantile_is_sorted_quantile_witness :
  exists c v w,
    quantile log0 exp4 sqrt0 5 [[3; 1; 2]%Q] 0%nat (1 # 2)
    = ([[3; 1; 2]%Q] ++ [c], Done (Some v)) /\
    Permutation c [3; 1; 2]%Q /\
    quantileSorted [1; 2; 3]%Q (1 # 2) = Done (Some w) /\ (v == w)%Q.
Proof.
  apply (quantile_is_sorted_quantile log0 exp4 sqrt0 fr_range_ok_instance 5
           [[3; 1; 2]%Q] 0%nat [3; 1; 2]%Q [1; 2; 3]%Q (1 # 2)).
  - reflexivity.
  - unfold len; simpl; lia.
  - unfold Qle; simpl; lia.
  - unfold Qle; simpl; lia.
  - unfold len; simpl; lia.
  - exact perm_312.
  - exact asc_123.
Defined.

(** ** quantileArray returns one number per requested quantile *)










Section QuantileArrayReturns.

Variables Math_log Math_exp Math_sqrt : Q -> Q.
Hypothesis Hfr : fr_range_ok Math_log Math_exp Math_sqrt.





End QuantileArrayReturns.







(** * Further properties of the grapher *)

(** ** equalPoints and equalLinks *)

Lemma equalPoints_true (a b : point) :
  equalPoints a b = true <-> (fst a == fst b)%Q /\ (snd a == snd b)%Q.
Proof.
  unfold equalPoints. rewrite andb_true_iff, !Qeq_bool_iff. reflexivity.
Qed.

Lemma equalPoints_refl (a : point) : equalPoints a a = true.
Proof. apply equalPoints_true. split; reflexivity. Qed.

Lemma equalPoints_sym (a b : point) : equalPoints a b = equalPoints b a.
Proof.
  destruct (equalPoints a b) eqn:E; symmetry.
  - apply equalPoints_true in E. apply equalPoints_true.
    destruct E; split; now symmetry.
  - destruct (equalPoints b a) eqn:E'; [|reflexivity].
    apply equalPoints_true in E'.
    assert (equalPoints a b = true)
      by (apply equalPoints_true; destruct E'; split; now symmetry).
    congruence.
Qed.

Lemma equalPoints_trans (a b c : point) :
  equalPoints a b = true -> equalPoints b c = true -> equalPoints a c = true.
Proof.
  rewrite !equalPoints_true. intros [H1 H2] [H3 H4].
  split; etransitivity; eassumption.
Qed.

(** Two points that are equal to a third are equal or not together. *)
Lemma equalPoints_congr (a b c : point) :
  equalPoints a b = true -> equalPoints a c = equalPoints b c.
Proof.
  intros H. destruct (equalPoints b c) eqn:E.
  - eapply equalPoints_trans; eassumption.
  - destruct (equalPoints a c) eqn:E'; [|reflexivity].
    rewrite equalPoints_sym in H.
    rewrite (equalPoints_trans _ _ _ H E') in E. discriminate.
Qed.

Lemma equalLinks_sym_trans :
  (forall a b w w', equalLinks (makeLink a b w) (makeLink b a w') = true) /\
  (forall l, equalLinks l l = true) /\
  (forall l1 l2, equalLinks l1 l2 = equalLinks l2 l1) /\
  (forall l1 l2 l3, equalLinks l1 l2 = true -> equalLinks l2 l3 = true ->
                    equalLinks l1 l3 = true).
Proof.
  split; [|split; [|split]].
  - intros a b w w'. unfold equalLinks. cbn [source target].
    rewrite !equalPoints_refl. cbn. apply orb_true_r.
  - intros l. unfold equalLinks. now rewrite !equalPoints_refl.
  - intros l1 l2. unfold equalLinks.
    rewrite (equalPoints_sym (source l1) (source l2)),
            (equalPoints_sym (target l1) (target l2)),
            (equalPoints_sym (source l1) (target l2)),
            (equalPoints_sym (target l1) (source l2)).
    destruct (equalPoints (source l2) (source l1)),
             (equalPoints (target l2) (target l1)),
             (equalPoints (target l2) (source l1)),
             (equalPoints (source l2) (target l1)); reflexivity.
  - intros l1 l2 l3. unfold equalLinks.
    rewrite !orb_true_iff, !andb_true_iff.
    intros [[A B]|[A B]] [[C D]|[C D]];
      [left | right | right | left]; split;
      eapply equalPoints_trans; eassumption.
Qed.

(** X11: [equalLinks] does not see the direction of a link, and it is
    reflexive, symmetric and transitive. *)
Theorem equalLinks_equivalence (l1 l2 l3 : link) :
  equalLinks l1 (makeLink (target l1) (source l1) (weight l2)) = true /\
  equalLinks l1 l1 = true /\
  equalLinks l1 l2 = equalLinks l2 l1 /\
  (equalLinks l1 l2 = true -> equalLinks l2 l3 = true ->
   equalLinks l1 l3 = true).
Proof.
  destruct equalLinks_sym_trans as (Hrev & Hrefl & Hsym & Htrans).
  split; [|split; [exact (Hrefl l1)|split; [exact (Hsym l1 l2)|]]].
  - destruct l1 as [a b w]. apply Hrev.
  - apply Htrans.
Qed.

(** ** createGraph *)

Definition corners (t : triangle) : list point :=
  [corner t 0; corner t 1; corner t 2].

Definition sides (t : triangle) : list (point * point) :=
  [(corner t 0, corner t 1); (corner t 1, corner t 2); (corner t 2, corner t 0)].

Definition no_node_twice (ns : list node) : Prop :=
  ForallOrdPairs (fun a b => equalPoints (id a) (id b) = false) ns.

Definition no_link_twice (ls : list link) : Prop :=
  ForallOrdPairs (fun a b => equalLinks a b = false) ls.

Lemma FOP_snoc {A} (R : A -> A -> Prop) (l : list A) (x : A) :
  ForallOrdPairs R l -> Forall (fun a => R a x) l ->
  ForallOrdPairs R (l ++ [x]).
Proof.
  induction 1 as [|a l Ha Hl IH]; intros Hx; cbn [app].
  - constructor; constructor.
  - apply Forall_cons_iff in Hx. destruct Hx as [Hax Hx].
    constructor; [|now apply IH].
    apply Forall_app. split; [exact Ha | now constructor].
Qed.

Lemma existsb_false_Forall {A} (f : A -> bool) (l : list A) :
  existsb f l = false -> Forall (fun a => f a = false) l.
Proof.
  induction l as [|a l IH]; cbn [existsb]; intros H; constructor;
    apply orb_false_iff in H; [apply H | apply IH, H].
Qed.

Section CreateGraph.

Variable Math_sqrt : Q -> Q.

Lemma nodes_flat (ts : list triangle) : forall init,
  fold_left (fun ns t =>
               fold_left (fun ns i => add_node ns (corner t i)) [0; 1; 2] ns)
            ts init
  = fold_left add_node (flat_map corners ts) init.
Proof.
  induction ts as [|t ts IH]; intros init; [reflexivity|].
  cbn [fold_left flat_map corners app]. apply IH.
Qed.

Definition add_side (ls : list link) (s : point * point) : list link :=
  add_link Math_sqrt ls (fst s) (snd s).

Lemma links_flat (ts : list triangle) : forall init,
  fold_left (fun ls t =>
               fold_left (fun ls i =>
                            add_link Math_sqrt ls (corner t i)
                              (corner t ((i + 1) mod 3)))
                         [0; 1; 2] ls)
            ts init
  = fold_left add_side (flat_map sides ts) init.
Proof.
  induction ts as [|t ts IH]; intros init; [reflexivity|].
  cbn [fold_left flat_map sides app]. apply IH.
Qed.

Lemma add_node_keeps (ns : list node) (p : point) :
  no_node_twice ns -> no_node_twice (add_node ns p).
Proof.
  intros H. unfold add_node. destruct (idExists ns p) eqn:E; [exact H|].
  apply FOP_snoc; [exact H|].
  apply existsb_false_Forall in E. exact E.
Qed.

Lemma add_side_keeps (ls : list link) (s : point * point) :
  no_link_twice ls -> no_link_twice (add_side ls s).
Proof.
  intros H. unfold add_side, add_link.
  destruct (linkExists ls _) eqn:E; [exact H|].
  apply FOP_snoc; [exact H|].
  apply existsb_false_Forall in E.
  eapply Forall_impl; [|exact E]. cbv beta. intros l Hl.
  now rewrite (proj1 (proj2 (proj2 equalLinks_sym_trans)) l _).
Qed.

End CreateGraph.

Section CreateGraphInvariants.

Variable Math_sqrt : Q -> Q.

Definition link_of (s : point * point) : link :=
  makeLink (fst s) (snd s) (distance Math_sqrt (fst s) (snd s)).

Lemma idExists_app (ns ms : list node) (p : point) :
  idExists (ns ++ ms) p = idExists ns p || idExists ms p.
Proof. unfold idExists. apply existsb_app. Qed.

Lemma idExists_add_node (ns : list node) (q p : point) :
  idExists (add_node ns q) p = true <->
  idExists ns p = true \/ (idExists ns q = false /\ equalPoints q p = true).
Proof.
  unfold add_node. destruct (idExists ns q) eqn:E.
  - split; [now left | intros [H|[H _]]; [exact H | discriminate]].
  - rewrite idExists_app. cbn [idExists existsb id]. rewrite orb_false_r.
    rewrite orb_true_iff. split; intros [H|H]; auto. destruct H; auto.
Qed.

Lemma nodes_fold_keeps (ps : list point) : forall init,
  no_node_twice init -> no_node_twice (fold_left add_node ps init).
Proof.
  induction ps as [|p ps IH]; intros init H; cbn [fold_left]; [exact H|].
  apply IH. now apply add_node_keeps.
Qed.

Lemma nodes_fold_exists (ps : list point) : forall init p,
  In p ps \/ idExists init p = true ->
  idExists (fold_left add_node ps init) p = true.
Proof.
  induction ps as [|q ps IH]; intros init p H; cbn [fold_left].
  - destruct H as [[]|H]; exact H.
  - apply IH. destruct H as [[->|H]|H]; [right | now left | right].
    + apply idExists_add_node. destruct (idExists init p) eqn:E; [now left|].
      right. split; [reflexivity | apply equalPoints_refl].
    + apply idExists_add_node. now left.
Qed.

Lemma nodes_fold_origin (ps : list point) : forall init n,
  In n (fold_left add_node ps init) -> In n init \/ In (id n) ps.
Proof.
  induction ps as [|q ps IH]; intros init n H; cbn [fold_left] in H.
  - now left.
  - apply IH in H. destruct H as [H|H]; [|right; now right].
    unfold add_node in H. destruct (idExists init q); [now left|].
    apply in_app_or in H. destruct H as [H|[<-|[]]]; [now left|].
    right. now left.
Qed.

Lemma linkExists_add_side (ls : list link) (s : point * point) (l : link) :
  linkExists ls l = true -> linkExists (add_side Math_sqrt ls s) l = true.
Proof.
  intros H. unfold add_side, add_link.
  match goal with
  | |- linkExists (if ?c then _ else _) _ = _ => destruct c
  end; [exact H|].
  unfold linkExists in *. rewrite existsb_app, H. reflexivity.
Qed.

Lemma linkExists_add_side_self (ls : list link) (s : point * point) :
  linkExists (add_side Math_sqrt ls s) (link_of s) = true.
Proof.
  unfold add_side, add_link. fold (link_of s).
  destruct (linkExists ls (link_of s)) eqn:E; [exact E|].
  unfold linkExists. rewrite existsb_app. cbn [existsb].
  rewrite (proj1 (proj2 equalLinks_sym_trans)). now rewrite orb_true_r.
Qed.

Lemma links_fold_keeps (ss : list (point * point)) : forall init,
  no_link_twice init -> no_link_twice (fold_left (add_side Math_sqrt) ss init).
Proof.
  induction ss as [|s ss IH]; intros init H; cbn [fold_left]; [exact H|].
  apply IH. now apply add_side_keeps.
Qed.

Lemma links_fold_exists (ss : list (point * point)) : forall init s,
  In s ss \/ linkExists init (link_of s) = true ->
  linkExists (fold_left (add_side Math_sqrt) ss init) (link_of s) = true.
Proof.
  induction ss as [|q ss IH]; intros init s H; cbn [fold_left].
  - destruct H as [[]|H]; exact H.
  - apply IH. destruct H as [[->|H]|H];
      [right; apply linkExists_add_side_self | now left
      |right; now apply linkExists_add_side].
Qed.

Lemma links_fold_origin (ss : list (point * point)) : forall init l,
  In l (fold_left (add_side Math_sqrt) ss init) ->
  In l init \/ exists s, In s ss /\ l = link_of s.
Proof.
  induction ss as [|q ss IH]; intros init l H; cbn [fold_left] in H.
  - now left.
  - apply IH in H. destruct H as [H|(s & Hs & ->)].
    + unfold add_side, add_link in H. fold (link_of q) in H.
      destruct (linkExists init (link_of q)); [now left|].
      apply in_app_or in H. destruct H as [H|[<-|[]]]; [now left|].
      right. exists q. split; [now left | reflexivity].
    + right. exists s. split; [now right | reflexivity].
Qed.

(** X12: [createGraph] stores no node twice (no two nodes have equal
    points) and no link twice (no two links are equal, in either
    direction). *)
Theorem createGraph_no_duplicates (triangles : list triangle) :
  no_node_twice (nodes (createGraph Math_sqrt triangles)) /\
  no_link_twice (links (createGraph Math_sqrt triangles)).
Proof.
  unfold createGraph. cbn [nodes links]. rewrite nodes_flat, links_flat.
  split.
  - apply nodes_fold_keeps. constructor.
  - apply links_fold_keeps. constructor.
Qed.

(** X13: the nodes of [createGraph] are the corners of the triangles
    (every corner has a node, every node is a corner); the links are
    their sides (every side has a link in one of the two directions,
    every link is a side, weighted by the distance of its ends), and
    both ends of every link are nodes of the graph. *)
Theorem createGraph_covers (triangles : list triangle) :
  let g := createGraph Math_sqrt triangles in
  (forall t c, In t triangles -> In c (corners t) ->
     idExists (nodes g) c = true) /\
  (forall n, In n (nodes g) ->
     exists t, In t triangles /\ In (id n) (corners t)) /\
  (forall t s, In t triangles -> In s (sides t) ->
     linkExists (links g) (link_of s) = true) /\
  (forall l, In l (links g) ->
     (exists t, In t triangles /\ In (source l, target l) (sides t)) /\
     weight l = distance Math_sqrt (source l) (target l) /\
     idExists (nodes g) (source l) = true /\
     idExists (nodes g) (target l) = true).
Proof.
  cbv zeta. unfold createGraph. cbn [nodes links].
  rewrite nodes_flat, links_flat.
  assert (Hc : forall t c, In t triangles -> In c (corners t) ->
             idExists (fold_left add_node (flat_map corners triangles) []) c
             = true).
  { intros t c Ht Hc. apply nodes_fold_exists. left.
    apply in_flat_map. eauto. }
  split; [exact Hc|]. split; [|split].
  - intros n Hn. apply nodes_fold_origin in Hn. destruct Hn as [[]|Hn].
    apply in_flat_map in Hn. exact Hn.
  - intros t s Ht Hs. apply links_fold_exists. left.
    apply in_flat_map. eauto.
  - intros l Hl. apply links_fold_origin in Hl.
    destruct Hl as [[]|(s & Hs & ->)].
    apply in_flat_map in Hs. destruct Hs as (t & Ht & Hs).
    cbn [link_of source target weight].
    split; [exists t; split; [exact Ht|]; now destruct s|].
    split; [reflexivity|].
    unfold sides in Hs.
    split; apply (Hc t); try exact Ht; unfold corners;
      destruct Hs as [<-|[<-|[<-|[]]]]; cbn [fst snd In]; auto.
Qed.

End CreateGraphInvariants.

(** ** pairNodeLinks and the vertices by degree *)

(** The links stored under the key written like [k]. *)
Fixpoint links_of (nested : list (point * list link)) (k : point) : list link :=
  match nested with
  | [] => []
  | (k0, ls) :: r => if equalPoints k0 k then ls else links_of r k
  end.

(** The link ends at [k], in the order of the links: a link from [k] to
    [k] counts twice. *)
Definition incidences (k : point) (links : list link) : list link :=
  flat_map (fun l => (if equalPoints (source l) k then [l] else [])
                     ++ (if equalPoints (target l) k then [l] else []))
           links.

Definition keys_distinct (nested : list (point * list link)) : Prop :=
  ForallOrdPairs (fun a b => equalPoints a b = false) (map fst nested).

Definition total_ends (nested : list (point * list link)) : nat :=
  list_sum (map (fun e => List.length (snd e)) nested).

Lemma nest_push_lookup (nested : list (point * list link)) (key k : point)
  (l : link) :
  links_of (nest_push nested key l) k
  = links_of nested k ++ (if equalPoints key k then [l] else []).
Proof.
  induction nested as [|[k0 ls] r IH]; cbn [nest_push links_of].
  - destruct (equalPoints key k); reflexivity.
  - destruct (equalPoints k0 key) eqn:E; cbn [links_of].
    + rewrite <- (equalPoints_congr k0 key k E).
      destruct (equalPoints k0 k); [reflexivity | now rewrite app_nil_r].
    + destruct (equalPoints k0 k) eqn:E'; [|exact IH].
      destruct (equalPoints key k) eqn:E''; [|now rewrite app_nil_r].
      rewrite (equalPoints_sym key k) in E''.
      rewrite (equalPoints_trans _ _ _ E' E'') in E. discriminate.
Qed.

Lemma nest_push_keys (nested : list (point * list link)) (key : point)
  (l : link) :
  map fst (nest_push nested key l)
  = if existsb (fun k0 => equalPoints k0 key) (map fst nested)
    then map fst nested else map fst nested ++ [key].
Proof.
  induction nested as [|[k0 ls] r IH]; cbn [nest_push map existsb fst];
    [reflexivity|].
  destruct (equalPoints k0 key); cbn [map fst orb]; [reflexivity|].
  rewrite IH. destruct (existsb _ _); reflexivity.
Qed.

Lemma nest_push_distinct (nested : list (point * list link)) (key : point)
  (l : link) :
  keys_distinct nested -> keys_distinct (nest_push nested key l).
Proof.
  unfold keys_distinct. intros H. rewrite nest_push_keys.
  destruct (existsb _ _) eqn:E; [exact H|].
  apply FOP_snoc; [exact H|]. now apply existsb_false_Forall in E.
Qed.

Lemma nest_push_total (nested : list (point * list link)) (key : point)
  (l : link) :
  total_ends (nest_push nested key l) = S (total_ends nested).
Proof.
  unfold total_ends.
  induction nested as [|[k0 ls] r IH]; cbn [nest_push map list_sum snd];
    [reflexivity|].
  destruct (equalPoints k0 key); cbn [map list_sum snd].
  - rewrite length_app. cbn [List.length].
    change (list_sum (?a :: ?b)) with (a + list_sum b)%nat. lia.
  - change (list_sum (?a :: ?b)) with (a + list_sum b)%nat. rewrite IH. lia.
Qed.

Lemma nest_push_nonempty (nested : list (point * list link)) (key : point)
  (l : link) :
  Forall (fun e => snd e <> []) nested ->
  Forall (fun e => snd e <> []) (nest_push nested key l).
Proof.
  induction 1 as [|[k0 ls] r H0 H IH]; cbn [nest_push].
  - constructor; [discriminate | constructor].
  - destruct (equalPoints k0 key); constructor; cbn [snd] in *; auto.
    destruct ls; discriminate.
Qed.

Lemma links_of_entry (nested : list (point * list link)) (k : point)
  (ls : list link) :
  keys_distinct nested -> In (k, ls) nested -> links_of nested k = ls.
Proof.
  unfold keys_distinct.
  induction nested as [|[k0 ls0] r IH]; cbn [map fst]; intros H Hin;
    [destruct Hin|].
  inversion H as [|? ? Hk Hr]; subst. cbn [links_of].
  destruct Hin as [[= -> ->]|Hin].
  - now rewrite equalPoints_refl.
  - rewrite Forall_forall in Hk.
    rewrite (Hk k) by (apply in_map_iff; exists (k, ls); auto).
    now apply IH.
Qed.

Lemma links_of_found (nested : list (point * list link)) (k : point) :
  links_of nested k <> [] ->
  exists k0, In (k0, links_of nested k) nested /\ equalPoints k0 k = true.
Proof.
  induction nested as [|[k0 ls] r IH]; cbn [links_of]; [congruence|].
  destruct (equalPoints k0 k) eqn:E.
  - intros _. exists k0. split; [now left | exact E].
  - intros H. destruct (IH H) as (k1 & Hin & E1).
    exists k1. split; [now right | exact E1].
Qed.

Lemma incidences_congr (k k' : point) (links : list link) :
  equalPoints k k' = true -> incidences k links = incidences k' links.
Proof.
  intros E. unfold incidences. apply flat_map_ext. intros l.
  rewrite (equalPoints_sym (source l) k), (equalPoints_sym (target l) k),
          (equalPoints_congr k k' (source l) E),
          (equalPoints_congr k k' (target l) E),
          (equalPoints_sym k' (source l)), (equalPoints_sym k' (target l)).
  reflexivity.
Qed.

Lemma pairNodeLinks_fold (links : list link) : forall init,
  let nested :=
    fold_left (fun nested l =>
                 nest_push (nest_push nested (source l) l) (target l) l)
              links init in
  (keys_distinct init -> keys_distinct nested) /\
  (Forall (fun e => snd e <> []) init -> Forall (fun e => snd e <> []) nested) /\
  total_ends nested = (total_ends init + 2 * List.length links)%nat /\
  (forall k, links_of nested k = links_of init k ++ incidences k links).
Proof.
  induction links as [|l links IH]; intros init; cbv zeta; cbn [fold_left].
  - repeat split; auto. intros k. cbn. now rewrite app_nil_r.
  - destruct (IH (nest_push (nest_push init (source l) l) (target l) l))
      as (Hd & Hn & Ht & Hl). cbv zeta in *.
    split; [intros H; apply Hd; now do 2 apply nest_push_distinct|].
    split; [intros H; apply Hn; now do 2 apply nest_push_nonempty|].
    split.
    + rewrite Ht, !nest_push_total. cbn [List.length]. lia.
    + intros k. rewrite Hl, !nest_push_lookup.
      cbn [incidences flat_map]. now rewrite <- !app_assoc.
Qed.

(** X14: [pairNodeLinks] lists, once per distinct point, the link ends
    at that point in the order of the links: no two keys are equal, no
    list is empty, every end of every link has its key, and the lists
    hold twice as many entries as there are links. *)
Theorem pairNodeLinks_incidences (links : list link) :
  let nested := pairNodeLinks links in
  keys_distinct nested /\
  (forall k ls, In (k, ls) nested -> ls = incidences k links /\ ls <> []) /\
  (forall l, In l links ->
     (exists k, In (k, incidences (source l) links) nested /\
                equalPoints k (source l) = true) /\
     (exists k, In (k, incidences (target l) links) nested /\
                equalPoints k (target l) = true)) /\
  total_ends nested = (2 * List.length links)%nat.
Proof.
  cbv zeta. unfold pairNodeLinks.
  destruct (pairNodeLinks_fold links []) as (Hd & Hn & Ht & Hl).
  cbv zeta in *. specialize (Hd ltac:(constructor)).
  specialize (Hn ltac:(constructor)). cbn [links_of app] in Hl.
  split; [exact Hd|]. split; [|split; [|exact Ht]].
  - intros k ls Hin. split.
    + rewrite <- Hl. symmetry. now apply links_of_entry.
    + rewrite Forall_forall in Hn. apply (Hn (k, ls) Hin).
  - intros l Hin.
    assert (Hs : incidences (source l) links <> []).
    { unfold incidences. intros E.
      assert (X : In l []); [|destruct X].
      rewrite <- E. apply in_flat_map. exists l. split; [exact Hin|].
      rewrite equalPoints_refl. now left. }
    assert (Htg : incidences (target l) links <> []).
    { unfold incidences. intros E.
      assert (X : In l []); [|destruct X].
      rewrite <- E. apply in_flat_map. exists l. split; [exact Hin|].
      apply in_or_app. right. rewrite equalPoints_refl. now left. }
    rewrite <- !Hl in *. split; now apply links_of_found.
Qed.

Lemma pairNodeLinks_lookup (links : list link) (k : point) :
  links_of (pairNodeLinks links) k = incidences k links.
Proof.
  unfold pairNodeLinks.
  destruct (pairNodeLinks_fold links []) as (_ & _ & _ & Hl). apply Hl.
Qed.

Lemma pairNodeLinks_entry (links : list link) (k : point) (ls : list link) :
  In (k, ls) (pairNodeLinks links) -> ls = incidences k links.
Proof.
  intros Hin. rewrite <- pairNodeLinks_lookup. symmetry.
  apply links_of_entry; [|exact Hin].
  unfold pairNodeLinks.
  destruct (pairNodeLinks_fold links []) as (Hd & _). apply Hd. constructor.
Qed.

Lemma pairNodeLinks_key (links : list link) (e : point) :
  incidences e links <> [] ->
  exists k, In (k, incidences e links) (pairNodeLinks links) /\
            equalPoints k e = true.
Proof.
  rewrite <- pairNodeLinks_lookup. apply links_of_found.
Qed.

(** The number of link ends at a point. *)
Definition degree (p : point) (links : list link) : nat :=
  List.length (incidences p links).

Lemma by_degree_sound (test : nat -> bool) (links : list link) (p : point) :
  In p (map fst (filter (fun e => test (List.length (snd e)))
                        (pairNodeLinks links))) ->
  test (degree p links) = true.
Proof.
  intros H. apply in_map_iff in H. destruct H as ([k ls] & <- & H).
  apply filter_In in H. destruct H as (Hin & Ht). cbn [fst snd] in *.
  now rewrite (pairNodeLinks_entry _ _ _ Hin) in Ht.
Qed.

Lemma by_degree_complete (test : nat -> bool) (links : list link) (e : point) :
  (0 < degree e links)%nat -> test (degree e links) = true ->
  exists p, In p (map fst (filter (fun e => test (List.length (snd e)))
                                  (pairNodeLinks links))) /\
            equalPoints p e = true.
Proof.
  intros Hpos Ht.
  destruct (pairNodeLinks_key links e) as (k & Hin & E).
  { intros X. unfold degree in Hpos. rewrite X in Hpos. cbn in Hpos. lia. }
  exists k. split; [|exact E].
  apply in_map_iff. exists (k, incidences e links). split; [reflexivity|].
  apply filter_In. split; [exact Hin | exact Ht].
Qed.

(** X15: the vertices of a tree by degree.  [getAllV1sFromTree] returns
    points with exactly one link end and [getAllV2OrGreaterFromTree]
    points with two or more, each finds every such point (up to its
    written form), and a corner of [getAllV2CornersFromTree] is a point
    of degree two followed by exactly two other points. *)
Theorem vertices_by_degree (tree : graph) :
  (forall p, In p (getAllV1sFromTree tree) -> degree p (links tree) = 1%nat) /\
  (forall p, In p (getAllV2OrGreaterFromTree tree) ->
     (2 <= degree p (links tree))%nat) /\
  (forall e, degree e (links tree) = 1%nat ->
     exists p, In p (getAllV1sFromTree tree) /\ equalPoints p e = true) /\
  (forall e, (2 <= degree e (links tree))%nat ->
     exists p, In p (getAllV2OrGreaterFromTree tree) /\
               equalPoints p e = true) /\
  (forall c, In c (getAllV2CornersFromTree tree) ->
     exists v a b, c = [v; a; b] /\ degree v (links tree) = 2%nat).
Proof.
  unfold getAllV1sFromTree, getAllV2OrGreaterFromTree.
  split; [|split; [|split; [|split]]].
  - intros p H.
    apply (by_degree_sound (fun n => Nat.eqb n 1)) in H.
    now apply Nat.eqb_eq in H.
  - intros p H.
    apply (by_degree_sound (fun n => Nat.leb 2 n)) in H.
    now apply Nat.leb_le in H.
  - intros e H.
    apply (by_degree_complete (fun n => Nat.eqb n 1)); [lia|].
    now apply Nat.eqb_eq.
  - intros e H.
    apply (by_degree_complete (fun n => Nat.leb 2 n)); [lia|].
    now apply Nat.leb_le.
  - intros c H. unfold getAllV2CornersFromTree in H.
    apply in_map_iff in H. destruct H as ([k ls] & <- & H).
    apply filter_In in H. destruct H as (Hin & Ht). cbn [fst snd] in *.
    apply Nat.eqb_eq in Ht.
    pose proof (pairNodeLinks_entry _ _ _ Hin) as E.
    destruct ls as [|l1 [|l2 [|? ?]]]; try discriminate.
    cbn [map]. eexists _, _, _. split; [reflexivity|].
    unfold degree. now rewrite <- E.
Qed.


(** ** processCells: cells gathered into hulls *)

Definition member (v : Z) (hulls : list hull) : Prop :=
  exists h, In h hulls /\ In v h.

(** Both ends of the cell lie in one hull. *)
Definition joined (c : cell) (hulls : list hull) : Prop :=
  exists h, In h hulls /\ In (fst c) h /\ In (snd c) h.

(** Every hull survives, possibly with more members. *)
Definition grows (hulls hulls' : list hull) : Prop :=
  forall h, In h hulls -> exists h', In h' hulls' /\ incl h h'.

Definition endpoint (v : Z) (cells : list cell) : Prop :=
  exists c, In c cells /\ (v = fst c \/ v = snd c).

Lemma has_In (h : hull) (v : Z) : has h v = true <-> In v h.
Proof.
  unfold has. rewrite existsb_exists. split.
  - intros (x & Hin & E). apply Z.eqb_eq in E. now subst.
  - intros Hin. exists v. split; [exact Hin | apply Z.eqb_refl].
Qed.

Lemma add_incl (h : hull) (v : Z) : incl h (add h v).
Proof.
  unfold add. destruct (has h v); [apply incl_refl | now apply incl_appl].
Qed.

Lemma add_In (h : hull) (v : Z) : In v (add h v).
Proof.
  unfold add. destruct (has h v) eqn:E; [now apply has_In|].
  apply in_or_app. right. now left.
Qed.

Lemma add_origin (h : hull) (v x : Z) : In x (add h v) -> In x h \/ x = v.
Proof.
  unfold add. destruct (has h v); [now left|].
  intros H. apply in_app_or in H. destruct H as [H|[H|[]]]; auto.
Qed.

Lemma grows_refl (hulls : list hull) : grows hulls hulls.
Proof. intros h H. exists h. split; [exact H | apply incl_refl]. Qed.

Lemma grows_trans (h1 h2 h3 : list hull) :
  grows h1 h2 -> grows h2 h3 -> grows h1 h3.
Proof.
  intros H12 H23 h H. destruct (H12 h H) as (h' & H' & I).
  destruct (H23 h' H') as (h'' & H'' & I').
  exists h''. split; [exact H'' | eapply incl_tran; eauto].
Qed.

Lemma grows_joined (c : cell) (h1 h2 : list hull) :
  grows h1 h2 -> joined c h1 -> joined c h2.
Proof.
  intros G (h & H & Hf & Hs). destruct (G h H) as (h' & H' & I).
  exists h'. auto.
Qed.

Lemma grows_member (v : Z) (h1 h2 : list hull) :
  grows h1 h2 -> member v h1 -> member v h2.
Proof.
  intros G (h & H & Hv). destruct (G h H) as (h' & H' & I).
  exists h'. auto.
Qed.

Lemma putCellToHulls_Some (c : cell) (hulls hulls' : list hull) :
  putCellToHulls c hulls = Some hulls' ->
  List.length hulls' = List.length hulls /\
  grows hulls hulls' /\ joined c hulls' /\
  (forall v, member v hulls' -> member v hulls \/ v = fst c \/ v = snd c).
Proof.
  revert hulls'. induction hulls as [|h r IH]; cbn [putCellToHulls];
    intros hulls' E; [discriminate|].
  destruct (has h (fst c)) eqn:E1; [|destruct (has h (snd c)) eqn:E2].
  - injection E as <-. apply has_In in E1.
    split; [reflexivity|]. split; [|split].
    + intros x [<-|Hx].
      * exists (add h (snd c)). split; [now left | apply add_incl].
      * exists x. split; [now right | apply incl_refl].
    + exists (add h (snd c)). split; [now left|].
      split; [now apply add_incl | apply add_In].
    + intros v (x & [<-|Hx] & Hv).
      * apply add_origin in Hv. destruct Hv as [Hv| ->]; [left|auto].
        exists h. split; [now left | exact Hv].
      * left. exists x. split; [now right | exact Hv].
  - injection E as <-. apply has_In in E2.
    split; [reflexivity|]. split; [|split].
    + intros x [<-|Hx].
      * exists (add h (fst c)). split; [now left | apply add_incl].
      * exists x. split; [now right | apply incl_refl].
    + exists (add h (fst c)). split; [now left|].
      split; [apply add_In | now apply add_incl].
    + intros v (x & [<-|Hx] & Hv).
      * apply add_origin in Hv. destruct Hv as [Hv| ->]; [left|auto].
        exists h. split; [now left | exact Hv].
      * left. exists x. split; [now right | exact Hv].
  - destruct (putCellToHulls c r) as [r'|] eqn:Er; [|discriminate].
    injection E as <-. destruct (IH r' eq_refl) as (Hlen & G & J & O).
    split; [cbn [List.length]; now rewrite Hlen|]. split; [|split].
    + intros x [<-|Hx].
      * exists h. split; [now left | apply incl_refl].
      * destruct (G x Hx) as (x' & Hx' & I). exists x'. split; [now right|auto].
    + destruct J as (x & Hx & Hf & Hs). exists x. split; [now right|auto].
    + intros v (x & [<-|Hx] & Hv).
      * left. exists h. split; [now left | exact Hv].
      * destruct (O v (ex_intro _ x (conj Hx Hv))) as [(y & Hy & Hvy)|Hv'];
          [left|now right].
        exists y. split; [now right | exact Hvy].
Qed.

Lemma put_cells_spec (cells : list cell) : forall hulls hulls' kept,
  put_cells cells hulls = (hulls', kept) ->
  List.length hulls' = List.length hulls /\
  grows hulls hulls' /\
  (List.length kept <= List.length cells)%nat /\
  (List.length kept = List.length cells -> hulls' = hulls /\ kept = cells) /\
  (forall c, In c kept -> In c cells) /\
  (forall c, In c cells -> In c kept \/ joined c hulls') /\
  (forall v, member v hulls' -> member v hulls \/ endpoint v cells).
Proof.
  induction cells as [|c rest IH]; cbn [put_cells]; intros hulls hulls' kept E.
  - injection E as <- <-. repeat split; auto using grows_refl.
  - destruct (putCellToHulls c hulls) as [hs1|] eqn:Ep.
    + destruct (putCellToHulls_Some _ _ _ Ep) as (L1 & G1 & J1 & O1).
      destruct (IH _ _ _ E) as (L & G & K & _ & Sub & Cov & O).
      split; [congruence|]. split; [eapply grows_trans; eauto|].
      split; [cbn [List.length]; lia|].
      split; [cbn [List.length]; lia|].
      split; [intros x Hx; right; auto|]. split.
      * intros x [<-|Hx]; [right; eapply grows_joined; eauto|].
        destruct (Cov x Hx); auto.
      * intros v Hv. destruct (O v Hv) as [Hv1|(x & Hx & Hvx)].
        -- destruct (O1 v Hv1) as [Hv0|Hvc]; [now left|].
           right. exists c. split; [now left | exact Hvc].
        -- right. exists x. split; [now right | exact Hvx].
    + destruct (put_cells rest hulls) as [hs2 kept2] eqn:Er.
      injection E as <- <-.
      destruct (IH _ _ _ Er) as (L & G & K & Same & Sub & Cov & O).
      split; [exact L|]. split; [exact G|].
      split; [cbn [List.length]; lia|]. split.
      * cbn [List.length]. intros X.
        destruct (Same ltac:(lia)) as (-> & ->). auto.
      * split; [intros x [<-|Hx]; [now left | right; auto]|]. split.
        -- intros x [<-|Hx]; [left; now left|].
           destruct (Cov x Hx); [left; now right | now right].
        -- intros v Hv. destruct (O v Hv) as [Hv1|(x & Hx & Hvx)];
             [now left|].
           right. exists x. split; [now right | exact Hvx].
Qed.

(** X16: with more fuel than cells [processCells] returns.  Every hull
    it was given survives, possibly larger; both ends of every cell end
    up together in one hull; the hulls hold nothing but what they held
    before and the ends of the cells; and at most one hull is opened per
    cell. *)
Theorem processCells_gathers (fuel : nat) : forall cells hulls,
  (List.length cells < fuel)%nat ->
  exists result,
    processCells fuel cells hulls = Done result /\
    grows hulls result /\
    (forall c, In c cells -> joined c result) /\
    (forall v, member v result -> member v hulls \/ endpoint v cells) /\
    (List.length hulls <= List.length result
     <= List.length hulls + List.length cells)%nat.
Proof.
  induction fuel as [|fuel IH]; intros cells hulls Hfuel; [lia|].
  destruct cells as [|first others].
  - exists hulls. cbn [processCells List.length].
    split; [reflexivity|]. split; [apply grows_refl|].
    split; [intros c []|]. split; [now left | lia].
  - cbn [processCells].
    destruct (put_cells (first :: others) hulls) as [hs kept] eqn:E.
    destruct (put_cells_spec _ _ _ _ E) as (L & G & K & Same & Sub & Cov & O).
    destruct (Nat.eqb (List.length kept) (List.length (first :: others)))
      eqn:En.
    + apply Nat.eqb_eq in En. destruct (Same En) as (-> & ->).
      set (fresh := add (add [] (fst first)) (snd first)).
      destruct (IH others (hulls ++ [fresh])) as (res & R & G' & J & O' & B).
      { cbn [List.length] in Hfuel. lia. }
      exists res. split; [exact R|]. split; [|split; [|split]].
      * apply grows_trans with (hulls ++ [fresh]); [|exact G'].
        intros h H. exists h. split; [|apply incl_refl].
        apply in_or_app. now left.
      * intros c [<-|Hc]; [|now apply J].
        apply grows_joined with (hulls ++ [fresh]); [exact G'|].
        exists fresh. split; [apply in_or_app; right; now left|].
        split; [apply add_incl|]; apply add_In.
      * intros v Hv. destruct (O' v Hv) as [(h & Hh & Hvh)|(c & Hc & Hvc)].
        -- apply in_app_or in Hh. destruct Hh as [Hh|[<-|[]]].
           ++ left. exists h. auto.
           ++ right. exists first. split; [now left|].
              apply add_origin in Hvh. destruct Hvh as [Hvh|Hvh]; [|auto].
              apply add_origin in Hvh. destruct Hvh as [[]|Hvh]. auto.
        -- right. exists c. split; [now right | exact Hvc].
      * rewrite length_app in B. cbn [List.length] in *. lia.
    + apply Nat.eqb_neq in En.
      destruct (IH kept hs) as (res & R & G' & J & O' & B).
      { cbn [List.length] in *. lia. }
      exists res. split; [exact R|]. split; [|split; [|split]].
      * eapply grows_trans; eauto.
      * intros c Hc. destruct (Cov c Hc) as [Hk|Hj]; [now apply J|].
        eapply grows_joined; eauto.
      * intros v Hv. destruct (O' v Hv) as [Hv'|(c & Hc & Hvc)].
        -- now apply O.
        -- right. exists c. split; [now apply Sub | exact Hvc].
      * cbn [List.length] in *. lia.
Qed.


Lemma processCells_gathers_witness :
  (List.length [(1, 2); (3, 4); (2, 3)] < 4)%nat /\
  exists result,
    processCells 4 [(1, 2); (3, 4); (2, 3)] [] = Done result /\
    grows [] result /\
    (forall c, In c [(1, 2); (3, 4); (2, 3)] -> joined c result) /\
    (forall v, member v result ->
       member v [] \/ endpoint v [(1, 2); (3, 4); (2, 3)]) /\
    (List.length (@nil hull) <= List.length result
     <= List.length (@nil hull) + List.length [(1, 2); (3, 4); (2, 3)])%nat.
Proof.
  split; [cbn; lia|].
  apply (processCells_gathers 4 [(1, 2); (3, 4); (2, 3)] []). cbn. lia.
Defined.

(** ** concaveHull1: the threshold loop *)

(** The sides of the triangles, in the order of the index stream. *)
Fixpoint all_sides (tris : list Z) : list cell :=
  match tris with
  | a :: b :: c :: r => (a, b) :: (b, c) :: (c, a) :: all_sides r
  | _ => []
  end.

(** The side is shorter than the threshold. *)
Definition short (Math_sqrt : Q -> Q) (pts : list point) (longEdge : Q)
  (c : cell) : bool :=
  match nth_error pts (Z.to_nat (fst c)), nth_error pts (Z.to_nat (snd c)) with
  | Some pa, Some pb => Qltb (distance Math_sqrt pa pb) longEdge
  | _, _ => false
  end.

Definition short_sides (Math_sqrt : Q -> Q) (tris : list Z)
  (pts : list point) (longEdge : Q) : list cell :=
  filter (short Math_sqrt pts longEdge) (all_sides tris).

(** Whole triangles whose corners are indices of sites. *)
Definition valid_triangles (tris : list Z) (pts : list point) : Prop :=
  (exists m, List.length tris = (3 * m)%nat) /\
  Forall (fun v => 0 <= v < Z.of_nat (List.length pts)) tris.

Lemma get_point_valid (pts : list point) (a : Z) :
  0 <= a < Z.of_nat (List.length pts) ->
  exists p, nth_error pts (Z.to_nat a) = Some p /\
            get_point pts (Some a) = Done p.
Proof.
  intros Ha. destruct (nth_error pts (Z.to_nat a)) as [p|] eqn:Ep.
  - exists p. split; [reflexivity|]. unfold get_point.
    destruct (a <? 0) eqn:E; [apply Z.ltb_lt in E; lia|]. now rewrite Ep.
  - apply nth_error_None in Ep. lia.
Qed.

Lemma getZ_skipn (tris : list Z) (i j : Z) :
  0 <= i -> 0 <= j ->
  getZ tris (i + j) = nth_error (skipn (Z.to_nat i) tris) (Z.to_nat j).
Proof.
  intros Hi Hj. unfold getZ.
  destruct (i + j <? 0) eqn:E; [apply Z.ltb_lt in E; lia|].
  rewrite nth_error_skipn. f_equal. lia.
Qed.

Section ConcaveHull1Loop.

Variable Math_sqrt : Q -> Q.

Lemma push_edges_short (tris : list Z) (pts : list point) (longEdge : Q)
  (i a b c : Z) (rest : list Z) (cells : list cell) :
  Forall (fun v => 0 <= v < Z.of_nat (List.length pts)) tris ->
  0 <= i -> skipn (Z.to_nat i) tris = a :: b :: c :: rest ->
  push_edges Math_sqrt tris pts longEdge i cells
  = Done (cells ++ filter (short Math_sqrt pts longEdge)
                          [(a, b); (b, c); (c, a)]).
Proof.
  intros Hv Hi Hs.
  assert (Hin : forall v, In v [a; b; c] -> In v tris).
  { intros v Hv'. rewrite <- (firstn_skipn (Z.to_nat i) tris), Hs.
    apply in_or_app. right. cbn [In] in *. intuition. }
  rewrite Forall_forall in Hv.
  destruct (get_point_valid pts a) as (pa & Na & Pa);
    [apply Hv, Hin; now left|].
  destruct (get_point_valid pts b) as (pb & Nb & Pb);
    [apply Hv, Hin; right; now left|].
  destruct (get_point_valid pts c) as (pc & Nc & Pc);
    [apply Hv, Hin; right; right; now left|].
  assert (G0 : getZ tris (i + 0) = Some a)
    by (rewrite getZ_skipn, Hs by lia; reflexivity).
  assert (G1 : getZ tris (i + 1) = Some b)
    by (rewrite getZ_skipn, Hs by lia; reflexivity).
  assert (G2 : getZ tris (i + 2) = Some c)
    by (rewrite getZ_skipn, Hs by lia; reflexivity).
  unfold push_edges. cbn [fold_left bind].
  change ((0 + 1) mod 3) with 1. change ((1 + 1) mod 3) with 2.
  change ((2 + 1) mod 3) with 0.
  cbn [filter]. unfold short. cbn [fst snd]. rewrite Na, Nb, Nc.
  rewrite G0, G1, Pa, Pb. cbn [bind].
  destruct (Qltb (distance Math_sqrt pa pb) longEdge);
    rewrite G2, Pc; cbn [bind];
    destruct (Qltb (distance Math_sqrt pb pc) longEdge);
    rewrite ?G0, ?Pa; cbn [bind];
    destruct (Qltb (distance Math_sqrt pc pa) longEdge);
    rewrite <- ?app_assoc; cbn [app]; rewrite ?app_nil_r; reflexivity.
Qed.

Lemma skipn_triple (tris : list Z) (m k : nat) :
  List.length tris = (3 * m)%nat -> (k < m)%nat ->
  exists a b c,
    skipn (3 * k) tris = a :: b :: c :: skipn (3 * S k) tris.
Proof.
  intros Hm Hk.
  assert (Hl : List.length (skipn (3 * k) tris) = (3 * (m - k))%nat)
    by (rewrite length_skipn; lia).
  replace (3 * S k)%nat with (3 + 3 * k)%nat by lia.
  rewrite <- skipn_skipn.
  destruct (skipn (3 * k) tris) as [|a [|b [|c r]]]; cbn [List.length] in Hl;
    try lia.
  exists a, b, c. reflexivity.
Qed.

Lemma pass_short (steps : nat) : forall tris pts longEdge k cells m,
  Forall (fun v => 0 <= v < Z.of_nat (List.length pts)) tris ->
  List.length tris = (3 * m)%nat -> (k <= m)%nat -> (m - k <= steps)%nat ->
  pass Math_sqrt steps tris pts longEdge (3 * Z.of_nat k) cells
  = Done (cells ++ filter (short Math_sqrt pts longEdge)
                          (all_sides (skipn (3 * k) tris))).
Proof.
  induction steps as [|steps IH]; intros tris pts longEdge k cells m Hv Hm Hk Hs;
    cbn [pass];
    destruct (3 * Z.of_nat k <? Z.of_nat (List.length tris)) eqn:E.
  - apply Z.ltb_lt in E. lia.
  - rewrite skipn_all2 by (apply Z.ltb_ge in E; lia).
    cbn [all_sides filter]. now rewrite app_nil_r.
  - apply Z.ltb_lt in E.
    destruct (skipn_triple tris m k Hm) as (a & b & c & Hsk); [lia|].
    rewrite (push_edges_short tris pts longEdge (3 * Z.of_nat k) a b c
               (skipn (3 * S k) tris) cells Hv); [|lia|].
    2:{ replace (Z.to_nat (3 * Z.of_nat k)) with (3 * k)%nat by lia.
        exact Hsk. }
    cbn [bind].
    replace (3 * Z.of_nat k + 3) with (3 * Z.of_nat (S k)) by lia.
    rewrite (IH tris pts longEdge (S k) _ m Hv Hm) by lia.
    rewrite Hsk. cbn [all_sides].
    change ((a, b) :: (b, c) :: (c, a) :: all_sides (skipn (3 * S k) tris))
      with ([(a, b); (b, c); (c, a)] ++ all_sides (skipn (3 * S k) tris)).
    now rewrite filter_app, app_assoc.
  - rewrite skipn_all2 by (apply Z.ltb_ge in E; lia).
    cbn [all_sides filter]. now rewrite app_nil_r.
Qed.

(** One round of the [for] loops pushes exactly the sides shorter
    than the threshold. *)
Lemma pass_round (tris : list Z) (pts : list point) (longEdge : Q) :
  valid_triangles tris pts ->
  pass Math_sqrt (List.length tris) tris pts longEdge 0 []
  = Done (short_sides Math_sqrt tris pts longEdge).
Proof.
  intros ((m & Hm) & Hv).
  exact (pass_short (List.length tris) tris pts longEdge 0 [] m Hv Hm
           ltac:(lia) ltac:(lia)).
Qed.

Variable up : Q -> Q.


Lemma relax_by_round (fuel : nat) (tris : list Z) (pts : list point)
  (longEdge : Q) :
  valid_triangles tris pts ->
  relax_by Math_sqrt up (S fuel) tris pts longEdge []
  = relax_by Math_sqrt up fuel tris pts (up longEdge)
      (short_sides Math_sqrt tris pts (up longEdge)).
Proof.
  intros Hv. cbn [relax_by].
  change (Z.of_nat (List.length []) <=? 0) with true. cbv iota.
  now rewrite (pass_round tris pts (up longEdge) Hv).
Qed.


Lemma relax_by_never (tris : list Z) (pts : list point) :
  valid_triangles tris pts ->
  forall fuel longEdge,
    (forall j, short_sides Math_sqrt tris pts (Nat.iter (S j) up longEdge)
               = []) ->
    relax_by Math_sqrt up fuel tris pts longEdge [] = OutOfFuel.
Proof.
  intros Hv. induction fuel as [|fuel IH]; intros longEdge Hall;
    [reflexivity|].
  pose proof (Hall 0%nat) as H0.
  change (Nat.iter 1 up longEdge) with (up longEdge) in H0.
  rewrite (relax_by_round _ _ _ _ Hv), H0. apply IH.
  intros j. rewrite <- Nat.iter_succ_r. apply Hall.
Qed.

End ConcaveHull1Loop.

Lemma concaveHull1_by_sorted (Math_sqrt : Q -> Q)
  (Delaunay_from : list point -> DelaunayObj) (down up : Q -> Q)
  (fuel : nat) (sites : list point) (longEdge : Q) :
  concaveHull1_by Math_sqrt Delaunay_from down up fuel sites longEdge
  = (cells <- relax_by Math_sqrt up fuel (triangles (Delaunay_from sites))
                sites (down longEdge) [] ;;
     Done (map sort_cell cells)).
Proof.
  unfold concaveHull1_by.
  destruct (relax_by _ _ _ _ _ _ _) as [cells| | |]; simpl; try reflexivity.
  pose proof (once_only_all cells) as H.
  destruct (count_edges cells []) as [cells' ec]. now rewrite H.
Qed.

(** With the exact difference and sum the computed loop is the loop
    of [concaveHull1]. *)
Lemma concaveHull1_exact (Math_sqrt : Q -> Q)
  (Delaunay_from : list point -> DelaunayObj) (fuel : nat)
  (sites : list point) (longEdge : Q) :
  concaveHull1 Math_sqrt Delaunay_from fuel sites longEdge
  = concaveHull1_by Math_sqrt Delaunay_from
      (fun l => l - (1 # 100))%Q (fun l => l + (1 # 100))%Q
      fuel sites longEdge.
Proof.
  unfold concaveHull1, concaveHull1_by.
  assert (E : forall fuel tris l cells,
            relax Math_sqrt fuel tris sites l cells
            = relax_by Math_sqrt (fun l => l + (1 # 100))%Q fuel tris sites l
                cells).
  { clear fuel. induction fuel as [|fuel IH]; intros tris l cells;
      [reflexivity|].
    cbn [relax relax_by]. destruct (_ <=? 0); [|reflexivity].
    destruct (pass _ _ _ _ _ _ _); cbn [bind]; auto. }
  now rewrite E.
Qed.


Definition square : list point := [(0, 0); (1, 0); (1, 1); (0, 1)]%Q.

Definition square_delaunay (sites : list point) : DelaunayObj :=
  {| triangles := [0; 1; 2; 0; 2; 3]; points := sites;
     triangleCoordinates := None |}.


(** X18: when no side of a triangle is ever shorter than the threshold
    the [while] loop of [concaveHull1] never pushes a cell, and the call
    does not return: so it is when [Delaunay.from] gives no triangle, and
    when the threshold is so far below the sides that adding [10e-3] to it
    is lost in rounding. *)
Theorem concaveHull1_never_returns (Math_sqrt : Q -> Q)
  (Delaunay_from : list point -> DelaunayObj) (down up : Q -> Q)
  (sites : list point) (longEdge : Q) :
  let tris := triangles (Delaunay_from sites) in
  let threshold j := Nat.iter j up (down longEdge) in
  valid_triangles tris sites ->
  (forall j, short_sides Math_sqrt tris sites (threshold (S j)) = []) ->
  forall fuel,
    concaveHull1_by Math_sqrt Delaunay_from down up fuel sites longEdge
    = OutOfFuel.
Proof.
  intros tris threshold Hv Hall fuel.
  rewrite concaveHull1_by_sorted. fold tris.
  now rewrite (relax_by_never Math_sqrt up tris sites Hv fuel (down longEdge)
                 Hall).
Qed.

(** [Delaunay.from] on no site at all: no triangle. *)
Definition empty_delaunay (sites : list point) : DelaunayObj :=
  {| triangles := []; points := sites; triangleCoordinates := None |}.

(** The double written [-1e20]: subtracting or adding [10e-3] gives it
    back. *)
Definition double_minus_1e20 : Q := -100000000000000000000.

Lemma concaveHull1_never_returns_witness :
  (forall fuel,
     concaveHull1_by sqrt_dec empty_delaunay
       (fun l => fl_minus l double_001) (fun l => fl_plus l double_001)
       fuel [] 1 = OutOfFuel) /\
  (forall fuel,
     concaveHull1_by sqrt_dec square_delaunay
       (fun l => fl_minus l double_001) (fun l => fl_plus l double_001)
       fuel square double_minus_1e20 = OutOfFuel).
Proof.
  split.
  - refine (concaveHull1_never_returns sqrt_dec empty_delaunay
              (fun l => fl_minus l double_001) (fun l => fl_plus l double_001)
              [] 1 _ _).
    + split; [exists 0%nat; reflexivity | constructor].
    + intros j. reflexivity.
  - refine (concaveHull1_never_returns sqrt_dec square_delaunay
              (fun l => fl_minus l double_001) (fun l => fl_plus l double_001)
              square double_minus_1e20 _ _).
    + split; [exists 2%nat; reflexivity|].
      repeat (constructor; [cbn; lia|]). constructor.
    + intros j.
      assert (E : Nat.iter (S j) (fun l => fl_plus l double_001)
                    (fl_minus double_minus_1e20 double_001)
                  = double_minus_1e20).
      { induction j as [|j IH]; [vm_compute; reflexivity|].
        rewrite Nat.iter_succ, IH. vm_compute. reflexivity. }
      rewrite E. vm_compute. reflexivity.
Defined.

(** ** Hull areas *)

Section HullAreaFacts.

Variable polygonArea : list point -> Q.
Variable plus : Q -> Q -> Q.

(** What is used of the rounded sum of two numbers that are not
    negative: it is below neither of them, and adding to 0 changes
    nothing.  Rounding to nearest is monotone, so the sum of doubles has
    both properties. *)
Definition plus_grows : Prop :=
  forall t a, (0 <= t)%Q -> (0 <= a)%Q ->
    (t <= plus t a)%Q /\ (a <= plus t a)%Q.

Definition plus_zero : Prop := forall a, (plus 0 a == a)%Q.

Lemma concaveHullArea_from (hulls : list (list point)) :
  plus_grows -> forall acc, (0 <= acc)%Q ->
  let total :=
    fold_left (fun total h => plus total (Qabs (polygonArea h))) hulls acc in
  (acc <= total)%Q /\
  (forall h, In h hulls -> (Qabs (polygonArea h) <= total)%Q).
Proof.
  intros Hg. induction hulls as [|h r IH]; intros acc Hacc; cbv zeta;
    cbn [fold_left].
  - split; [lra | intros h []].
  - pose proof (Qabs_nonneg (polygonArea h)) as Hh.
    destruct (Hg acc (Qabs (polygonArea h)) Hacc Hh) as [G1 G2].
    destruct (IH (plus acc (Qabs (polygonArea h)))) as [I1 I2]; [lra|].
    cbv zeta in I1, I2. split; [lra|].
    intros h' [<-|Hin]; [lra | now apply I2].
Qed.

(** X19: [concaveHullArea] adds up the absolute polygon areas of the
    hulls, whatever their orientation.  For a sum that is not below its
    non-negative operands (as the rounded sum of doubles is), the total is
    never negative and no hull counts for more than the total; for a
    single hull it is [convexHullArea]. *)
Theorem concaveHullArea_bounds (hulls : list (list point)) :
  plus_grows -> plus_zero ->
  (0 <= concaveHullArea polygonArea plus hulls)%Q /\
  (forall h, In h hulls ->
     (convexHullArea polygonArea h
      <= concaveHullArea polygonArea plus hulls)%Q) /\
  (forall h, (concaveHullArea polygonArea plus [h]
              == convexHullArea polygonArea h)%Q).
Proof.
  intros Hg Hz.
  destruct (concaveHullArea_from hulls Hg 0%Q) as [H1 H2]; [lra|].
  cbv zeta in H1, H2. split; [exact H1|]. split; [exact H2|].
  intros h. unfold concaveHullArea, convexHullArea. cbn [fold_left].
  apply Hz.
Qed.

End HullAreaFacts.

Lemma concaveHullArea_bounds_witness :
  (0 <= concaveHullArea polygon_area Qplus [diamond; three_points])%Q /\
  (forall h, In h [diamond; three_points] ->
     (convexHullArea polygon_area h
      <= concaveHullArea polygon_area Qplus [diamond; three_points])%Q) /\
  (forall h, (concaveHullArea polygon_area Qplus [h]
              == convexHullArea polygon_area h)%Q).
Proof.
  apply (concaveHullArea_bounds polygon_area Qplus [diamond; three_points]).
  - intros t a Ht Ha. split; lra.
  - intros a. lra.
Defined.

(** ** Direct binning: one bin per distinct point *)

Definition centre (c : bin) : point := (bin_x c, bin_y c).

Lemma uniq_spec (l : list point) : forall seen,
  (forall k, In k (uniq seen l) ->
     In k l /\ existsb (equalPoints k) seen = false) /\
  ForallOrdPairs (fun a b => equalPoints a b = false) (uniq seen l) /\
  (forall p, In p l ->
     existsb (equalPoints p) seen = true \/
     exists k, In k (uniq seen l) /\ equalPoints k p = true).
Proof.
  induction l as [|p r IH]; intros seen; cbn [uniq].
  - split; [intros k []|]. split; [constructor | intros p []].
  - destruct (existsb (equalPoints p) seen) eqn:E.
    + destruct (IH seen) as (A & B & C).
      split; [intros k Hk; destruct (A k Hk); split; [now right | auto]|].
      split; [exact B|]. intros q [<-|Hq]; [now left | auto].
    + destruct (IH (p :: seen)) as (A & B & C).
      split; [|split].
      * intros k [<-|Hk]; [split; [now left | exact E]|].
        destruct (A k Hk) as (Hin & Hs). cbn [existsb] in Hs.
        apply orb_false_iff in Hs. split; [now right | apply Hs].
      * constructor; [|exact B]. apply Forall_forall. intros k Hk.
        destruct (A k Hk) as (_ & Hs). cbn [existsb] in Hs.
        apply orb_false_iff in Hs. rewrite equalPoints_sym. apply Hs.
      * intros q [<-|Hq].
        -- right. exists p. split; [now left | apply equalPoints_refl].
        -- destruct (C q Hq) as [Hs|(k & Hk & Ek)].
           ++ cbn [existsb] in Hs. apply orb_true_iff in Hs.
              destruct Hs as [Hs|Hs]; [|now left].
              right. exists p. split; [now left|].
              now rewrite equalPoints_sym.
           ++ right. exists k. split; [now right | exact Ek].
Qed.

Lemma sum_cons (a : nat) (l : list nat) :
  list_sum (a :: l) = (a + list_sum l)%nat.
Proof. reflexivity. Qed.

Definition hits (ks : list point) (p : point) : nat :=
  list_sum (map (fun k => if equalPoints k p then 1%nat else 0%nat) ks).

Lemma hits_none (ks : list point) (p : point) :
  Forall (fun k => equalPoints k p = false) ks -> hits ks p = 0%nat.
Proof.
  unfold hits. induction 1 as [|k r Hk Hr IH]; [reflexivity|].
  simpl. now rewrite Hk, IH.
Qed.

Lemma hits_one (ks : list point) (p : point) :
  ForallOrdPairs (fun a b => equalPoints a b = false) ks ->
  (exists k, In k ks /\ equalPoints k p = true) -> hits ks p = 1%nat.
Proof.
  induction 1 as [|k r Hk Hr IH]; intros (k0 & Hin & E); [destruct Hin|].
  unfold hits. simpl. fold (hits r p).
  destruct (equalPoints k p) eqn:Ek.
  - rewrite hits_none; [reflexivity|].
    rewrite Forall_forall in Hk |- *. intros k' Hk'.
    rewrite equalPoints_sym, <- (equalPoints_congr k p k' Ek).
    now apply Hk.
  - destruct Hin as [<-|Hin]; [congruence|]. apply IH. eauto.
Qed.

Lemma group_sizes (ks l : list point) :
  ForallOrdPairs (fun a b => equalPoints a b = false) ks ->
  (forall p, In p l -> exists k, In k ks /\ equalPoints k p = true) ->
  list_sum (map (fun k => List.length (group l k)) ks) = List.length l.
Proof.
  intros Hd. induction l as [|p l IH]; intros Hall.
  - unfold group. cbn [filter List.length].
    induction ks; [reflexivity | simpl; apply IHks; now inversion Hd].
  - assert (E : forall ks',
      list_sum (map (fun k => List.length (group (p :: l) k)) ks')
      = (hits ks' p + list_sum (map (fun k => List.length (group l k)) ks'))%nat).
    { induction ks' as [|k r IHr]; [reflexivity|].
      unfold hits in *. cbn [map]. rewrite !sum_cons, IHr.
      unfold group. cbn [filter].
      destruct (equalPoints k p); cbn [List.length]; lia. }
    rewrite E, IH, hits_one; [reflexivity | exact Hd | | ].
    + apply Hall. now left.
    + intros q Hq. apply Hall. now right.
Qed.

(** X20: with fewer distinct points than [minNumOfBins] the binning
    returns at once, whatever the fuel, with no binner, no bin size and
    radius 0, and its bins partition the points by value: the sizes add
    up to the number of points, no two bins have the same centre, and
    each bin holds exactly the points equal to its centre, which is one
    of them. *)
Theorem binning_of_direct (Math_sqrt : Q -> Q)
  (hexbin : Q -> list point -> list bin) (fuel : nat) (o : options)
  (pts : list point) :
  (inject_Z (Z.of_nat (List.length (uniq [] pts)))
   < or_default (minBins o) 50)%Q ->
  exists b,
    binning_of Math_sqrt hexbin fuel o pts = Done b /\
    binner b = None /\ binSize b = None /\ (binRadius b == 0)%Q /\
    list_sum (map (fun c => List.length (bin_points c)) (bins b))
    = List.length pts /\
    ForallOrdPairs (fun c c' => equalPoints (centre c) (centre c') = false)
                   (bins b) /\
    (forall c, In c (bins b) ->
       bin_points c <> [] /\ bin_radius c = Some 0%Q /\
       In (centre c) pts /\
       forall p, In p (bin_points c) <->
                 In p pts /\ equalPoints (centre c) p = true) /\
    (forall p, In p pts -> exists c, In c (bins b) /\ In p (bin_points c)).
Proof.
  intros H. apply Qltb_true in H. unfold binning_of. rewrite H.
  destruct (uniq_spec pts []) as (A & B & C).
  assert (C' : forall p, In p pts ->
            exists k, In k (uniq [] pts) /\ equalPoints k p = true).
  { intros p Hp. destruct (C p Hp) as [X|X]; [discriminate X | exact X]. }
  eexists. split; [reflexivity|]. cbn [bins binner binSize binRadius].
  split; [reflexivity|]. split; [reflexivity|]. split; [reflexivity|].
  split; [|split; [|split]].
  - rewrite map_map. cbn [bin_points]. now apply group_sizes.
  - clear A C C' H. induction B as [|k r Hk Hr IH]; cbn [map]; [constructor|].
    constructor; [|exact IH].
    apply Forall_forall. intros c Hc. apply in_map_iff in Hc.
    destruct Hc as (k' & <- & Hk'). unfold centre. cbn [bin_x bin_y].
    rewrite <- !surjective_pairing.
    rewrite Forall_forall in Hk. now apply Hk.
  - intros c Hc. apply in_map_iff in Hc. destruct Hc as (k & <- & Hk).
    unfold centre. cbn [bin_points bin_x bin_y bin_radius].
    rewrite <- surjective_pairing. destruct (A k Hk) as (Hin & _).
    assert (Hg : forall p, In p (group pts k) <->
                           In p pts /\ equalPoints k p = true).
    { intros p. unfold group. apply filter_In. }
    split; [|split; [reflexivity | split; [exact Hin | exact Hg]]].
    intros E. assert (X : In k (group pts k)); [|rewrite E in X; destruct X].
    apply Hg. split; [exact Hin | apply equalPoints_refl].
  - intros p Hp. destruct (C' p Hp) as (k & Hk & E).
    eexists. split; [apply in_map; exact Hk|]. cbn [bin_points].
    unfold group. apply filter_In. auto.
Qed.


Definition repeated_points : list point :=
  [(0, 0); (1, 0); (0, 0); (2 # 4, 1); (1 # 2, 1)]%Q.

Lemma binning_of_direct_witness :
  (inject_Z (Z.of_nat (List.length (uniq [] repeated_points)))
   < or_default (minBins default_options) 50)%Q /\
  exists b,
    binning_of sqrt_dec no_hexbin 0 default_options repeated_points = Done b /\
    binner b = None /\ binSize b = None /\ (binRadius b == 0)%Q /\
    list_sum (map (fun c => List.length (bin_points c)) (bins b))
    = List.length repeated_points /\
    ForallOrdPairs (fun c c' => equalPoints (centre c) (centre c') = false)
                   (bins b) /\
    (forall c, In c (bins b) ->
       bin_points c <> [] /\ bin_radius c = Some 0%Q /\
       In (centre c) repeated_points /\
       forall p, In p (bin_points c) <->
                 In p repeated_points /\ equalPoints (centre c) p = true) /\
    (forall p, In p repeated_points ->
       exists c, In c (bins b) /\ In p (bin_points c)).
Proof.
  assert (H : (inject_Z (Z.of_nat (List.length (uniq [] repeated_points)))
               < or_default (minBins default_options) 50)%Q)
    by (unfold Qlt; simpl; lia).
  split; [exact H|].
  exact (binning_of_direct sqrt_dec no_hexbin 0 default_options
           repeated_points H).
Defined.

(** ** delaunayFromPoints below three collinear sites *)

Section DelaunayFewSites.

Variable isA2DLine : list point -> bool.
Variable Array_sort : (point -> point -> Q) -> list point -> list point.
Variable Delaunay_from : list point -> DelaunayObj.

(** X21: for fewer than three collinear sites, and a sort that keeps
    the number of elements, [delaunayFromPoints] returns the sorted
    sites with no triangle for zero or one site, and for two sites the
    single triple [(0, 1, -1)], whose last index names no site. *)
Theorem delaunayFromPoints_few_sites (sites : list point) :
  (forall cmp l, List.length (Array_sort cmp l) = List.length l) ->
  isA2DLine sites = true ->
  (List.length sites < 3)%nat ->
  exists d,
    delaunayFromPoints isA2DLine Array_sort Delaunay_from sites = Done d /\
    points d = Array_sort site_compare sites /\
    triangles d = (if Nat.eqb (List.length sites) 2 then [0; 1; -1] else []) /\
    (List.length sites = 2%nat -> getZ (triangles d) 2 = Some (-1) /\
       get_point (points d) (getZ (triangles d) 2) = Throw "TypeError").
Proof.
  intros Hlen Hline Hn. unfold delaunayFromPoints. rewrite Hline, Hlen.
  destruct sites as [|a [|b [|c r]]]; cbn [List.length] in *; [| | |lia].
  - eexists. split; [reflexivity|]. cbn. repeat split; lia.
  - eexists. split; [reflexivity|]. cbn. repeat split; lia.
  - eexists. split; [reflexivity|]. cbn. repeat split; reflexivity.
Qed.

End DelaunayFewSites.

Lemma delaunayFromPoints_few_sites_witness :
  exists d,
    delaunayFromPoints isA2DLine_spec (@insertion_sort point) no_delaunay
      [(0, 0); (1, 1)]%Q = Done d /\
    points d = insertion_sort site_compare [(0, 0); (1, 1)]%Q /\
    triangles d = [0; 1; -1] /\
    (List.length [(0, 0); (1, 1)]%Q = 2%nat ->
       getZ (triangles d) 2 = Some (-1) /\
       get_point (points d) (getZ (triangles d) 2) = Throw "TypeError").
Proof.
  refine (delaunayFromPoints_few_sites isA2DLine_spec (@insertion_sort point)
            no_delaunay [(0, 0); (1, 1)]%Q _ _ _).
  - intros cmp l. apply insertion_sort_length.
  - reflexivity.
  - cbn. lia.
Defined.

(** ** DisjointSet: what a forest can hold *)

(** The forests a program can build: made with [new DisjointSet()], then
    changed by calls of [makeSet] and [union] that return. *)
Inductive reachable : Forest -> Prop :=
| reach_new (this f : Forest) :
    DisjointSet (Some this) = Done f -> reachable f
| reach_makeSet (f f' : Forest) (i : point) :
    reachable f -> makeSet f i = Done f' -> reachable f'
| reach_union (fuel : nat) (f f' : Forest) (x y : point) :
    reachable f -> union fuel f x y = Done f' -> reachable f'.

Lemma reachable_empty (f : Forest) : reachable f -> index_ f = [].
Proof.
  induction 1 as [this f E|f f' i _ IH E|fuel f f' x y _ IH E].
  - now injection E as <-.
  - unfold makeSet in E. rewrite IH in E. discriminate E.
  - unfold union, find in E. rewrite IH in E. cbn in E.
    now injection E as <-.
Qed.

(** X22: no forest ever holds a node.  [makeSet] calls [Node(id)]
    without [new], which throws before anything is stored, so on every
    forest built with [new DisjointSet()], [makeSet] and [union] the index
    is empty: [size()] is 0, [find] answers [undefined] for every id,
    [union] changes nothing and [makeSet] throws a [TypeError]. *)
Theorem forest_stays_empty (f : Forest) :
  reachable f ->
  index_ f = [] /\ size f = 0 /\
  (forall fuel i, find fuel f i = Done None) /\
  (forall fuel x y, union fuel f x y = Done f) /\
  (forall i, makeSet f i = Throw "TypeError").
Proof.
  intros H. apply reachable_empty in H. destruct f as [ix]. cbn in H.
  subst ix. repeat split.
Qed.

Lemma forest_stays_empty_witness :
  reachable {| index_ := [] |} /\
  index_ {| index_ := [] |} = [] /\ size {| index_ := [] |} = 0 /\
  (forall fuel i, find fuel {| index_ := [] |} i = Done None) /\
  (forall fuel x y,
     union fuel {| index_ := [] |} x y = Done {| index_ := [] |}) /\
  (forall i, makeSet {| index_ := [] |} i = Throw "TypeError").
Proof.
  assert (H : reachable {| index_ := [] |})
    by exact (reach_new {| index_ := [] |} {| index_ := [] |} eq_refl).
  split; [exact H|].
  exact (forest_stays_empty {| index_ := [] |} H).
Defined.

(** ** convexHull: the vertices that are sorted *)

Lemma uniqZ_spec (l : list Z) : forall seen,
  NoDup (uniqZ seen l) /\
  (forall i, In i (uniqZ seen l) <-> In i l /\ ~ In i seen).
Proof.
  induction l as [|a r IH]; intros seen; cbn [uniqZ].
  - split; [constructor|]. intros i. split; [intros [] | intros [[] _]].
  - destruct (existsb (Z.eqb a) seen) eqn:E.
    + destruct (IH seen) as (N & M). split; [exact N|].
      intros i. rewrite M. split; [intros [H1 H2]; split; [now right | exact H2]|].
      intros [[<-|H1] H2]; [|auto].
      exfalso. apply H2. apply existsb_exists in E.
      destruct E as (x & Hx & Ex). apply Z.eqb_eq in Ex. now subst.
    + destruct (IH (a :: seen)) as (N & M).
      assert (Ha : ~ In a seen).
      { intros Hin. assert (X : existsb (Z.eqb a) seen = true).
        { apply existsb_exists. exists a. split; [exact Hin | apply Z.eqb_refl]. }
        congruence. }
      split.
      * constructor; [|exact N]. rewrite M. intros [_ H]. apply H. now left.
      * intros i. cbn [In]. rewrite M. cbn [In]. split.
        -- intros [<-|[H1 H2]]; [split; [now left | exact Ha]|].
           split; [now right | intros H; apply H2; now right].
        -- intros [[<-|H1] H2]; [now left|].
           destruct (Z.eq_dec a i) as [->|Hne]; [now left|].
           right. split; [exact H1|]. intros [H|H]; [congruence | auto].
Qed.

Lemma flat_In (cells : list cell) (i : Z) :
  In i (flat cells) <-> endpoint i cells.
Proof.
  unfold flat, endpoint. rewrite in_flat_map. split.
  - intros (c & Hc & [H|[H|[]]]); exists c; auto.
  - intros (c & Hc & [H|H]); exists c; cbn [In]; auto.
Qed.

Lemma get_points_Done (sites : list point) (h : list Z) :
  Forall (fun i => 0 <= i < Z.of_nat (List.length sites)) h ->
  exists vs, get_points sites h = Done vs /\
             Forall2 (fun i p => nth_error sites (Z.to_nat i) = Some p) h vs.
Proof.
  induction 1 as [|i r Hi Hr (vs & E & F)]; cbn [get_points].
  - exists []. split; [reflexivity | constructor].
  - destruct (nth_error sites (Z.to_nat i)) as [p|] eqn:Ep.
    + exists (p :: vs). unfold get_point.
      destruct (i <? 0) eqn:E0; [apply Z.ltb_lt in E0; lia|].
      rewrite Ep, E. cbn [bind]. split; [reflexivity | now constructor].
    + apply nth_error_None in Ep. lia.
Qed.

Lemma get_points_Throw (sites : list point) (h : list Z) :
  Exists (fun i => ~ 0 <= i < Z.of_nat (List.length sites)) h ->
  get_points sites h = Throw "TypeError".
Proof.
  induction h as [|i r IH]; intros H; [inversion H|]. cbn [get_points].
  unfold get_point. destruct (i <? 0) eqn:E0; [reflexivity|].
  destruct (nth_error sites (Z.to_nat i)) as [p|] eqn:Ep; [|reflexivity].
  cbn [bind]. rewrite IH; [reflexivity|].
  inversion H as [? ? Hi|? ? Hr]; subst; [|exact Hr].
  exfalso. apply Hi. apply Z.ltb_ge in E0.
  assert (Z.to_nat i < List.length sites)%nat
    by (apply nth_error_Some; congruence).
  lia.
Qed.

Lemma insert_by_perm {A} (cmp : A -> A -> Q) (a : A) (l : list A) :
  Permutation (insert_by cmp a l) (a :: l).
Proof.
  induction l as [|b r IH]; cbn [insert_by]; [reflexivity|].
  destruct (_ || _); [|reflexivity].
  rewrite IH. apply perm_swap.
Qed.

Lemma insertion_sort_perm {A} (cmp : A -> A -> Q) (l : list A) :
  Permutation (insertion_sort cmp l) l.
Proof.
  unfold insertion_sort.
  assert (G : forall acc,
            Permutation (fold_left (fun acc a => insert_by cmp a acc) l acc)
                        (l ++ acc)).
  { induction l as [|a r IH]; intros acc; cbn [fold_left app]; [reflexivity|].
    rewrite IH, insert_by_perm. symmetry. apply Permutation_middle. }
  rewrite G. now rewrite app_nil_r.
Qed.

Section ConvexHullVertices.

Variable isA2DLine : list point -> bool.
Variable Array_sort : (point -> point -> Q) -> list point -> list point.
Variable alphaShape : Q -> list point -> list cell.
Variable Math_atan2 : Q -> Q -> Q.

(** X23: for sites not on one line, and a sort that permutes its
    array, [convexHull] looks up each distinct index of the cells of
    [alphaShape(0, sites)] once.  When all of them name a site it
    returns a rearrangement of these sites, one per distinct index;
    when one does not, it throws a [TypeError]. *)
Theorem convexHull_vertices (sites : list point) :
  (forall cmp l, Permutation (Array_sort cmp l) l) ->
  isA2DLine sites = false ->
  let idx := uniqZ [] (flat (alphaShape 0 sites)) in
  NoDup idx /\
  (forall i, In i idx <-> endpoint i (alphaShape 0 sites)) /\
  (Forall (fun i => 0 <= i < Z.of_nat (List.length sites)) idx ->
   exists hull vs,
     convexHull isA2DLine Array_sort alphaShape Math_atan2 sites = Done hull /\
     Forall2 (fun i p => nth_error sites (Z.to_nat i) = Some p) idx vs /\
     Permutation hull vs) /\
  (Exists (fun i => ~ 0 <= i < Z.of_nat (List.length sites)) idx ->
   convexHull isA2DLine Array_sort alphaShape Math_atan2 sites
   = Throw "TypeError").
Proof.
  intros Hsort Hline idx.
  destruct (uniqZ_spec (flat (alphaShape 0 sites)) []) as (N & M).
  fold idx in N, M. split; [exact N|]. split; [|split].
  - intros i. rewrite M, flat_In. split; [now intros [H _] | auto].
  - intros Hv. destruct (get_points_Done sites idx Hv) as (vs & E & F).
    exists (sortVerticies Array_sort Math_atan2 vs), vs.
    unfold convexHull. rewrite Hline. fold idx. rewrite E. cbn [bind].
    split; [reflexivity|]. split; [exact F | apply Hsort].
  - intros Hx. unfold convexHull. rewrite Hline. fold idx.
    now rewrite get_points_Throw.
Qed.

End ConvexHullVertices.

Lemma convexHull_vertices_witness :
  let idx := uniqZ [] (flat (diamond_cells 0 diamond)) in
  NoDup idx /\
  (forall i, In i idx <-> endpoint i (diamond_cells 0 diamond)) /\
  (Forall (fun i => 0 <= i < Z.of_nat (List.length diamond)) idx ->
   exists hull vs,
     convexHull isA2DLine_spec (@insertion_sort point) diamond_cells
       atan2_axis diamond = Done hull /\
     Forall2 (fun i p => nth_error diamond (Z.to_nat i) = Some p) idx vs /\
     Permutation hull vs) /\
  (Exists (fun i => ~ 0 <= i < Z.of_nat (List.length diamond)) idx ->
   convexHull isA2DLine_spec (@insertion_sort point) diamond_cells
     atan2_axis diamond = Throw "TypeError").
Proof.
  refine (convexHull_vertices isA2DLine_spec (@insertion_sort point)
            diamond_cells atan2_axis diamond _ _).
  - intros cmp l. apply insertion_sort_perm.
  - reflexivity.
Defined.

(** ** scagScorer: the spanning tree is never reached *)

Section NeverCompletes.

Variable Math_sqrt : Q -> Q.
Variable isA2DLine : list point -> bool.
Variable Array_sort : (point -> point -> Q) -> list point -> list point.
Variable Delaunay_from : list point -> DelaunayObj.
Variable Normalizer : list point -> run (list point).
Variable hexbin : Q -> list point -> list bin.
Variable measures : graph -> host -> host * run unit.

(** X24: no run of [scagScorer] completes.  Whatever the points, the
    options and the measures, the run ends in an error or without end
    before the measures are called: [mst] throws on every graph, so the
    values [graph] and [mst] of the host object are never written. *)
Theorem scagScorer_never_completes (fuel : nat) (this : host)
  (inputPoints : list point) (o : options) :
  let '(this', r) :=
    scagScorer Math_sqrt isA2DLine Array_sort Delaunay_from Normalizer
      hexbin measures fuel this inputPoints o in
  r <> Done tt /\
  host_get this' "graph" = host_get this "graph" /\
  host_get this' "mst" = host_get this "mst".
Proof.
  unfold scagScorer.
  destruct (if isNormalized o then _ else _) as [normalizedPoints|msg| |];
    cbn [step]; try (split; [discriminate | split; reflexivity]).
  destruct (if isBinned o then _ else _) as [[sites b]|msg| |];
    cbn [step];
    try (split; [discriminate | split; host_simpl; reflexivity]).
  destruct (delaunayFromPoints _ _ _ sites) as [d|msg| |]; cbn [step];
    try (split; [discriminate | split; destruct b; host_simpl; reflexivity]).
  destruct (triangleCoordinates d) as [t|]; cbn [step];
    (split; [discriminate | split; destruct b; host_simpl; reflexivity]).
Qed.

End NeverCompletes.
